(** * SonicTransfer: codec, framing and receiver session

    A shallow embedding of the signal-independent core of SonicTransfer
    Enhanced v2.5 (the LZ77 codec, the two integrity sums, the calibration
    band search, the bit framing and interleaving of the sender, and the
    synchroniser, packet dispatch and integrity check of the receiver; the
    binary payload encoder, the phase modulators, the tone detector, the
    signal history, and the sessions of the sender and of the receiver),
    followed by the properties established about it.

    Conventions.
    - A JavaScript number that holds an integer is a [Z]; the 32-bit
      operators [& | ^ << >>] first wrap their operands with [ToInt32].
    - A [Uint8Array] is a [list Z] whose entries are bytes; an ordinary
      array that may hold [undefined] is a [list (option Z)].
    - A string over the alphabet '0'/'1' is a [list bool] ('1' is [true]).
    - A string whose characters all have a code below 256 is a [string];
      an arbitrary string is the [list N] of its UTF-16 code units.
    - [receivedChunks], a [Map] whose keys are Numbers, is a
      [gmap Z string]: a Number that is not NaN is the integer it equals. *)

From stdpp Require Import gmap list.
From Stdlib Require Import ZArith List String Ascii Lia Bool.
Import ListNotations.

(* ================================================================== *)
(** * Part I: the program *)
(* ================================================================== *)

(** ** JavaScript primitives used by the source *)

Module JS.
Local Open Scope Z_scope.

(** ECMAScript ToInt32: reduce modulo 2^32 into [-2^31, 2^31). *)
Definition ToInt32 (x : Z) : Z :=
  let m := x mod 2 ^ 32 in
  if 2 ^ 31 <=? m then m - 2 ^ 32 else m.

(** [a & b], [a | b], [a ^ b]. *)
Definition band (a b : Z) : Z := Z.land (ToInt32 a) (ToInt32 b).
Definition bor (a b : Z) : Z := Z.lor (ToInt32 a) (ToInt32 b).
Definition bxor (a b : Z) : Z := Z.lxor (ToInt32 a) (ToInt32 b).

(** [a << n] and the sign-propagating [a >> n]. *)
Definition shl (a n : Z) : Z := ToInt32 (Z.shiftl (ToInt32 a) (n mod 32)).
Definition sar (a n : Z) : Z := Z.shiftr (ToInt32 a) (n mod 32).

(** Truthiness of a number. *)
Definition truthy (n : Z) : bool := negb (n =? 0).

(** What a call can end in: a value, or a thrown exception. *)
Inductive error : Type :=
| TypeError
| Error (message : string).

Inductive completion (A : Type) : Type :=
| Normal (value : A)
| Throw (e : error).
Arguments Normal {A} value.
Arguments Throw {A} e.

(** [a[k]] on an ordinary array: [undefined] outside the array (also
    for a negative index) and where the slot itself holds [undefined]. *)
Definition get (a : list (option Z)) (k : Z) : option Z :=
  if k <? 0 then None
  else match nth_error a (Z.to_nat k) with
       | Some v => v
       | None => None
       end.

(** [a.slice(0, e)]. *)
Definition slice0 {A : Type} (a : list A) (e : Z) : list A :=
  if e <? 0 then firstn (Z.to_nat (Z.max (Z.of_nat (List.length a) + e) 0)) a
  else firstn (Z.to_nat e) a.

(** [a === b] on array slots ([None] is [undefined]). *)
Definition strictEq (a b : option Z) : bool :=
  match a, b with
  | Some x, Some y => x =? y
  | None, None => true
  | _, _ => false
  end.

(** One element of [new Uint8Array(array)]. *)
Definition toUint8 (v : option Z) : Z :=
  match v with
  | Some n => n mod 256
  | None => 0
  end.
End JS.

(** ** LZ77-based compression: [class LZCompressor] *)

Module LZCompressor.
Import JS.

Definition windowSize : nat := 4096.
Definition lookaheadSize : nat := 18.

(** The inner [while] of the search: starting from [length], extend the
    match of the text at [i] with the text at [pos].  [fuel] is what is
    left of [lookaheadSize]. *)
Fixpoint extendMatch (input : list Z) (i pos length fuel : nat) : nat :=
  match fuel with
  | O => length
  | S fuel' =>
      if (pos + length <? List.length input)%nat
         && strictEq (nth_error input (i + length))
                     (nth_error input (pos + length))
      then extendMatch input i pos (S length) fuel'
      else length
  end.

Definition matchAt (input : list Z) (i pos : nat) : nat :=
  extendMatch input i pos 0 lookaheadSize.

(** Body of [for (let i = searchStart; i < searchEnd; i++)], on the pair
    [(matchLength, matchDistance)]. *)
Definition searchStep (input : list Z) (pos : nat)
           (best : nat * nat) (i : nat) : nat * nat :=
  let length := matchAt input i pos in
  if (fst best <? length)%nat then (length, (pos - i)%nat) else best.

Definition searchStart (pos : nat) : nat := (pos - windowSize)%nat.

Definition findMatch (input : list Z) (pos : nat) : nat * nat :=
  fold_left (searchStep input pos)
            (seq (searchStart pos) (pos - searchStart pos)) (0%nat, 0%nat).

(** The four header bytes. *)
Definition header (n : Z) : list Z :=
  [band (sar n 24%Z) 0xFF%Z; band (sar n 16%Z) 0xFF%Z; band (sar n 8%Z) 0xFF%Z;
   band n 0xFF%Z].

(** One turn of the outer [while]: the bytes pushed and the new [pos]. *)
Definition emit (input : list Z) (pos : nat) : list Z * nat :=
  let '(matchLength, matchDistance) := findMatch input pos in
  if (3 <=? matchLength)%nat then
    ([0xFF%Z;
      band (sar (Z.of_nat matchDistance) 8%Z) 0xFF%Z;
      band (Z.of_nat matchDistance) 0xFF%Z;
      Z.of_nat matchLength],
     (pos + matchLength)%nat)
  else ([nth pos input 0%Z], (pos + 1)%nat).

(** The outer [while (pos < input.length)].  [None] only when [fuel]
    turns run out before the cursor reaches the end. *)
Fixpoint compressLoop (fuel : nat) (input : list Z) (pos : nat)
         (output : list Z) : option (list Z) :=
  if (List.length input <=? pos)%nat then Some output
  else match fuel with
       | O => None
       | S fuel' =>
           let '(bytes, pos') := emit input pos in
           compressLoop fuel' input pos' (output ++ bytes)
       end.

Definition compress (data : list Z) : option (list Z) :=
  compressLoop (List.length data) data 0
               (header (Z.of_nat (List.length data))).

(** [originalSize], read from the header; a missing byte is
    [undefined], which the shift turns into 0. *)
Definition originalSize (input : list Z) : Z :=
  bor (bor (bor (shl (nth 0 input 0%Z) 24%Z) (shl (nth 1 input 0%Z) 16%Z))
           (shl (nth 2 input 0%Z) 8%Z))
      (nth 3 input 0%Z).

(** [for (let i = 0; i < length; i++) output.push(output[matchStart + i])],
    with [count] turns left. *)
Fixpoint copyMatch (output : list (option Z)) (matchStart : Z)
         (i count : nat) : list (option Z) :=
  match count with
  | O => output
  | S count' =>
      copyMatch (output ++ [get output (matchStart + Z.of_nat i)%Z])
                matchStart (S i) count'
  end.

(** The decoding [while], on [rest], the input from [pos] on:
    [pos < input.length] says [rest] is not empty, and
    [input[pos] === 0xFF && pos + 3 < input.length] says [rest] starts
    with the marker and holds three more bytes. *)
Fixpoint decompressLoop (size : Z) (rest : list Z)
         (output : list (option Z)) : list (option Z) :=
  match rest with
  | [] => output
  | b :: rest1 =>
      if (Z.of_nat (List.length output) <? size)%Z then
        match rest1 with
        | hi :: lo :: len :: rest4 =>
            if (b =? 0xFF)%Z then
              let distance := bor (shl hi 8%Z) lo in
              let matchStart := (Z.of_nat (List.length output) - distance)%Z in
              decompressLoop size rest4
                             (copyMatch output matchStart 0 (Z.to_nat len))
            else decompressLoop size rest1 (output ++ [Some b])
        | _ => decompressLoop size rest1 (output ++ [Some b])
        end
      else output
  end.

(** Everything pushed to [output] before the final [slice]. *)
Definition produced (data : list Z) : list (option Z) :=
  decompressLoop (originalSize data) (skipn 4 data) [].

Definition decompress (data : list Z) : completion (list Z) :=
  Normal (map toUint8 (slice0 (produced data) (originalSize data))).
End LZCompressor.

(** ** Integrity sums *)

Section Integrity.
Import JS.
Local Open Scope Z_scope.

Definition calculateChecksum (data : list Z) : Z :=
  fold_left (fun checksum b => band (checksum + b) 0xFFFF) data 0.

(** One turn of [for (let j = 0; j < 8; j++)]. *)
Definition crc16_shift (crc : Z) : Z :=
  if truthy (band crc 0x0001) then bxor (sar crc 1) 0xA001 else sar crc 1.

Definition crc16_byte (crc b : Z) : Z := Nat.iter 8 crc16_shift (bxor crc b).

Definition crc16 (data : list Z) : Z := fold_left crc16_byte data 0xFFFF.
End Integrity.

(** ** Calibration: [analyzeCalibrationData] *)

Record config : Type := {
  FREQ_MIN : Z;
  FREQ_MAX : Z;
  NUM_CHANNELS : nat;
  CHANNEL_SPACING : Z
}.

(** [CONFIG] under each of the four [SPEED_PROFILES]. *)
Definition STANDARD : config :=
  {| FREQ_MIN := 2000; FREQ_MAX := 10000; NUM_CHANNELS := 4; CHANNEL_SPACING := 400 |}.
Definition FAST : config :=
  {| FREQ_MIN := 2000; FREQ_MAX := 10000; NUM_CHANNELS := 8; CHANNEL_SPACING := 200 |}.
Definition ULTRA : config :=
  {| FREQ_MIN := 2000; FREQ_MAX := 10000; NUM_CHANNELS := 12; CHANNEL_SPACING := 133 |}.
Definition EXTREME : config :=
  {| FREQ_MIN := 2000; FREQ_MAX := 10000; NUM_CHANNELS := 16; CHANNEL_SPACING := 100 |}.

Section Calibration.
Import JS.
Local Open Scope Z_scope.

(** The noise figures are floating-point means over the recorded
    spectra; they are kept abstract.  [avgNoiseOf freq] is the
    [avgNoise] the scan computes for the base frequency [freq], and
    [noise_le a b] says that the comparator [a.avgNoise - b.avgNoise]
    is not positive. *)
Context {number : Type}.
Variable avgNoiseOf : Z -> number.
Variable noise_le : number -> number -> bool.

Record freqBin : Type := { freq : Z; avgNoise : number }.

(** Upper end of the scan: [FREQ_MAX - NUM_CHANNELS * CHANNEL_SPACING]. *)
Definition scanLimit (cfg : config) : Z :=
  FREQ_MAX cfg - Z.of_nat (NUM_CHANNELS cfg) * CHANNEL_SPACING cfg.

(** The values [freq] takes in
    [for (freq = FREQ_MIN; freq <= limit; freq += 50)]. *)
Definition scanFrequencies (cfg : config) : list Z :=
  if FREQ_MIN cfg <=? scanLimit cfg then
    map (fun k => FREQ_MIN cfg + 50 * Z.of_nat k)
        (seq 0 (S (Z.to_nat ((scanLimit cfg - FREQ_MIN cfg) / 50))))
  else [].

(** [freqBins.sort(...)]: a stable sort on [avgNoise]. *)
Fixpoint insertBin (x : freqBin) (l : list freqBin) : list freqBin :=
  match l with
  | [] => [x]
  | y :: l' =>
      if noise_le (avgNoise x) (avgNoise y) then x :: y :: l'
      else y :: insertBin x l'
  end.

Definition sortBins (l : list freqBin) : list freqBin :=
  fold_right insertBin [] l.

(** The outcome is the array assigned to [optimalFrequencies];
    [freqBins[0].freq] on an empty [freqBins] reads a property of
    [undefined], which throws a [TypeError]. *)
Definition analyzeCalibrationData (cfg : config) : completion (list Z) :=
  let freqBins :=
    sortBins (map (fun f => {| freq := f; avgNoise := avgNoiseOf f |})
                  (scanFrequencies cfg)) in
  match freqBins with
  | [] => Throw TypeError
  | first :: _ =>
      let baseFreq := freq first in
      Normal (map (fun i => baseFreq + Z.of_nat i * CHANNEL_SPACING cfg)
                  (seq 0 (NUM_CHANNELS cfg)))
  end.
End Calibration.

(** ** Sender: bit encoding and channel interleaving *)

Section Sender.
(** [n.toString(2)] for a character code. *)
Fixpoint binaryDigits (p : positive) (acc : list bool) : list bool :=
  match p with
  | xH => true :: acc
  | xO q => binaryDigits q (false :: acc)
  | xI q => binaryDigits q (true :: acc)
  end.

Definition toString2 (n : N) : list bool :=
  match n with
  | N0 => [false]
  | Npos p => binaryDigits p []
  end.

(** [s.padStart(8, '0')]. *)
Definition padStart8 (s : list bool) : list bool :=
  repeat false (8 - List.length s) ++ s.

(** [message.charCodeAt(i).toString(2).padStart(8, '0')]. *)
Definition charBits (charCode : N) : list bool :=
  padStart8 (toString2 charCode).

Definition encodeToBinary (message : list N) : list bool :=
  flat_map charBits message.

(** The code units of a string of 8-bit characters. *)
Definition codeUnits (s : string) : list N :=
  map N_of_ascii (list_ascii_of_string s).

Variable CONFIG_NUM_CHANNELS : nat.

(** [streams[i % NUM_CHANNELS] += binaryString[i]], from index [i] on. *)
Fixpoint distribute (i : nat) (binaryString : list bool)
         (streams : list (list bool)) : list (list bool) :=
  match binaryString with
  | [] => streams
  | bit :: rest =>
      distribute (S i) rest
        (alter (fun s => s ++ [bit]) (i mod CONFIG_NUM_CHANNELS) streams)
  end.

Definition maxLength (streams : list (list bool)) : nat :=
  fold_right Nat.max 0 (map (@List.length bool) streams).

(** [while (streams[i].length < maxLen) streams[i] += '0']. *)
Definition padStream (maxLen : nat) (s : list bool) : list bool :=
  s ++ repeat false (maxLen - List.length s).

(** The bits [streams[ch][symbolIdx]], for [ch] ascending, that select
    the tone of each channel in one chord ([true] plays
    [baseFreq + FSK_DEVIATION], anything else [baseFreq - FSK_DEVIATION]). *)
Definition chordBits (streams : list (list bool)) (symbolIdx : nat)
  : list bool :=
  map (fun ch => nth symbolIdx (nth ch streams []) false)
      (seq 0 CONFIG_NUM_CHANNELS).

(** The chords played, in order. *)
Definition transmitBinaryFSK (binaryString : list bool) : list (list bool) :=
  let streams := distribute 0 binaryString (repeat [] CONFIG_NUM_CHANNELS) in
  let maxLen := maxLength streams in
  let streams := map (padStream maxLen) streams in
  map (chordBits streams) (seq 0 maxLen).
End Sender.

(** ** Receiver: synchroniser, packet dispatch, integrity check *)

Section Receiver.
Import JS.
Local Open Scope string_scope.

Record demodulationState : Type := {
  bitStream : list bool;
  packetBuffer : string;
  syncDetected : bool
}.

(** [bits.forEach(bit => { if (bit !== null) bitStream += bit })]. *)
Definition appendBits (bitStream : list bool) (bits : list (option bool))
  : list bool :=
  fold_left (fun acc bit => match bit with
                            | Some b => (acc ++ [b])%list
                            | None => acc
                            end) bits bitStream.

Definition syncPattern : list bool :=
  [true; false; true; false; true; false; true; false].

Fixpoint startsWithBits (pattern s : list bool) : bool :=
  match pattern, s with
  | [], _ => true
  | p :: pattern', c :: s' => Bool.eqb p c && startsWithBits pattern' s'
  | _ :: _, [] => false
  end.

(** [s.indexOf(pattern)]; [None] is -1. *)
Fixpoint indexOf (pattern s : list bool) : option nat :=
  if startsWithBits pattern s then Some 0%nat
  else match s with
       | [] => None
       | _ :: s' => option_map S (indexOf pattern s')
       end.

(** [parseInt(byteBits, 2)] and [String.fromCharCode]. *)
Definition parseInt2 (byteBits : list bool) : N :=
  fold_left (fun n (b : bool) => (2 * n + (if b then 1 else 0))%N) byteBits 0%N.

Definition fromCharCode (charCode : N) : ascii := ascii_of_N charCode.

(** The values [charCode] takes in the successive turns of
    [while (bitStream.length >= 8)]. *)
Fixpoint charCodes (bits : list bool) : list N :=
  match bits with
  | b7 :: b6 :: b5 :: b4 :: b3 :: b2 :: b1 :: b0 :: rest =>
      parseInt2 [b7; b6; b5; b4; b3; b2; b1; b0] :: charCodes rest
  | _ => []
  end.

(** [hay.includes(needle)]. *)
Fixpoint includes (needle hay : string) : bool :=
  if String.prefix needle hay then true
  else match hay with
       | EmptyString => false
       | String _ hay' => includes needle hay'
       end.

Definition NUL : string := String Ascii.zero EmptyString.

(** The test that hands [packetBuffer] to [processPacket]. *)
Definition deliverable (packetBuffer : string) : bool :=
  includes NUL packetBuffer
  || ((10 <? String.length packetBuffer)%nat
      && (includes "META:" packetBuffer
          || includes "DATA:" packetBuffer
          || includes "END:" packetBuffer)).

(** What one turn of the framing [while] does once the character has
    been read: the new [packetBuffer] and [syncDetected], and the
    packet handed to [processPacket], if any. *)
Definition framedStep (packetBuffer : string) (syncDetected : bool)
           (char : ascii) : string * bool * option string :=
  let packetBuffer := packetBuffer ++ String char EmptyString in
  let '(packetBuffer, syncDetected, packet) :=
    if deliverable packetBuffer then ("", false, Some packetBuffer)
    else (packetBuffer, syncDetected, None) in
  if (5000 <? String.length packetBuffer)%nat then ("", false, packet)
  else (packetBuffer, syncDetected, packet).

(** [while (bitStream.length >= 8)]; [delivered] collects the
    arguments of the calls to [processPacket], oldest first. *)
Fixpoint framedLoop (bits : list bool) (packetBuffer : string)
         (syncDetected : bool) (delivered : list string)
  : demodulationState * list string :=
  match bits with
  | b7 :: b6 :: b5 :: b4 :: b3 :: b2 :: b1 :: b0 :: rest =>
      let charCode := parseInt2 [b7; b6; b5; b4; b3; b2; b1; b0] in
      let '(packetBuffer, syncDetected, packet) :=
        framedStep packetBuffer syncDetected (fromCharCode charCode) in
      framedLoop rest packetBuffer syncDetected
                 (match packet with
                  | Some p => (delivered ++ [p])%list
                  | None => delivered
                  end)
  | _ => ({| bitStream := bits; packetBuffer := packetBuffer;
             syncDetected := syncDetected |}, delivered)
  end.

Definition processReceivedBits (st : demodulationState)
           (bits : list (option bool)) : demodulationState * list string :=
  let stream := appendBits (bitStream st) bits in
  if negb (syncDetected st) then
    match indexOf syncPattern stream with
    | Some idx =>
        ({| bitStream := skipn (idx + List.length syncPattern) stream;
            packetBuffer := packetBuffer st;
            syncDetected := true |}, [])
    | None =>
        if (1000 <? List.length stream)%nat then
          ({| bitStream := skipn (List.length stream - 100) stream;
              packetBuffer := packetBuffer st;
              syncDetected := false |}, [])
        else
          ({| bitStream := stream;
              packetBuffer := packetBuffer st;
              syncDetected := false |}, [])
    end
  else framedLoop stream (packetBuffer st) true [].

(** *** [processPacket] *)

(** [packet.replace(/\x00/g, '')]. *)
Fixpoint removeNul (s : string) : string :=
  match s with
  | EmptyString => EmptyString
  | String c s' =>
      if Ascii.eqb c Ascii.zero then removeNul s' else String c (removeNul s')
  end.

(** White space and line terminators among the 8-bit characters:
    TAB, LF, VT, FF, CR, SP, NBSP. *)
Definition isWhiteSpace (c : ascii) : bool :=
  let n := nat_of_ascii c in
  ((9 <=? n) && (n <=? 13) || (n =? 32) || (n =? 160))%nat.

Fixpoint trimStart (s : string) : string :=
  match s with
  | EmptyString => EmptyString
  | String c s' => if isWhiteSpace c then trimStart s' else s
  end.

Fixpoint trimEnd (s : string) : string :=
  match s with
  | EmptyString => EmptyString
  | String c s' =>
      match trimEnd s' with
      | EmptyString => if isWhiteSpace c then EmptyString
                       else String c EmptyString
      | t => String c t
      end
  end.

Definition trim (s : string) : string := trimEnd (trimStart s).

(** [s.slice(n)]. *)
Fixpoint sliceFrom (n : nat) (s : string) : string :=
  match n, s with
  | O, _ => s
  | S n', String _ s' => sliceFrom n' s'
  | S _, EmptyString => EmptyString
  end.

(** [body.split(':')], as [parts[0]] and [parts.slice(1).join(':')];
    [None] when [parts.length < 2]. *)
Fixpoint splitColon (body : string) : option (string * string) :=
  match body with
  | EmptyString => None
  | String c body' =>
      if Ascii.eqb c ":"%char then Some (EmptyString, body')
      else match splitColon body' with
           | Some (part0, rest) => Some (String c part0, rest)
           | None => None
           end
  end.

(** The value of a digit in the given radix. *)
Definition digitValue (radix : Z) (c : ascii) : option Z :=
  let n := Z.of_nat (nat_of_ascii c) in
  let v := if ((48 <=? n) && (n <=? 57))%Z then Some (n - 48)%Z
           else if ((97 <=? n) && (n <=? 122))%Z then Some (n - 87)%Z
           else if ((65 <=? n) && (n <=? 90))%Z then Some (n - 55)%Z
           else None in
  match v with
  | Some d => if (d <? radix)%Z then Some d else None
  | None => None
  end.

(** The longest prefix of digits; [acc] is [None] until one is read. *)
Fixpoint parseDigits (radix : Z) (s : string) (acc : option Z) : option Z :=
  match s with
  | EmptyString => acc
  | String c s' =>
      match digitValue radix c with
      | Some d =>
          parseDigits radix s'
            (Some (match acc with
                   | Some a => a * radix + d
                   | None => d
                   end)%Z)
      | None => acc
      end
  end.

(** The integer [parseInt(s)] reads; [None] is NaN.  The Number returned
    is this integer up to 2^53 in magnitude and the nearest double beyond:
    see [toDouble] and [processPacketWith]. *)
Definition parseInt (s : string) : option Z :=
  let s := trimStart s in
  let '(sign, s) :=
    match s with
    | String "-" s' => ((-1)%Z, s')
    | String "+" s' => (1%Z, s')
    | _ => (1%Z, s)
    end in
  let '(radix, s) :=
    match s with
    | String "0" (String "x" s') => (16%Z, s')
    | String "0" (String "X" s') => (16%Z, s')
    | _ => (10%Z, s)
    end in
  option_map (Z.mul sign) (parseDigits radix s None).

(** The receiver's chunk store; [setCalls] records, oldest first, the
    calls made to [receivedChunks.set]. *)
Record chunkStore : Type := {
  receivedChunks : gmap Z string;
  setCalls : list (Z * string)
}.

Definition emptyStore : chunkStore :=
  {| receivedChunks := ∅; setCalls := [] |}.

(** [packet.replace(/\x00/g, '').trim()]. *)
Definition normalise (packet : string) : string := trim (removeNul packet).

(** [chunkIdx] and [encodedData] of the DATA branch, when it gets as
    far as a number for [chunkIdx]. *)
Definition dataFields (packet : string) : option (Z * string) :=
  if String.prefix "DATA:" packet then
    match splitColon (sliceFrom 5 packet) with
    | Some (part0, encodedData) =>
        match parseInt part0 with
        | Some chunkIdx => Some (chunkIdx, encodedData)
        | None => None
        end
    | None => None
    end
  else None.

(** The effect of [processPacket] on the chunk store.  The META branch
    assigns [fileMetadata] and [expectedChunks]; the END branch calls
    [reconstructFile], which reads the store; the statistics kept after
    [receivedChunks.set] and a throw caught by the [try] do not touch
    it either. *)
Definition processPacket (st : chunkStore) (packet : string) : chunkStore :=
  let packet := normalise packet in
  if (String.length packet <? 5)%nat then st
  else if String.prefix "META:" packet then st
  else if String.prefix "DATA:" packet then
    match dataFields packet with
    | Some (chunkIdx, encodedData) =>
        match receivedChunks st !! chunkIdx with
        | Some _ => st
        | None =>
            {| receivedChunks := <[chunkIdx := encodedData]> (receivedChunks st);
               setCalls := (setCalls st ++ [(chunkIdx, encodedData)])%list |}
        end
    | None => st
    end
  else if String.prefix "END:" packet then st
  else st.

(** *** [chunkIdx] beyond 2^53 *)

(** The double nearest to an integer, ties to the even significand, as an
    integer again; [2^1024] and [-2^1024] stand for [Infinity] and
    [-Infinity].  Up to 2^53 in magnitude it is the integer itself. *)
Definition toDouble (n : Z) : Z :=
  let a := Z.abs n in
  if (a <? 2 ^ 53)%Z then n
  else
    let e := (Z.log2 a - 52)%Z in
    let q := (a / 2 ^ e)%Z in
    let r := (a mod 2 ^ e)%Z in
    let half := (2 ^ (e - 1))%Z in
    let q := if (half <? r)%Z || ((r =? half)%Z && Z.odd q)
             then (q + 1)%Z else q in
    (Z.sgn n * Z.min (q * 2 ^ e) (2 ^ 1024))%Z.

Section NumberKeys.
(** [chunkIdx] is the Number [parseInt] returns: [toNumber n] for the
    integer [n] its digits denote.  An engine may approximate a decimal
    integer after its 20th significant digit, so the conversion is kept
    open here; the correctly rounded one is [toDouble], and
    [processPacket] above is the case of indices up to 2^53, which are
    their own Number.  [receivedChunks.has] and [receivedChunks.set]
    compare Numbers that are not NaN by value, [-0] being the key [0]. *)
Variable toNumber : Z -> Z.

Definition dataFieldsWith (packet : string) : option (Z * string) :=
  match dataFields packet with
  | Some (n, encodedData) => Some (toNumber n, encodedData)
  | None => None
  end.

Definition processPacketWith (st : chunkStore) (packet : string)
  : chunkStore :=
  let packet := normalise packet in
  if (String.length packet <? 5)%nat then st
  else if String.prefix "META:" packet then st
  else if String.prefix "DATA:" packet then
    match dataFieldsWith packet with
    | Some (chunkIdx, encodedData) =>
        match receivedChunks st !! chunkIdx with
        | Some _ => st
        | None =>
            {| receivedChunks := <[chunkIdx := encodedData]> (receivedChunks st);
               setCalls := (setCalls st ++ [(chunkIdx, encodedData)])%list |}
        end
    | None => st
    end
  else if String.prefix "END:" packet then st
  else st.
End NumberKeys.

(** *** The verification step of [reconstructFile] *)

Inductive integrity : Type :=
| Verified
| ChecksumMismatch.

(** [checksum] is [fileMetadata.checksum]. *)
Definition integrityStatus (checksum : Z) (bytes : list Z) : integrity :=
  let receivedChecksum := calculateChecksum bytes in
  if truthy checksum && negb (checksum =? receivedChecksum)%Z
  then ChecksumMismatch
  else Verified.

(** The fields of the metadata that the end of [reconstructFile] reads. *)
Record FileMetadata : Type := {
  compressed : bool;
  checksum : Z
}.

(** [reconstructFile] from "Decompress if needed" on: [bytes] is what
    the decoding of the chunks produced; the result is the artifact and
    the integrity status shown with it.  A throw of [decompress] is
    caught and leaves [bytes] as it was. *)
Definition reconstructFile (fileMetadata : FileMetadata) (bytes : list Z)
  : list Z * integrity :=
  let bytes :=
    if compressed fileMetadata then
      match LZCompressor.decompress bytes with
      | Normal decompressed => decompressed
      | Throw _ => bytes
      end
    else bytes in
  (bytes, integrityStatus (checksum fileMetadata) bytes).
End Receiver.

(** ** Binary payloads: [class BinaryEncoder] *)

Section BinaryEncoder.
Import JS.
Local Open Scope string_scope.

Definition bitChar (b : bool) : ascii := if b then "1"%char else "0"%char.

(** The string that spells a list of bits. *)
Fixpoint bitString (bits : list bool) : string :=
  match bits with
  | [] => ""
  | b :: rest => String (bitChar b) (bitString rest)
  end.

(** [binary += data[i].toString(2).padStart(8, '0')] for each byte. *)
Definition encodeDataToBinary (data : list Z) : string :=
  fold_right (fun b binary => bitString (charBits (Z.to_N b)) ++ binary)
             "" data.

(** [parseInt(s, radix)] for a radix other than 16; [None] is NaN. *)
Definition parseIntRadix (radix : Z) (s : string) : option Z :=
  let s := trimStart s in
  let '(sign, s) :=
    match s with
    | String "-" s' => ((-1)%Z, s')
    | String "+" s' => (1%Z, s')
    | _ => (1%Z, s)
    end in
  option_map (Z.mul sign) (parseDigits radix s None).

(** [for (i = 0; i < binary.length; i += 8)]: a slice of 8 characters
    is parsed and pushed, a shorter last slice is skipped; the numbers
    pushed become the elements of a [Uint8Array]. *)
Fixpoint decodeBinaryToData (binary : string) : list Z :=
  match binary with
  | String c0 (String c1 (String c2 (String c3
      (String c4 (String c5 (String c6 (String c7 rest))))))) =>
      let byte :=
        String c0 (String c1 (String c2 (String c3
          (String c4 (String c5 (String c6 (String c7 ""))))))) in
      toUint8 (parseIntRadix 2 byte) :: decodeBinaryToData rest
  | _ => []
  end.
End BinaryEncoder.

(** ** Phase modulators: [class QPSKModulator], [class PSK8Modulator] *)

Section PSK.
Local Open Scope Z_scope.

(** [QPSKModulator.PHASE_MAP]. *)
Definition QPSK_PHASE_MAP (b1 b0 : bool) : Z :=
  match b1, b0 with
  | false, false => 0
  | false, true => 90
  | true, false => 180
  | true, true => 270
  end.

(** [QPSKModulator.modulate]: [slice(i, i + 2).padEnd(2, '0')]. *)
Fixpoint QPSK_modulate (binaryString : list bool) : list Z :=
  match binaryString with
  | b1 :: b0 :: rest => QPSK_PHASE_MAP b1 b0 :: QPSK_modulate rest
  | [b1] => [QPSK_PHASE_MAP b1 false]
  | [] => []
  end.

(** [reverseMap[phase] || '00']. *)
Definition QPSK_reverse (phase : Z) : list bool :=
  if phase =? 0 then [false; false]
  else if phase =? 90 then [false; true]
  else if phase =? 180 then [true; false]
  else if phase =? 270 then [true; true]
  else [false; false].

Definition QPSK_demodulate (symbols : list Z) : list bool :=
  flat_map QPSK_reverse symbols.

(** [PSK8Modulator.PHASE_MAP]. *)
Definition PSK8_PHASE_MAP (b2 b1 b0 : bool) : Z :=
  match b2, b1, b0 with
  | false, false, false => 0
  | false, false, true => 45
  | false, true, false => 90
  | false, true, true => 135
  | true, false, false => 180
  | true, false, true => 225
  | true, true, false => 270
  | true, true, true => 315
  end.

(** [PSK8Modulator.modulate]: [slice(i, i + 3).padEnd(3, '0')]. *)
Fixpoint PSK8_modulate (binaryString : list bool) : list Z :=
  match binaryString with
  | b2 :: b1 :: b0 :: rest => PSK8_PHASE_MAP b2 b1 b0 :: PSK8_modulate rest
  | [b2; b1] => [PSK8_PHASE_MAP b2 b1 false]
  | [b2] => [PSK8_PHASE_MAP b2 false false]
  | [] => []
  end.

(** [reverseMap[phase] || '000']. *)
Definition PSK8_reverse (phase : Z) : list bool :=
  if phase =? 0 then [false; false; false]
  else if phase =? 45 then [false; false; true]
  else if phase =? 90 then [false; true; false]
  else if phase =? 135 then [false; true; true]
  else if phase =? 180 then [true; false; false]
  else if phase =? 225 then [true; false; true]
  else if phase =? 270 then [true; true; false]
  else if phase =? 315 then [true; true; true]
  else [false; false; false].

Definition PSK8_demodulate (symbols : list Z) : list bool :=
  flat_map PSK8_reverse symbols.

Variable CONFIG_NUM_CHANNELS : nat.

(** [if (streams[i].length % 2 !== 0) streams[i] += '0']. *)
Definition padPair (s : list bool) : list bool :=
  if (List.length s mod 2 =? 0)%nat then s else s ++ [false].

(** [while (streams[i].length % 3 !== 0) streams[i] += '0'], with
    [fuel] turns left. *)
Fixpoint padTripleLoop (fuel : nat) (s : list bool) : list bool :=
  match fuel with
  | O => s
  | S fuel' =>
      if (List.length s mod 3 =? 0)%nat then s
      else padTripleLoop fuel' (s ++ [false])
  end.

Definition padTriple (s : list bool) : list bool := padTripleLoop 2 s.

(** The chords of [playQPSKChord] and [play8PSKChord]: for each symbol
    index, the phase played on each channel, [None] for a channel whose
    symbol stream has ended. *)
Definition phaseChords (symbolStreams : list (list Z))
  : list (list (option Z)) :=
  let maxLen := fold_right Nat.max 0%nat (map (@List.length Z) symbolStreams) in
  map (fun symbolIdx =>
         map (fun symbols => nth_error symbols symbolIdx) symbolStreams)
      (seq 0 maxLen).

Definition transmitBinaryQPSK (binaryString : list bool)
  : list (list (option Z)) :=
  let streams :=
    distribute CONFIG_NUM_CHANNELS 0 binaryString
               (repeat [] CONFIG_NUM_CHANNELS) in
  let streams := map padPair streams in
  phaseChords (map QPSK_modulate streams).

Definition transmitBinary8PSK (binaryString : list bool)
  : list (list (option Z)) :=
  let streams :=
    distribute CONFIG_NUM_CHANNELS 0 binaryString
               (repeat [] CONFIG_NUM_CHANNELS) in
  let streams := map padTriple streams in
  phaseChords (map PSK8_modulate streams).
End PSK.

(** ** FSK tones and their detection: [transmitBinaryFSK], [demodulateChord] *)

Section Demodulator.
Local Open Scope Z_scope.

Definition FSK_DEVIATION : Z := 100.
Definition SIGNAL_THRESHOLD : Z := 80.

(** The bin of a frequency,
    [Math.floor(freq * bufferLength / (sampleRate / 2))], is computed in
    floating point from the sample rate of the audio context; it is kept
    abstract. *)
Variable binOf : Z -> Z.

(** The tone [transmitBinaryFSK] plays on a channel:
    [bit === '1' ? baseFreq + FSK_DEVIATION : baseFreq - FSK_DEVIATION]. *)
Definition toneFrequency (bit : bool) (baseFreq : Z) : Z :=
  if bit then baseFreq + FSK_DEVIATION else baseFreq - FSK_DEVIATION.

(** [spectrum[bin] || 0] on a [Uint8Array]. *)
Definition amplitude (spectrum : list Z) (bin : Z) : Z :=
  if bin <? 0 then 0 else nth (Z.to_nat bin) spectrum 0.

(** The decision for one channel; [None] is [null]. *)
Definition demodulateChannel (spectrum : list Z) (baseFreq : Z)
  : option bool :=
  let amp0 := amplitude spectrum (binOf (baseFreq - FSK_DEVIATION)) in
  let amp1 := amplitude spectrum (binOf (baseFreq + FSK_DEVIATION)) in
  if (SIGNAL_THRESHOLD <? amp0) || (SIGNAL_THRESHOLD <? amp1)
  then Some (amp0 <? amp1)
  else None.

Variable CONFIG_NUM_CHANNELS : nat.

(** [demodulateChord]; the outer [None] is the [null] returned when no
    channel carries a signal.  A channel without a carrier in
    [optimalFrequencies] reads amplitudes at [undefined] bins, which are
    0, and stays silent. *)
Definition demodulateChord (optimalFrequencies : list Z)
           (spectrum : list Z) : option (list (option bool)) :=
  let demodulated :=
    map (fun ch => match nth_error optimalFrequencies ch with
                   | Some baseFreq => demodulateChannel spectrum baseFreq
                   | None => None
                   end)
        (seq 0 CONFIG_NUM_CHANNELS) in
  if existsb (fun bit => match bit with Some _ => true | None => false end)
             demodulated
  then Some demodulated
  else None.
End Demodulator.

(** ** Signal monitor: the history kept by [SignalMonitor.updateSNR] *)

Section SignalMonitor.
Context {number : Type}.

Definition SNR_HISTORY_SIZE : nat := 50.

(** [snrHistory.push(snr); if (snrHistory.length > maxHistory)
    snrHistory.shift()]. *)
Definition recordSNR (snrHistory : list number) (snr : number)
  : list number :=
  let snrHistory := snrHistory ++ [snr] in
  if (SNR_HISTORY_SIZE <? List.length snrHistory)%nat then tl snrHistory
  else snrHistory.
End SignalMonitor.

(** ** Sender session: [startSending], [transmitFileWithAck] *)

Section SenderSession.
Import JS.
Local Open Scope string_scope.

Definition CHUNK_SIZE : nat := 128.
Definition COMPRESSION_MIN_SIZE : nat := 512.

(** What [reader.onload] settles before the transfer: the bytes to
    send, the metadata fields read again by the receiver, and
    [metadata.chunks]. *)
Record sendPlan : Type := {
  fileData : list Z;
  metadata : FileMetadata;
  chunks : nat
}.

(** [Math.ceil(fileData.length / CONFIG.CHUNK_SIZE)]. *)
Definition chunkCount (fileData : list Z) : nat :=
  ((List.length fileData + (CHUNK_SIZE - 1)) / CHUNK_SIZE)%nat.

(** The compression step and the metadata of [reader.onload], with
    [CONFIG.USE_COMPRESSION] on. *)
Definition planTransfer (file : list Z) : sendPlan :=
  let fileData :=
    if (COMPRESSION_MIN_SIZE <? List.length file)%nat then
      match LZCompressor.compress file with
      | Some compressedData =>
          if (List.length compressedData <? List.length file)%nat
          then (compressedData, true)
          else (file, false)
      | None => (file, false)
      end
    else (file, false) in
  {| fileData := fst fileData;
     metadata := {| compressed := snd fileData;
                    checksum := calculateChecksum (fst fileData) |};
     chunks := chunkCount (fst fileData) |}.

(** [fileData.slice(start, Math.min(start + CHUNK_SIZE, length))] with
    [start = i * CHUNK_SIZE]. *)
Definition chunkAt (fileData : list Z) (i : nat) : list Z :=
  firstn CHUNK_SIZE (skipn (i * CHUNK_SIZE) fileData).

(** The decimal digits of a number, least significant first into
    [acc]; [fuel] bounds the number of digits. *)
Fixpoint decimalDigits (fuel : nat) (n : N) (acc : string) : string :=
  let acc := String (ascii_of_N (48 + n mod 10)) acc in
  match fuel with
  | O => acc
  | S fuel' =>
      if (n <? 10)%N then acc else decimalDigits fuel' (n / 10) acc
  end.

(** [`${i}`] for a chunk index. *)
Definition decimal (i : nat) : string :=
  decimalDigits (N.size_nat (N.of_nat i)) (N.of_nat i) "".

(** [`DATA:${i}:${encodedData}`] under binary encoding. *)
Definition dataPacketOf (fileData : list Z) (i : nat) : string :=
  "DATA:" ++ decimal i ++ ":" ++ encodeDataToBinary (chunkAt fileData i).

(** The packets of one transfer in the order they are sent; [metaJson]
    is [JSON.stringify(metadata)].  [sendPacketWithAck] always reports
    success, so no chunk is sent twice. *)
Definition transmitFileWithAck (metaJson : string) (fileData : list Z)
  : list string :=
  (("META:" ++ metaJson)
     :: map (dataPacketOf fileData) (seq 0 (chunkCount fileData)))
    ++ ["END:COMPLETE"; "END:COMPLETE"]%list.
End SenderSession.

(** ** Receiver session: the binary branch of [reconstructFile] *)

Section ReceiverSession.
(** [for (i = 0; i < expectedChunks; i++)]: the chunks present are
    decoded and concatenated in index order, a missing one is skipped. *)
Definition decodeChunks (expectedChunks : nat) (store : gmap Z string)
  : list Z :=
  flat_map (fun i => match store !! Z.of_nat i with
                     | Some binaryStr => decodeBinaryToData binaryStr
                     | None => []
                     end)
           (seq 0 expectedChunks).

(** [reconstructFile] when [fileMetadata.encoding] is ['binary'], on
    the store it finds. *)
Definition reconstructBinary (fileMetadata : FileMetadata)
           (expectedChunks : nat) (st : chunkStore) : list Z * integrity :=
  reconstructFile fileMetadata
                  (decodeChunks expectedChunks (receivedChunks st)).

(** What [processPacket] reconstructs: only its END branch calls
    [reconstructFile], and only when [receivedChunks.size > 0]; [None]
    when the packet leaves the listener without a file and without an
    integrity status.  [fileMetadata] and [expectedChunks] are what the
    META branch has assigned, with ['binary'] for
    [fileMetadata.encoding]. *)
Definition processPacketEND (fileMetadata : FileMetadata)
           (expectedChunks : nat) (st : chunkStore) (packet : string)
  : option (list Z * integrity) :=
  let packet := normalise packet in
  if (String.length packet <? 5)%nat then None
  else if String.prefix "META:" packet then None
  else if String.prefix "DATA:" packet then None
  else if String.prefix "END:" packet then
    if (0 <? size (receivedChunks st))%nat
    then Some (reconstructBinary fileMetadata expectedChunks st)
    else None
  else None.
End ReceiverSession.

(** ** Packets on the air: [sendPacket], [startReceptionLoop] *)

Section Reception.
Local Open Scope string_scope.

(** [frame] in [sendPacket]: ['10101010' + binary + '01010101']. *)
Definition frameOf (message : list N) : list bool :=
  ([true; false; true; false; true; false; true; false]
     ++ encodeToBinary message
     ++ [false; true; false; true; false; true; false; true])%list.

Variable binOf : Z -> Z.
Variable CONFIG_NUM_CHANNELS : nat.

(** [sendPacket] with [BITS_PER_SYMBOL] at 1, where
    [transmitBinaryChord] is [transmitBinaryFSK]: the chords played. *)
Definition sendPacket (message : list N) : list (list bool) :=
  transmitBinaryFSK CONFIG_NUM_CHANNELS (frameOf message).

(** The initial value of [demodulationState]. *)
Definition initialState : demodulationState :=
  {| bitStream := []; packetBuffer := ""; syncDetected := false |}.

(** One turn of [checkForSignal] that reads the analyser: the
    spectrum is demodulated and, unless the result is [null], handed to
    [processReceivedBits]. *)
Definition checkForSignal (optimalFrequencies : list Z)
           (st : demodulationState) (spectrum : list Z)
  : demodulationState * list string :=
  match demodulateChord binOf CONFIG_NUM_CHANNELS optimalFrequencies
                        spectrum with
  | Some bits => processReceivedBits st bits
  | None => (st, [])
  end.

(** The reception loop over the spectra it reads, oldest first; the
    packets handed to [processPacket] are collected in order. *)
Definition receptionLoop (optimalFrequencies : list Z)
           (spectra : list (list Z)) (st : demodulationState)
  : demodulationState * list string :=
  fold_left (fun acc spectrum =>
               let '(st', packets) :=
                 checkForSignal optimalFrequencies (fst acc) spectrum in
               (st', (snd acc ++ packets)%list))
            spectra (st, []).
End Reception.

(* ================================================================== *)
(** * Part II: vocabulary of the properties *)
(* ================================================================== *)

(** ** Integrity sums *)

(** The bytes of "Hello". *)
Definition Hello : list Z := [0x48; 0x65; 0x6C; 0x6C; 0x6F]%Z.

(** ** LZ77 codec *)

Module LZSpec.
Import JS LZCompressor.

(** The text at [i] and the text at [pos] agree on [L] bytes that lie
    inside the lookahead and inside the input. *)
Definition matches (input : list Z) (i pos L : nat) : Prop :=
  (L <= lookaheadSize)%nat
  /\ (pos + L <= List.length input)%nat
  /\ forall k, (k < L)%nat ->
       nth_error input (i + k) = nth_error input (pos + k).

(** [i] is a prior position inside the window of the cursor [pos]. *)
Definition inWindow (pos i : nat) : Prop :=
  (pos - windowSize <= i)%nat /\ (i < pos)%nat.

(** The quadruplet pushed for a match. *)
Definition matchBytes (d L : nat) : list Z :=
  [0xFF; Z.of_nat d / 256; Z.of_nat d mod 256; Z.of_nat L]%Z.

(** At [pos] the compressor emits the match [(d, L)], the longest one
    in the window. *)
Definition emitsLongest (input : list Z) (pos d L : nat) : Prop :=
  emit input pos = (matchBytes d L, (pos + L)%nat)
  /\ (1 <= d <= windowSize)%nat /\ (d <= pos)%nat
  /\ matches input (pos - d) pos L
  /\ forall i L', inWindow pos i -> matches input i pos L' -> (L' <= L)%nat.

(** The tie-break the spec words: no position nearer than [pos - d]
    attains [L]. *)
Definition nearestChosen (input : list Z) (pos d L : nat) : Prop :=
  forall i, inWindow pos i -> matches input i pos L -> (i <= pos - d)%nat.

(** The tie-break of the code: no position farther than [pos - d]
    attains [L]. *)
Definition farthestChosen (input : list Z) (pos d L : nat) : Prop :=
  forall i, inWindow pos i -> matches input i pos L -> (pos - d <= i)%nat.

(** [1 2 3] occurs at 0, at 4 and at the cursor 8. *)
Definition tieExample : list Z := [1; 2; 3; 9; 1; 2; 3; 8; 1; 2; 3]%Z.

(** A file that holds the marker byte as data. *)
Definition markerExample : list Z := [0xFF; 1; 2; 3]%Z.

(** A stream that declares 5 bytes and carries one. *)
Definition truncatedStream : list Z := [0; 0; 0; 5; 65]%Z.

(** The input ran out before [output] reached the declared length. *)
Definition exhaustedEarly (data : list Z) : Prop :=
  (Z.of_nat (List.length (produced data)) < originalSize data)%Z.

(** The behaviour the spec words for that case. *)
Definition failsCorruptStream (data : list Z) : Prop :=
  exhaustedEarly data -> decompress data = Throw (Error "CorruptStream"%string).

(** A file of bytes none of which is the marker 0xFF. *)
Definition markerFree (data : list Z) : Prop :=
  Forall (fun b => 0 <= b < 0xFF)%Z data.
End LZSpec.

(** ** Calibration *)

Section CalibrationSpec.
Import JS.
Local Open Scope string_scope.

(** The search range can accommodate the profile. *)
Definition accommodates (cfg : config) : Prop :=
  (FREQ_MIN cfg
   <= FREQ_MAX cfg - Z.of_nat (NUM_CHANNELS cfg) * CHANNEL_SPACING cfg)%Z.

(** The outcome the spec words for a range that is too narrow. *)
Definition reportsNoViableBand {number : Type} (avgNoiseOf : Z -> number)
           (noise_le : number -> number -> bool) (cfg : config) : Prop :=
  ~ accommodates cfg ->
  analyzeCalibrationData avgNoiseOf noise_le cfg
  = Throw (Error "NoViableBand").

(** Sixteen channels 1000 Hz apart do not fit between 2000 and 10000 Hz. *)
Definition tooWide : config :=
  {| FREQ_MIN := 2000; FREQ_MAX := 10000;
     NUM_CHANNELS := 16; CHANNEL_SPACING := 1000 |}.
End CalibrationSpec.

(** ** Bit encoding and integrity check *)

Section VerifySpec.
(** 257 bytes 0xFF and one byte 0x01: the bytes add up to 65536. *)
Definition zeroSumFile : list Z := (repeat 0xFF 257 ++ [1])%Z.

(** The ideograph U+4E2D, one UTF-16 code unit above 255. *)
Definition wideMessage : list N := [0x4E2D]%N.
End VerifySpec.

(** ** Framing *)

Section FramingSpec.
Local Open Scope string_scope.

(** [needle] occurs somewhere in [hay]. *)
Definition occursIn (needle hay : string) : Prop :=
  exists before after, hay = before ++ needle ++ after.

(** The condition of the code for handing a buffer over. *)
Definition handedOver (buffer : string) : Prop :=
  occursIn NUL buffer
  \/ ((10 < String.length buffer)%nat
      /\ (occursIn "META:" buffer \/ occursIn "DATA:" buffer
          \/ occursIn "END:" buffer)).

(** [packet] is a record cut short: a strict prefix of the record sent,
    with no NUL in it. *)
Definition truncatedRecord (packet sent : string) : Prop :=
  String.prefix packet sent = true /\ packet <> sent
  /\ includes NUL packet = false.

(** The synchroniser just after the sync pattern has been found. *)
Definition framed : demodulationState :=
  {| bitStream := []; packetBuffer := ""; syncDetected := true |}.

(** The packets a receiver in the Framed state hands over when the bits
    of [sent] arrive. *)
Definition deliveredFrom (sent : string) : list string :=
  snd (processReceivedBits framed
         (map Some (encodeToBinary (codeUnits sent)))).

(** The behaviour the spec words: nothing cut short is handed over. *)
Definition neverDeliversTruncated (sent : string) : Prop :=
  forall packet, In packet (deliveredFrom sent) -> ~ truncatedRecord packet sent.

(** A DATA packet for chunk 0 holding the byte 0x41 in binary encoding. *)
Definition dataPacket : string := "DATA:0:01000001".

(** One turn of the framing loop, on the triple the loop carries. *)
Definition framedTurn (acc : string * bool * list string) (charCode : N)
  : string * bool * list string :=
  let '(packetBuffer, syncDetected, delivered) := acc in
  let '(packetBuffer, syncDetected, packet) :=
    framedStep packetBuffer syncDetected (fromCharCode charCode) in
  (packetBuffer, syncDetected,
   match packet with
   | Some p => (delivered ++ [p])%list
   | None => delivered
   end).
End FramingSpec.

(** ** Chunk store *)

Section StoreSpec.
Local Open Scope string_scope.

(** The chunk index and payload a delivered packet carries, if it is a
    DATA packet with a numeric index. *)
Definition carries (packet : string) : option (Z * string) :=
  dataFields (normalise packet).

(** The payload of the first packet of [packets] that carries [idx]. *)
Fixpoint firstPayload (idx : Z) (packets : list string) : option string :=
  match packets with
  | [] => None
  | p :: rest =>
      match carries p with
      | Some (i, payload) =>
          if (i =? idx)%Z then Some payload else firstPayload idx rest
      | None => firstPayload idx rest
      end
  end.

(** The store after the packets have been handled, starting from the
    store [startListening] has cleared. *)
Definition receive (packets : list string) : chunkStore :=
  fold_left processPacket packets emptyStore.

(** The log of [set] calls and the map agree. *)
Definition storeInv (st : chunkStore) : Prop :=
  NoDup (map fst (setCalls st))
  /\ forall i v, In (i, v) (setCalls st) -> receivedChunks st !! i = Some v.

Definition duplicates : list string :=
  ["DATA:0:0100"; "META:x"; "DATA:1:0110"; "DATA:0:1111"; "DATA:00:0000"].

(** Two indices that are one Number: 2^53 + 1 is not a double and
    [parseInt] gives 2^53 for it. *)
Definition beyond2_53 : list string :=
  ["DATA:9007199254740993:abcd"; "DATA:9007199254740992:wxyz"].
End StoreSpec.

Section NumberSpec.
Variable toNumber : Z -> Z.

(** The key and payload a delivered packet carries, the key being the
    Number of its index. *)
Definition carriesWith (packet : string) : option (Z * string) :=
  dataFieldsWith toNumber (normalise packet).

(** The payload of the first packet of [packets] whose index is the
    Number [key]. *)
Fixpoint firstPayloadWith (key : Z) (packets : list string)
  : option string :=
  match packets with
  | [] => None
  | p :: rest =>
      match carriesWith p with
      | Some (k, payload) =>
          if (k =? key)%Z then Some payload else firstPayloadWith key rest
      | None => firstPayloadWith key rest
      end
  end.

Definition receiveWith (packets : list string) : chunkStore :=
  fold_left (processPacketWith toNumber) packets emptyStore.
End NumberSpec.

(** The index a packet carries, if any, is its own Number. *)
Definition indexUpTo2_53 (packet : string) : Prop :=
  match carries packet with
  | Some (idx, _) => (Z.abs idx <= 2 ^ 53)%Z
  | None => True
  end.

(** ** Interleaving *)

Section InterleaveSpec.
(** What the receiver's bit stream holds after the chords have been
    heard in order, every channel detected. *)
Definition heard (chords : list (list bool)) : list bool :=
  fold_left (fun stream chord => appendBits stream (map Some chord))
            chords [].

Variable N : nat.

(** How many bits of a string of [n] bits go to channel [c]. *)
Definition share (n c : nat) : nat :=
  n / N + (if c <? n mod N then 1 else 0).

(** The stream of channel [c]: the bits at [c], [c + N], [c + 2N], ... *)
Definition streamOf (s : list bool) (c : nat) : list bool :=
  map (fun k => nth (k * N + c) s false) (seq 0 (share (List.length s) c)).
End InterleaveSpec.

(** Case analysis on the tests of the goal, read as propositions. *)
Ltac split_ifs :=
  repeat match goal with
         | |- context [if ?b then _ else _] =>
             let E := fresh "E" in destruct b eqn:E
         end;
  repeat match goal with
         | E : (_ <? _) = true |- _ => apply Nat.ltb_lt in E
         | E : (_ <? _) = false |- _ => apply Nat.ltb_ge in E
         | E : (_ =? _) = true |- _ => apply Nat.eqb_eq in E
         | E : (_ =? _) = false |- _ => apply Nat.eqb_neq in E
         end.

(** ** Binary payloads *)

Section BinarySpec.
(** The elements of a [Uint8Array]. *)
Definition isByte (b : Z) : Prop := (0 <= b <= 255)%Z.

Definition sampleBytes : list Z := [0; 1; 65; 128; 255]%Z.
End BinarySpec.

(** ** Packets of a transfer *)

Section TransferSpec.
Local Open Scope string_scope.

(** Every character of [s] passes the test [p]. *)
Fixpoint allChars (p : ascii -> bool) (s : string) : bool :=
  match s with
  | EmptyString => true
  | String c s' => p c && allChars p s'
  end.

Definition isDigitChar (c : ascii) : bool :=
  ((48 <=? nat_of_ascii c) && (nat_of_ascii c <=? 57))%nat.

(** Neither NUL nor white space nor a colon. *)
Definition isPayloadChar (c : ascii) : bool :=
  negb (Ascii.eqb c Ascii.zero) && negb (isWhiteSpace c)
  && negb (Ascii.eqb c ":"%char).

(** Neither NUL nor white space. *)
Definition isPlainChar (c : ascii) : bool :=
  negb (Ascii.eqb c Ascii.zero) && negb (isWhiteSpace c).

(** The packets delivered hold, among packets that are not DATA
    packets, only DATA packets of the transfer of [fileData], unaltered,
    in any order and any number of times. *)
Definition onlyIntact (fileData : list Z) (packets : list string) : Prop :=
  forall p, In p packets ->
    carries p = None
    \/ exists i, (i < chunkCount fileData)%nat /\ p = dataPacketOf fileData i.

(** Every DATA packet of the transfer is among the packets delivered. *)
Definition allDelivered (fileData : list Z) (packets : list string) : Prop :=
  forall i, (i < chunkCount fileData)%nat ->
    In (dataPacketOf fileData i) packets.

(** The chunks of [fileData] whose packet is among [packets], in index
    order. *)
Definition chunksDelivered (fileData : list Z) (packets : list string)
  : list Z :=
  flat_map (fun i =>
              if existsb (String.eqb (dataPacketOf fileData i)) packets
              then chunkAt fileData i else [])
           (seq 0 (chunkCount fileData)).

(** 300 bytes: three chunks, the last one short. *)
Definition threeChunks : list Z :=
  map (fun k => Z.of_nat (k mod 251)) (seq 0 300).
End TransferSpec.

(** Case analysis on a character known to be a digit. *)
Ltac digit_cases c H :=
  destruct c as [[] [] [] [] [] [] [] []];
  try (exfalso; vm_compute in H; discriminate H).

(** ** Output of the compressor *)

Section CompressSpec.
(** 600 bytes that count from 0 to 18 again and again: long enough to
    be compressed by the sender. *)
Definition sawtooth : list Z :=
  map (fun k => Z.of_nat (k mod 19)) (seq 0 600).
End CompressSpec.

Section TransferExamples.
Local Open Scope string_scope.

(** 200 bytes: two chunks, the second one short. *)
Definition twoChunks : list Z :=
  map (fun k => Z.of_nat (k mod 251)) (seq 0 200).

(** The packets of [twoChunks] out of order, one of them twice. *)
Definition shuffled : list string :=
  [dataPacketOf twoChunks 1; "META:{}"; dataPacketOf twoChunks 0;
   dataPacketOf twoChunks 1].

(** The second chunk alone. *)
Definition firstLost : list string :=
  ["META:{}"; dataPacketOf twoChunks 1; "END:COMPLETE"].
End TransferExamples.

(** ** Integrity sums: what they tell apart *)

Section IntegritySpec.
Import JS.
Local Open Scope Z_scope.

(** A value of the CRC register. *)
Definition isCrc (crc : Z) : Prop := 0 <= crc < 2 ^ 16.

(** The register before a turn of the inner loop, from the register
    after it: the top bit tells whether the polynomial was applied. *)
Definition crc16_unshift (crc : Z) : Z :=
  if 2 ^ 15 <=? crc then 2 * Z.lxor crc 0xA001 + 1 else 2 * crc.
End IntegritySpec.

(** ** Calibration: the band chosen *)

Section BandSpec.
Context {number : Type}.
Variable noise_le : number -> number -> bool.

(** The comparator orders the noise figures: any two compare one way
    or the other, and the comparison is transitive.  It does on numbers
    that are not NaN. *)
Definition ordersNoise : Prop :=
  (forall a b, noise_le a b = false -> noise_le b a = true)
  /\ (forall a b c, noise_le a b = true -> noise_le b c = true ->
                    noise_le a c = true).

(** A noise floor with its minimum at 2500 Hz. *)
Definition dipAt2500 (f : Z) : Z := Z.abs (f - 2500).
End BandSpec.

(** ** Phase-shift keying *)

Section PSKSpec.
Local Open Scope Z_scope.

(** The phase read back for a symbol: itself when it is one of the
    phases of the map, 0 otherwise. *)
Definition QPSK_known (phase : Z) : Z :=
  if (phase =? 90) || (phase =? 180) || (phase =? 270) then phase else 0.

Definition PSK8_known (phase : Z) : Z :=
  if (phase =? 45) || (phase =? 90) || (phase =? 135) || (phase =? 180)
     || (phase =? 225) || (phase =? 270) || (phase =? 315)
  then phase else 0.

(** The symbols played on channel [c] over the chords, in order. *)
Definition channelSymbols (chords : list (list (option Z))) (c : nat)
  : list Z :=
  flat_map (fun chord => match nth c chord None with
                         | Some phase => [phase]
                         | None => []
                         end)
           chords.
End PSKSpec.

(** ** Detection of a chord *)

Section DetectionSpec.
Local Open Scope Z_scope.
Variable binOf : Z -> Z.

(** Neither tone of the carrier is above the threshold. *)
Definition silent (spectrum : list Z) (baseFreq : Z) : Prop :=
  amplitude spectrum (binOf (baseFreq - FSK_DEVIATION)) <= SIGNAL_THRESHOLD
  /\ amplitude spectrum (binOf (baseFreq + FSK_DEVIATION))
     <= SIGNAL_THRESHOLD.

(** The tone played for [bit] is above the threshold and louder than
    the other tone of the carrier. *)
Definition clear (spectrum : list Z) (baseFreq : Z) (bit : bool) : Prop :=
  SIGNAL_THRESHOLD < amplitude spectrum (binOf (toneFrequency bit baseFreq))
  /\ amplitude spectrum (binOf (toneFrequency (negb bit) baseFreq))
     < amplitude spectrum (binOf (toneFrequency bit baseFreq)).

(** Every channel of the chord is heard in the clear. *)
Definition clearChord (optimalFrequencies spectrum : list Z)
           (chord : list bool) : Prop :=
  forall ch baseFreq bit,
    nth_error optimalFrequencies ch = Some baseFreq ->
    nth_error chord ch = Some bit ->
    clear spectrum baseFreq bit.

(** Bins of 100 Hz. *)
Definition hundredHz (f : Z) : Z := f / 100.

(** Channel 0 plays 400 Hz, channel 1 plays 600 Hz. *)
Definition twoTones : list Z := [0; 0; 3; 0; 200; 0; 150; 0; 90].
End DetectionSpec.

(** ** Framing of the sender's packets *)

Section CutSpec.
Local Open Scope string_scope.

Definition notNul (c : ascii) : bool := negb (Ascii.eqb c Ascii.zero).

(** The buffer starts with one of the three tags. *)
Definition tagged (buffer : string) : bool :=
  String.prefix "META:" buffer || String.prefix "DATA:" buffer
  || String.prefix "END:" buffer.
End CutSpec.

(** ** Hunting for the sync pattern *)

Section HuntSpec.
(** [pattern] occurs in [s] right after [before]. *)
Definition occursAt (pattern s before after : list bool) : Prop :=
  s = (before ++ pattern ++ after)%list.

(** The receiver before any sync. *)
Definition hunting (stream : list bool) : demodulationState :=
  {| bitStream := stream; packetBuffer := EmptyString;
     syncDetected := false |}.
End HuntSpec.

(** ** A packet from the sender to [processPacket] *)

Section AirSpec.
Local Open Scope string_scope.

(** The spectra read are those of the chords played, one reading for
    each chord, every channel in the clear. *)
Definition heardInTheClear (binOf : Z -> Z) (optimalFrequencies : list Z)
           (spectra : list (list Z)) (chords : list (list bool)) : Prop :=
  Forall2 (fun spectrum chord =>
             clearChord binOf optimalFrequencies spectrum chord)
          spectra chords.

(** The calls of [processReceivedBits] for batches of bits that are
    all detected. *)
Definition receiveFrom (acc : demodulationState * list string)
           (batches : list (list bool)) : demodulationState * list string :=
  fold_left (fun acc batch =>
               let '(st', packets) :=
                 processReceivedBits (fst acc) (map Some batch) in
               (st', (snd acc ++ packets)%list))
            batches acc.

(** Four carriers whose tones fall in separate bins of 100 Hz. *)
Definition fourCarriers : list Z := [300; 700; 1100; 1500]%Z.

(** A spectrum with the tones of a chord on [fourCarriers] at 200 and
    nothing else. *)
Definition playedSpectrum (chord : list bool) : list Z :=
  ([0; 0] ++ flat_map (fun bit : bool =>
                         if bit then [0; 0; 200; 0] else [200; 0; 0; 0])
                      chord)%Z%list.
End AirSpec.

(* ================================================================== *)
(** * Part III: properties *)
(* ================================================================== *)

(** ** Integrity sums *)

Section IntegrityFacts.
Import JS.
Local Open Scope Z_scope.

Lemma ToInt32_congr (x : Z) : ToInt32 x mod 2 ^ 16 = x mod 2 ^ 16.
Proof.
  unfold ToInt32.
  assert (Hm : (x mod 2 ^ 32) mod 2 ^ 16 = x mod 2 ^ 16).
  { apply Z.mod_mod_divide. exists (2 ^ 16). reflexivity. }
  destruct (2 ^ 31 <=? x mod 2 ^ 32); [|exact Hm].
  rewrite <- Hm.
  replace (x mod 2 ^ 32 - 2 ^ 32)
    with (x mod 2 ^ 32 + (- 2 ^ 16) * 2 ^ 16) by lia.
  apply Z.mod_add. lia.
Qed.

Lemma band_0xFFFF (x : Z) : band x 0xFFFF = x mod 2 ^ 16.
Proof.
  unfold band. change (ToInt32 0xFFFF) with (Z.ones 16).
  rewrite Z.land_ones by lia. apply ToInt32_congr.
Qed.

Lemma checksum_fold (data : list Z) :
  forall acc, 0 <= acc < 2 ^ 16 ->
    fold_left (fun checksum b => band (checksum + b) 0xFFFF) data acc
    = (acc + fold_right Z.add 0 data) mod 2 ^ 16.
Proof.
  induction data as [|b data IH]; intros acc Hacc; simpl.
  - rewrite Z.add_0_r, Z.mod_small; lia.
  - rewrite IH.
    + rewrite band_0xFFFF, Zplus_mod_idemp_l. f_equal. lia.
    + rewrite band_0xFFFF. apply Z.mod_pos_bound. lia.
Qed.
End IntegrityFacts.

(** C2, as the spec states it, fails on its seed values: the additive
    checksum of "Hello" is not 0x01FE and its CRC-16 is not 0xD26E. *)
Lemma checksum_Hello_is_not_0x01FE :
  ~ (calculateChecksum Hello = 0x01FE%Z /\ crc16 Hello = 0xD26E%Z).
Proof. intros [H _]. vm_compute in H. discriminate. Qed.

(** C2 (amended): [calculateChecksum] is the sum of the bytes modulo 2^16;
    on "Hello" it is 0x01F4 and [crc16] is 0xF377; [crc16] of the empty
    sequence is 0xFFFF. *)
Theorem calculateChecksum_is_sum_mod_65536 :
  (forall b : list Z,
      calculateChecksum b = (fold_right Z.add 0 b mod 2 ^ 16)%Z)
  /\ calculateChecksum Hello = 0x01F4%Z
  /\ crc16 Hello = 0xF377%Z
  /\ crc16 [] = 0xFFFF%Z.
Proof.
  split; [|repeat split; vm_compute; reflexivity].
  intros b. unfold calculateChecksum.
  rewrite checksum_fold by lia. reflexivity.
Qed.

(** ** LZ77: the match search *)

Section LZSearch.
Import JS LZCompressor LZSpec.

Lemma strictEq_true (a b : option Z) : strictEq a b = true <-> a = b.
Proof.
  destruct a as [x|], b as [y|]; simpl; split; intros H;
    try discriminate; try reflexivity.
  - apply Z.eqb_eq in H. now subst.
  - injection H as ->. apply Z.eqb_refl.
Qed.

(** What the inner loop returns, whatever it starts from. *)
Lemma extendMatch_spec (input : list Z) (i pos : nat) :
  forall fuel length,
    let r := extendMatch input i pos length fuel in
    (length <= r <= length + fuel)%nat
    /\ (forall k, (length <= k < r)%nat ->
          (pos + k < List.length input)%nat
          /\ nth_error input (i + k) = nth_error input (pos + k))
    /\ ((r < length + fuel)%nat ->
          ~ ((pos + r < List.length input)%nat
             /\ nth_error input (i + r) = nth_error input (pos + r))).
Proof.
  induction fuel as [|fuel IH]; intros length; simpl.
  - repeat split; intros; lia.
  - destruct (pos + length <? List.length input)%nat eqn:Hlen; simpl.
    + destruct (strictEq (nth_error input (i + length))
                         (nth_error input (pos + length))) eqn:Heq.
      * specialize (IH (S length)). simpl in IH.
        destruct IH as (Hr & Hk & Hstop).
        split; [lia|]. split.
        -- intros k Hk'. destruct (Nat.eq_dec k length) as [->|Hne].
           ++ split; [now apply Nat.ltb_lt|now apply strictEq_true].
           ++ apply Hk. lia.
        -- intros Hlt. apply Hstop. lia.
      * split; [lia|]. split; [intros k Hk; lia|].
        intros _ [_ Hcontra]. apply strictEq_true in Hcontra. congruence.
    + split; [lia|]. split; [intros k Hk; lia|].
      intros _ [Hcontra _]. apply Nat.ltb_ge in Hlen. lia.
Qed.

Lemma matchAt_matches (input : list Z) (i pos : nat) :
  (pos <= List.length input)%nat ->
  matches input i pos (matchAt input i pos).
Proof.
  intros Hpos.
  destruct (extendMatch_spec input i pos lookaheadSize 0) as (Hr & Hk & _).
  fold (matchAt input i pos) in *.
  unfold matches. split; [lia|]. split.
  - destruct (matchAt input i pos) as [|n] eqn:E; [lia|].
    destruct (Hk n) as [Hlt _]; lia.
  - intros k Hlt. apply Hk. lia.
Qed.

Lemma matchAt_longest (input : list Z) (i pos L : nat) :
  matches input i pos L -> (L <= matchAt input i pos)%nat.
Proof.
  intros (HL & Hlen & Hk).
  destruct (extendMatch_spec input i pos lookaheadSize 0) as (Hr & _ & Hstop).
  fold (matchAt input i pos) in *.
  destruct (Nat.le_gt_cases L (matchAt input i pos)) as [|Hlt]; [assumption|].
  exfalso. apply Hstop; [lia|]. split; [lia|]. apply Hk. lia.
Qed.

(** The search keeps the first position that attains the running
    maximum. *)
Lemma search_fold (input : list Z) (pos : nat) :
  forall l best,
    let r := fold_left (searchStep input pos) l best in
    (fst best <= fst r)%nat
    /\ (forall i, In i l -> (matchAt input i pos <= fst r)%nat)
    /\ (r = best
        \/ exists l1 i l2,
             l = l1 ++ i :: l2
             /\ r = (matchAt input i pos, (pos - i)%nat)
             /\ (fst best < matchAt input i pos)%nat
             /\ forall j, In j l1 ->
                  (matchAt input j pos < matchAt input i pos)%nat).
Proof.
  induction l as [|a l IH]; intros best; simpl.
  - split; [lia|]. split; [intros i []|now left].
  - specialize (IH (searchStep input pos best a)).
    destruct IH as (Hmono & Hall & Hwho).
    assert (Hstep : (fst best <= fst (searchStep input pos best a))%nat
                    /\ (matchAt input a pos
                        <= fst (searchStep input pos best a))%nat).
    { unfold searchStep.
      destruct (fst best <? matchAt input a pos)%nat eqn:E; simpl.
      - apply Nat.ltb_lt in E. lia.
      - apply Nat.ltb_ge in E. lia. }
    split; [lia|]. split.
    + intros i [<-|Hin]; [lia|now apply Hall].
    + destruct Hwho as [Hsame|(l1 & i & l2 & -> & Hr & Hlt & Hl1)].
      * unfold searchStep in Hsame |- *.
        destruct (fst best <? matchAt input a pos)%nat eqn:E.
        -- right. exists [], a, l. apply Nat.ltb_lt in E.
           repeat split; try assumption. intros j [].
        -- now left.
      * right. exists (a :: l1), i, l2.
        repeat split; try assumption; try lia.
        intros j [<-|Hin]; [lia|now apply Hl1].
Qed.

Lemma seq_split_at (l1 l2 : list nat) (i : nat) :
  forall s n, seq s n = l1 ++ i :: l2 ->
    i = (s + List.length l1)%nat /\ l1 = seq s (List.length l1).
Proof.
  induction l1 as [|a l1 IH]; intros s n H; destruct n as [|n];
    simpl in H; try discriminate.
  - injection H as <- _. simpl. split; [lia|reflexivity].
  - injection H as <- H. apply IH in H as [-> Hl1]. simpl.
    split; [lia|]. now rewrite <- Hl1.
Qed.

(** What the search returns: nothing, or the first position of the
    window that attains the greatest match length. *)
Lemma findMatch_cases (input : list Z) (pos : nat) :
  (forall i, inWindow pos i ->
             (matchAt input i pos <= fst (findMatch input pos))%nat)
  /\ (findMatch input pos = (0, 0)%nat
      \/ exists i,
           inWindow pos i
           /\ findMatch input pos = (matchAt input i pos, (pos - i)%nat)
           /\ forall j, inWindow pos j -> (j < i)%nat ->
                (matchAt input j pos < matchAt input i pos)%nat).
Proof.
  pose proof (search_fold input pos
                (seq (searchStart pos) (pos - searchStart pos)) (0, 0)%nat)
    as (_ & Hall & Hwho).
  fold (findMatch input pos) in Hall, Hwho.
  split.
  - intros i [Hlo Hhi]. apply Hall. apply in_seq. unfold searchStart. lia.
  - destruct Hwho as [Hsame|(l1 & i & l2 & Hsplit & Hr & _ & Hl1)];
      [now left|right].
    pose proof (seq_split_at _ _ _ _ _ Hsplit) as [Hi Hl1eq].
    assert (Hini : In i (seq (searchStart pos) (pos - searchStart pos))).
    { rewrite Hsplit. apply in_or_app. right. now left. }
    apply in_seq in Hini. unfold searchStart in Hini, Hi.
    exists i. split; [unfold inWindow; lia|]. split; [exact Hr|].
    intros j [Hjlo Hjhi] Hlt. apply Hl1. rewrite Hl1eq.
    apply in_seq. unfold searchStart. lia.
Qed.

Lemma band_sar8 (d : Z) :
  (0 <= d < 2 ^ 16)%Z -> band (sar d 8) 0xFF = (d / 256)%Z.
Proof.
  intros Hd. unfold band, sar.
  assert (HT : ToInt32 d = d).
  { unfold ToInt32. rewrite Z.mod_small by lia.
    destruct (2 ^ 31 <=? d)%Z eqn:E; [apply Z.leb_le in E; lia|reflexivity]. }
  rewrite HT. change (8 mod 32)%Z with 8%Z.
  rewrite Z.shiftr_div_pow2 by lia. change (2 ^ 8)%Z with 256%Z.
  assert (Hq : (0 <= d / 256 < 256)%Z).
  { split; [apply Z.div_pos; lia|apply Z.div_lt_upper_bound; lia]. }
  assert (HT' : ToInt32 (d / 256) = (d / 256)%Z).
  { unfold ToInt32. rewrite Z.mod_small by lia.
    destruct (2 ^ 31 <=? d / 256)%Z eqn:E; [apply Z.leb_le in E; lia|reflexivity]. }
  rewrite HT'. change (ToInt32 255) with (Z.ones 8).
  rewrite Z.land_ones by lia. apply Z.mod_small. lia.
Qed.

Lemma band_low8 (d : Z) :
  (0 <= d < 2 ^ 16)%Z -> band d 0xFF = (d mod 256)%Z.
Proof.
  intros Hd. unfold band.
  assert (HT : ToInt32 d = d).
  { unfold ToInt32. rewrite Z.mod_small by lia.
    destruct (2 ^ 31 <=? d)%Z eqn:E; [apply Z.leb_le in E; lia|reflexivity]. }
  rewrite HT. change (ToInt32 255) with (Z.ones 8).
  now rewrite Z.land_ones by lia.
Qed.
End LZSearch.

Import LZCompressor LZSpec.

(** C3, as the spec states it, fails: in [tieExample] the cursor at 8 has
    two prior matches of the maximal length 3, at positions 0 and 4, and
    the pair emitted is not the nearer one. *)
Lemma nearest_match_not_chosen :
  ~ (exists d L, emitsLongest tieExample 8 d L /\ nearestChosen tieExample 8 d L).
Proof.
  intros (d & L & (Hemit & Hd & _ & _ & _) & Hnear).
  assert (E : emit tieExample 8 = ([255; 0; 8; 3]%Z, 11%nat))
    by (vm_compute; reflexivity).
  rewrite E in Hemit. unfold matchBytes in Hemit.
  injection Hemit as Hq Hm HL _.
  assert (HL3 : L = 3%nat) by lia.
  assert (Hd8 : d = 8%nat).
  { pose proof (Z.div_mod (Z.of_nat d) 256 ltac:(lia)). lia. }
  clear Hq Hm HL.
  subst d L.
  assert (H4 : (4 <= 8 - 8)%nat); [|simpl in H4; lia].
  apply Hnear.
  - unfold inWindow, windowSize. lia.
  - unfold matches, lookaheadSize. split; [lia|]. split; [simpl; lia|].
    intros k Hk. destruct k as [|[|[|k]]]; try reflexivity. lia.
Qed.

(** C3 (amended): at every cursor position where some prior match of at
    least 3 bytes starts inside the 4096-byte window, the compressor emits
    a [(distance, length)] pair whose length is the greatest any position
    of the window attains, and among the positions attaining it the pair
    names the farthest one (the greatest distance). *)
Theorem emit_longest_match_farthest_first (input : list Z) (pos i0 L0 : nat) :
  inWindow pos i0 -> (3 <= L0)%nat -> matches input i0 pos L0 ->
  exists d L, emitsLongest input pos d L /\ farthestChosen input pos d L.
Proof.
  intros Hw0 HL0 Hm0.
  destruct (findMatch_cases input pos) as [Hall Hwho].
  pose proof (Hall _ Hw0) as Hge.
  pose proof (matchAt_longest _ _ _ _ Hm0) as Hge0.
  destruct Hwho as [Hnone|(i & [Hilo Hihi] & Hr & Hfirst)].
  { rewrite Hnone in Hge. simpl in Hge. lia. }
  rewrite Hr in Hge, Hall. simpl in Hge, Hall.
  exists (pos - i)%nat, (matchAt input i pos).
  assert (Hpd : (pos - (pos - i) = i)%nat) by lia.
  assert (Hpos : (pos <= List.length input)%nat)
    by (destruct Hm0 as (_ & ? & _); lia).
  split; [unfold emitsLongest; split; [|split; [|split; [|split]]]|].
  - unfold emit. rewrite Hr.
    destruct (3 <=? matchAt input i pos)%nat eqn:E;
      [|apply Nat.leb_gt in E; lia].
    unfold matchBytes.
    rewrite band_sar8, band_low8 by (unfold windowSize in *; lia).
    reflexivity.
  - unfold windowSize in *. lia.
  - lia.
  - rewrite Hpd. now apply matchAt_matches.
  - intros j L' Hwj Hmj. apply matchAt_longest in Hmj.
    specialize (Hall _ Hwj). lia.
  - intros j Hwj Hmj. rewrite Hpd.
    destruct (Nat.le_gt_cases i j) as [|Hlt]; [assumption|exfalso].
    specialize (Hfirst _ Hwj Hlt). apply matchAt_longest in Hmj. lia.
Qed.

Lemma emit_longest_match_farthest_first_witness :
  exists d L, emitsLongest tieExample 8 d L /\ farthestChosen tieExample 8 d L.
Proof.
  apply (emit_longest_match_farthest_first tieExample 8 4 3).
  - unfold inWindow, windowSize. lia.
  - lia.
  - unfold matches, lookaheadSize. split; [lia|]. split; [simpl; lia|].
    intros k Hk. destruct k as [|[|[|k]]]; try reflexivity. lia.
Defined.

(** ** LZ77: decompression *)

Section LZDecode.
Import JS LZCompressor LZSpec.

Lemma decompressLoop_stops (size : Z) (rest : list Z)
      (output : list (option Z)) :
  (size <= Z.of_nat (List.length output))%Z ->
  decompressLoop size rest output = output.
Proof.
  intros H. destruct rest as [|b rest]; [reflexivity|]. simpl.
  destruct (Z.of_nat (List.length output) <? size)%Z eqn:E;
    [apply Z.ltb_lt in E; lia|reflexivity].
Qed.

Lemma produced_nil_when_size_nonpositive (data : list Z) :
  (originalSize data <= 0)%Z -> produced data = [].
Proof.
  intros H. unfold produced. apply decompressLoop_stops. simpl. lia.
Qed.

Lemma slice0_length {A : Type} (a : list A) (e : Z) :
  (Z.of_nat (List.length (slice0 a e)) <= Z.max 0 e)%Z
  \/ (e < 0 /\ a <> [])%Z.
Proof.
  unfold slice0. destruct (e <? 0)%Z eqn:E.
  - apply Z.ltb_lt in E. destruct a; [left; simpl|right; split; [lia|easy]].
    rewrite firstn_nil. simpl. lia.
  - apply Z.ltb_ge in E. left. rewrite length_firstn. lia.
Qed.

Lemma slice0_all {A : Type} (a : list A) (e : Z) :
  (Z.of_nat (List.length a) < e)%Z -> slice0 a e = a.
Proof.
  intros H. unfold slice0.
  destruct (e <? 0)%Z eqn:E; [apply Z.ltb_lt in E; lia|].
  apply firstn_all2. lia.
Qed.
End LZDecode.

Import JS LZCompressor LZSpec.

(** C7, as the spec states it, fails: on a stream that declares 5 bytes
    and carries 1 the call returns that byte instead of failing. *)
Lemma truncated_stream_is_returned :
  ~ failsCorruptStream truncatedStream.
Proof.
  unfold failsCorruptStream. intros H.
  assert (Hex : exhaustedEarly truncatedStream) by (vm_compute; reflexivity).
  specialize (H Hex).
  assert (E : decompress truncatedStream = Normal [65%Z])
    by (vm_compute; reflexivity).
  rewrite E in H. discriminate H.
Qed.

(** C7 (amended): [decompress] never throws.  Its loop stops as soon as
    the output has reached the declared length, and the result never
    exceeds that length; when the input runs out first, every byte
    produced so far is returned. *)
Theorem decompress_returns_produced_prefix (data : list Z) :
  (forall rest output,
      (originalSize data <= Z.of_nat (List.length output))%Z ->
      decompressLoop (originalSize data) rest output = output)
  /\ exists out,
       decompress data = Normal out
       /\ (Z.of_nat (List.length out) <= Z.max 0 (originalSize data))%Z
       /\ (exhaustedEarly data -> out = map toUint8 (produced data)).
Proof.
  split; [intros rest output; apply decompressLoop_stops|].
  eexists. split; [reflexivity|]. split.
  - rewrite length_map.
    destruct (slice0_length (produced data) (originalSize data))
      as [H|[Hneg Hne]]; [exact H|].
    exfalso. apply Hne. apply produced_nil_when_size_nonpositive. lia.
  - intros H. unfold exhaustedEarly in H. now rewrite slice0_all.
Qed.

Lemma decompress_returns_produced_prefix_witness :
  exists out,
    decompress truncatedStream = Normal out
    /\ out = map toUint8 (produced truncatedStream).
Proof.
  destruct (decompress_returns_produced_prefix truncatedStream)
    as (_ & out & Hout & _ & Hall).
  exists out. split; [exact Hout|]. apply Hall. vm_compute. reflexivity.
Defined.

(** ** LZ77: the round trip *)

Section LZRoundTrip.
Import JS LZCompressor LZSpec.
Local Open Scope Z_scope.

Lemma ToInt32_small (x : Z) : 0 <= x < 2 ^ 31 -> ToInt32 x = x.
Proof.
  intros H. unfold ToInt32. rewrite Z.mod_small by lia.
  destruct (2 ^ 31 <=? x) eqn:E; [apply Z.leb_le in E; lia|reflexivity].
Qed.

Lemma lor_disjoint (k a b : Z) :
  0 <= k -> 0 <= b < 2 ^ k -> Z.lor (a * 2 ^ k) b = a * 2 ^ k + b.
Proof.
  intros Hk Hb.
  assert (Hland : Z.land (a * 2 ^ k) b = 0).
  { apply Z.bits_inj'. intros i Hi.
    rewrite Z.land_spec, Z.bits_0.
    destruct (Z.lt_ge_cases i k) as [Hlt|Hge].
    - now rewrite Z.mul_pow2_bits_low.
    - destruct (Z.eq_dec b 0) as [->|Hnz];
        [now rewrite Z.bits_0, andb_false_r|].
      rewrite (Z.bits_above_log2 b i), andb_false_r; [reflexivity|lia|].
      apply Z.lt_le_trans with k; [|assumption].
      apply Z.log2_lt_pow2; lia. }
  now rewrite <- Z.lxor_lor, <- Z.add_nocarry_lxor.
Qed.

Lemma shl_small (x k : Z) :
  0 <= k < 32 -> 0 <= x -> x * 2 ^ k < 2 ^ 31 -> shl x k = x * 2 ^ k.
Proof.
  intros Hk Hx Hlt. unfold shl.
  assert (Hx31 : x < 2 ^ 31).
  { pose proof (Z.pow_pos_nonneg 2 k ltac:(lia) ltac:(lia)). nia. }
  rewrite Z.mod_small by lia.
  rewrite (ToInt32_small x) by lia.
  rewrite Z.shiftl_mul_pow2 by lia.
  apply ToInt32_small. nia.
Qed.

Lemma bor_small (a b : Z) :
  0 <= a < 2 ^ 31 -> 0 <= b < 2 ^ 31 -> bor a b = Z.lor a b.
Proof. intros Ha Hb. unfold bor. now rewrite !ToInt32_small. Qed.

(** The distance read back from the two bytes written for it. *)
Lemma distance_decoded (d : Z) :
  0 <= d < 2 ^ 16 ->
  bor (shl (band (sar d 8) 0xFF) 8) (band d 0xFF) = d.
Proof.
  intros Hd. rewrite band_sar8, band_low8 by assumption.
  assert (Hq : 0 <= d / 256 < 256).
  { split; [apply Z.div_pos; lia|apply Z.div_lt_upper_bound; lia]. }
  pose proof (Z.mod_pos_bound d 256 ltac:(lia)) as Hr.
  rewrite shl_small by (change (2 ^ 8) with 256; lia).
  change (2 ^ 8) with 256.
  rewrite bor_small by lia.
  change 256 with (2 ^ 8) at 2.
  rewrite lor_disjoint by (change (2 ^ 8) with 256; lia).
  change (2 ^ 8) with 256. pose proof (Z.div_mod d 256 ltac:(lia)). lia.
Qed.

Lemma band_byte (x : Z) : 0 <= x < 2 ^ 31 -> band x 0xFF = x mod 256.
Proof.
  intros Hx. unfold band. rewrite ToInt32_small by assumption.
  change (ToInt32 255) with (Z.ones 8). now rewrite Z.land_ones by lia.
Qed.

Lemma sar_small (x k : Z) :
  0 <= x < 2 ^ 31 -> 0 <= k < 32 -> sar x k = x / 2 ^ k.
Proof.
  intros Hx Hk. unfold sar. rewrite ToInt32_small by assumption.
  rewrite Z.mod_small by lia. now rewrite Z.shiftr_div_pow2 by lia.
Qed.

(** The length read back from the header written for it. *)
Lemma header_decoded (n : Z) (rest : list Z) :
  0 <= n < 2 ^ 31 -> originalSize (header n ++ rest) = n.
Proof.
  intros Hn. unfold originalSize, header. cbn [app nth].
  rewrite !sar_small by lia.
  assert (H24 : 0 <= n / 2 ^ 24 < 128).
  { split; [apply Z.div_pos; lia|apply Z.div_lt_upper_bound; lia]. }
  assert (H16 : 0 <= n / 2 ^ 16 < 2 ^ 31).
  { split; [apply Z.div_pos; lia|apply Z.div_lt_upper_bound; lia]. }
  assert (H8 : 0 <= n / 2 ^ 8 < 2 ^ 31).
  { split; [apply Z.div_pos; lia|apply Z.div_lt_upper_bound; lia]. }
  rewrite !band_byte by lia.
  pose proof (Z.mod_pos_bound (n / 2 ^ 24) 256 ltac:(lia)) as B0.
  pose proof (Z.mod_pos_bound (n / 2 ^ 16) 256 ltac:(lia)) as B1.
  pose proof (Z.mod_pos_bound (n / 2 ^ 8) 256 ltac:(lia)) as B2.
  pose proof (Z.mod_pos_bound n 256 ltac:(lia)) as B3.
  rewrite (Z.mod_small (n / 2 ^ 24)) in * by lia.
  set (b0 := n / 2 ^ 24) in *.
  set (b1 := (n / 2 ^ 16) mod 256) in *.
  set (b2 := (n / 2 ^ 8) mod 256) in *.
  set (b3 := n mod 256) in *.
  rewrite !shl_small by lia.
  rewrite (bor_small (b0 * 2 ^ 24)) by lia.
  rewrite lor_disjoint by lia.
  rewrite (bor_small _ (b2 * 2 ^ 8)) by lia.
  replace (b0 * 2 ^ 24 + b1 * 2 ^ 16)
    with ((b0 * 2 ^ 8 + b1) * 2 ^ 16) by lia.
  rewrite lor_disjoint by lia.
  rewrite bor_small by lia.
  replace ((b0 * 2 ^ 8 + b1) * 2 ^ 16 + b2 * 2 ^ 8)
    with (((b0 * 2 ^ 8 + b1) * 2 ^ 8 + b2) * 2 ^ 8) by lia.
  rewrite lor_disjoint by lia.
  subst b0 b1 b2 b3.
  change (2 ^ 24) with 16777216. change (2 ^ 16) with 65536.
  change (2 ^ 8) with 256.
  Z.div_mod_to_equations. lia.
Qed.

Local Close Scope Z_scope.

Lemma compressLoop_unfold (fuel : nat) (input : list Z) (pos : nat)
      (output : list Z) :
  compressLoop fuel input pos output
  = if (List.length input <=? pos)%nat then Some output
    else match fuel with
         | O => None
         | S fuel' =>
             let '(bytes, pos') := emit input pos in
             compressLoop fuel' input pos' (output ++ bytes)
         end.
Proof. destruct fuel; reflexivity. Qed.

Lemma emit_advances (input : list Z) (pos : nat) :
  pos < snd (emit input pos).
Proof.
  unfold emit. destruct (findMatch input pos) as [L d].
  destruct (3 <=? L)%nat eqn:E; simpl; [apply Nat.leb_le in E|]; lia.
Qed.

(** The compressor always returns: the cursor moves forward on every
    turn, so [length data] turns are enough. *)
Lemma compressLoop_total (input : list Z) :
  forall fuel pos output,
    List.length input - pos <= fuel ->
    exists out, compressLoop fuel input pos output = Some out.
Proof.
  induction fuel as [|fuel IH]; intros pos output Hfuel;
    rewrite compressLoop_unfold;
    destruct (List.length input <=? pos)%nat eqn:E; eauto;
    apply Nat.leb_gt in E; [lia|].
  pose proof (emit_advances input pos) as Hadv.
  destruct (emit input pos) as [bytes pos']. simpl in Hadv.
  apply IH. lia.
Qed.

Lemma compress_total (data : list Z) : exists out, compress data = Some out.
Proof. apply compressLoop_total. lia. Qed.

(** The two shapes of a turn of the compressor. *)
Lemma emit_cases (input : list Z) (pos : nat) :
  pos < List.length input ->
  emit input pos = ([nth pos input 0%Z], pos + 1)
  \/ exists i L,
       inWindow pos i /\ 3 <= L /\ matches input i pos L
       /\ emit input pos
          = ([0xFF%Z;
              band (sar (Z.of_nat (pos - i)) 8) 0xFF;
              band (Z.of_nat (pos - i)) 0xFF;
              Z.of_nat L], pos + L).
Proof.
  intros Hpos. unfold emit.
  destruct (findMatch_cases input pos) as [_ [Hnone|(i & Hw & Hr & _)]].
  - rewrite Hnone. now left.
  - rewrite Hr. destruct (3 <=? matchAt input i pos)%nat eqn:E; [|now left].
    right. exists i, (matchAt input i pos). apply Nat.leb_le in E.
    repeat split; try assumption; try apply Hw.
    all: apply matchAt_matches; lia.
Qed.

Lemma firstn_snoc_nth (input : list Z) :
  forall pos, pos < List.length input ->
    firstn (S pos) input = firstn pos input ++ [nth pos input 0%Z].
Proof.
  induction input as [|b input IH]; intros pos Hpos; simpl in Hpos; [lia|].
  destruct pos as [|pos]; [reflexivity|].
  cbn [firstn nth app]. f_equal. apply IH. lia.
Qed.

Lemma get_prefix (input : list Z) (n k : nat) :
  k < n -> n <= List.length input ->
  get (map Some (firstn n input)) (Z.of_nat k) = nth_error input k.
Proof.
  intros Hk Hn. unfold get.
  destruct (Z.of_nat k <? 0)%Z eqn:E; [apply Z.ltb_lt in E; lia|].
  rewrite Nat2Z.id, nth_error_map, nth_error_firstn.
  destruct (k <? n)%nat eqn:E'; [|apply Nat.ltb_ge in E'; lia].
  now destruct (nth_error input k).
Qed.

(** The byte-by-byte copy reproduces a match, even one that overlaps
    the bytes it is writing. *)
Lemma copyMatch_prefix (input : list Z) (i pos L : nat) :
  matches input i pos L -> i < pos ->
  forall count k, k + count = L ->
    copyMatch (map Some (firstn (pos + k) input)) (Z.of_nat i) k count
    = map Some (firstn (pos + L) input).
Proof.
  intros (_ & Hlen & Heq) Hi.
  induction count as [|count IH]; intros k Hk; simpl.
  - now replace k with L by lia.
  - rewrite <- Nat2Z.inj_add, get_prefix by lia.
    rewrite Heq by lia.
    assert (Hin : pos + k < List.length input) by lia.
    rewrite (nth_error_nth' input 0%Z Hin).
    replace (map Some (firstn (pos + k) input)
               ++ [Some (nth (pos + k) input 0%Z)])
      with (map Some (firstn (pos + S k) input)).
    + apply IH. lia.
    + replace (pos + S k) with (S (pos + k)) by lia.
      now rewrite firstn_snoc_nth, map_app by assumption.
Qed.

Lemma decompressLoop_literal (size : Z) (b : Z) (T : list Z)
      (output : list (option Z)) :
  b <> 0xFF%Z -> (Z.of_nat (List.length output) < size)%Z ->
  decompressLoop size (b :: T) output
  = decompressLoop size T (output ++ [Some b]).
Proof.
  intros Hb Hlen. cbn [decompressLoop].
  apply Z.ltb_lt in Hlen. rewrite Hlen.
  apply Z.eqb_neq in Hb. rewrite Hb.
  now destruct T as [|hi [|lo [|l rest]]].
Qed.

Lemma decompressLoop_match (size hi lo l : Z) (T : list Z)
      (output : list (option Z)) :
  (Z.of_nat (List.length output) < size)%Z ->
  decompressLoop size (0xFF%Z :: hi :: lo :: l :: T) output
  = decompressLoop size T
      (copyMatch output
         (Z.of_nat (List.length output) - bor (shl hi 8) lo)%Z
         0 (Z.to_nat l)).
Proof.
  intros Hlen. cbn [decompressLoop].
  apply Z.ltb_lt in Hlen. now rewrite Hlen.
Qed.

Lemma prefix_length (input : list Z) (pos : nat) :
  pos <= List.length input ->
  List.length (map Some (firstn pos input)) = pos.
Proof. intros H. rewrite length_map, length_firstn. lia. Qed.

(** What the compressor writes from [pos] on, the decoder turns into
    the rest of the input. *)
Lemma compressLoop_decodes (input : list Z) :
  markerFree input ->
  forall fuel pos output,
    pos <= List.length input -> List.length input - pos <= fuel ->
    exists T,
      compressLoop fuel input pos output = Some (output ++ T)
      /\ decompressLoop (Z.of_nat (List.length input)) T
                        (map Some (firstn pos input))
         = map Some input.
Proof.
  intros Hfree.
  assert (Hdone : forall pos output,
             pos <= List.length input -> List.length input <= pos ->
             exists T,
               Some output = Some (output ++ T)
               /\ decompressLoop (Z.of_nat (List.length input)) T
                                 (map Some (firstn pos input))
                  = map Some input).
  { intros pos output Hle Hge. exists []. rewrite app_nil_r.
    split; [reflexivity|]. simpl. now rewrite firstn_all2. }
  induction fuel as [|fuel IH]; intros pos output Hle Hfuel;
    rewrite compressLoop_unfold;
    destruct (List.length input <=? pos)%nat eqn:E;
    try (apply Nat.leb_le in E; now apply Hdone);
    apply Nat.leb_gt in E; [lia|].
  assert (Hsize : (Z.of_nat (List.length (map Some (firstn pos input)))
                   < Z.of_nat (List.length input))%Z)
    by (rewrite prefix_length; lia).
  destruct (emit_cases input pos E)
    as [Hlit|(i & L & [Hilo Hihi] & HL & Hm & Hmatch)].
  - rewrite Hlit.
    destruct (IH (pos + 1) (output ++ [nth pos input 0%Z]))
      as (T & Hc & Hd); [lia|lia|].
    exists (nth pos input 0%Z :: T). split.
    + rewrite Hc, <- app_assoc. reflexivity.
    + rewrite decompressLoop_literal; [|
        |exact Hsize].
      * rewrite <- Hd. f_equal.
        replace (pos + 1) with (S pos) by lia.
        now rewrite firstn_snoc_nth, map_app by assumption.
      * unfold markerFree in Hfree. rewrite Forall_forall in Hfree.
        specialize (Hfree (nth pos input 0%Z) (nth_In _ _ E)). lia.
  - rewrite Hmatch.
    pose proof Hm as (_ & Hend & _).
    destruct (IH (pos + L)
                 (output ++ [0xFF%Z;
                             band (sar (Z.of_nat (pos - i)) 8) 0xFF;
                             band (Z.of_nat (pos - i)) 0xFF;
                             Z.of_nat L]))
      as (T & Hc & Hd); [lia|lia|].
    eexists. split.
    + rewrite Hc, <- app_assoc. reflexivity.
    + cbn [app]. rewrite decompressLoop_match by exact Hsize.
      rewrite distance_decoded by (unfold windowSize in *; lia).
      rewrite prefix_length, Nat2Z.id by lia.
      replace (Z.of_nat pos - Z.of_nat (pos - i))%Z with (Z.of_nat i) by lia.
      pose proof (copyMatch_prefix input i pos L Hm Hihi L 0 ltac:(lia))
        as Hcopy.
      rewrite Nat.add_0_r in Hcopy. rewrite Hcopy. exact Hd.
Qed.

(** Without the marker byte in the file, and below 2 GiB, decompressing
    what [compress] returns gives the file back. *)
Lemma roundtrip_marker_free (data : list Z) :
  markerFree data -> (Z.of_nat (List.length data) < 2 ^ 31)%Z ->
  exists compressed,
    compress data = Some compressed /\ decompress compressed = Normal data.
Proof.
  intros Hfree Hlen.
  destruct (compressLoop_decodes data Hfree (List.length data) 0
              (header (Z.of_nat (List.length data))))
    as (T & Hc & Hd); [lia|lia|].
  exists (header (Z.of_nat (List.length data)) ++ T).
  split; [exact Hc|].
  unfold decompress, produced.
  rewrite header_decoded by lia.
  change (skipn 4 (header (Z.of_nat (List.length data)) ++ T)) with T.
  simpl firstn in Hd. simpl map in Hd at 1. rewrite Hd.
  unfold slice0.
  destruct (Z.of_nat (List.length data) <? 0)%Z eqn:E;
    [apply Z.ltb_lt in E; lia|].
  rewrite firstn_all2 by (rewrite length_map; lia).
  f_equal. rewrite map_map.
  rewrite <- (map_id data) at 2. apply map_ext_in.
  intros b Hb. unfold markerFree in Hfree. rewrite Forall_forall in Hfree.
  specialize (Hfree b Hb). simpl. apply Z.mod_small. lia.
Qed.
End LZRoundTrip.

(** C1: the round trip breaks on a file that holds the byte 0xFF where
    three more bytes follow it; the four bytes [FF 01 02 03] come back as
    three zero bytes. *)
Theorem roundtrip_breaks_on_marker_byte :
  compress markerExample = Some [0; 0; 0; 4; 0xFF; 1; 2; 3]%Z
  /\ decompress [0; 0; 0; 4; 0xFF; 1; 2; 3]%Z = Normal [0; 0; 0]%Z
  /\ [0; 0; 0]%Z <> markerExample.
Proof. repeat split; try (vm_compute; reflexivity). discriminate. Qed.

(** ** Calibration *)

Section CalibrationFacts.
Import JS.
Context {number : Type}.
Variable avgNoiseOf : Z -> number.
Variable noise_le : number -> number -> bool.

Lemma insertBin_not_nil (x : freqBin) (l : list freqBin) :
  insertBin noise_le x l <> [].
Proof.
  destruct l as [|y l]; simpl; [discriminate|].
  destruct (noise_le (avgNoise x) (avgNoise y)); discriminate.
Qed.

Lemma sortBins_nil_iff (l : list (@freqBin number)) :
  sortBins noise_le l = [] <-> l = [].
Proof.
  destruct l as [|x l]; simpl; [tauto|].
  split; [|discriminate].
  intros H. now apply insertBin_not_nil in H.
Qed.

Lemma scanFrequencies_nil_iff (cfg : config) :
  scanFrequencies cfg = [] <-> ~ accommodates cfg.
Proof.
  unfold scanFrequencies, scanLimit, accommodates.
  destruct (FREQ_MIN cfg <=?
            FREQ_MAX cfg - Z.of_nat (NUM_CHANNELS cfg) * CHANNEL_SPACING cfg)%Z
    eqn:E.
  - apply Z.leb_le in E. split; [discriminate|tauto].
  - apply Z.leb_gt in E. split; [lia|reflexivity].
Qed.

Lemma insertBin_In (x a : freqBin) (m : list freqBin) :
  In x (insertBin noise_le a m) -> x = a \/ In x m.
Proof.
  induction m as [|b m IHm]; simpl.
  - intros [->|[]]; now left.
  - destruct (noise_le (avgNoise a) (avgNoise b)); simpl.
    + intros [->|[->|Hm]]; auto.
    + intros [->|Hm]; [auto|]. apply IHm in Hm as [->|Hm]; auto.
Qed.

Lemma sortBins_In (x : freqBin) (l : list freqBin) :
  In x (sortBins noise_le l) -> In x l.
Proof.
  induction l as [|y l IH]; simpl; [tauto|].
  intros Hx. apply insertBin_In in Hx as [->|Hx]; [now left|right; now apply IH].
Qed.

Lemma analyze_outcome (cfg : config) :
  (accommodates cfg ->
   exists baseFreq,
     In baseFreq (scanFrequencies cfg)
     /\ analyzeCalibrationData avgNoiseOf noise_le cfg
        = Normal (map (fun i => (baseFreq + Z.of_nat i * CHANNEL_SPACING cfg)%Z)
                      (seq 0 (NUM_CHANNELS cfg))))
  /\ (~ accommodates cfg ->
      analyzeCalibrationData avgNoiseOf noise_le cfg = Throw TypeError).
Proof.
  unfold analyzeCalibrationData.
  set (bins := map (fun f => {| freq := f; avgNoise := avgNoiseOf f |})
                   (scanFrequencies cfg)).
  split; intros H.
  - destruct (sortBins noise_le bins) as [|first rest] eqn:E.
    + apply (proj1 (sortBins_nil_iff _)) in E. apply map_eq_nil in E.
      apply scanFrequencies_nil_iff in E. contradiction.
    + exists (freq first). split; [|reflexivity].
      assert (Hin : In first bins).
      { apply sortBins_In. rewrite E. now left. }
      apply in_map_iff in Hin as (f & <- & Hf). exact Hf.
  - apply scanFrequencies_nil_iff in H. subst bins. now rewrite H.
Qed.
End CalibrationFacts.

Import JS.

(** Every shipped profile fits the search range, so calibration with the
    shipped settings always yields its carriers. *)
Lemma shipped_profiles_accommodate :
  Forall accommodates [STANDARD; FAST; ULTRA; EXTREME].
Proof. repeat constructor; unfold accommodates; simpl; lia. Qed.

(** C4, as the spec states it, fails: with a profile that does not fit the
    search range the analysis ends in a [TypeError], not in a
    [NoViableBand] error. *)
Lemma narrow_range_is_not_NoViableBand :
  ~ reportsNoViableBand (fun f : Z => f) Z.leb tooWide.
Proof.
  unfold reportsNoViableBand. intros H.
  assert (Hn : ~ accommodates tooWide) by (unfold accommodates; simpl; lia).
  specialize (H Hn). vm_compute in H. discriminate H.
Qed.

(** C4 (amended): for a profile of at least one channel the calibration
    yields a non-empty list of carriers, [NUM_CHANNELS] of them, if and
    only if [FREQ_MAX - NUM_CHANNELS * CHANNEL_SPACING >= FREQ_MIN]; when
    the range cannot accommodate the profile, reading [freqBins[0].freq]
    throws a [TypeError] and no carriers are produced. *)
Theorem calibration_nonempty_iff_accommodates
        {number : Type} (avgNoiseOf : Z -> number)
        (noise_le : number -> number -> bool) (cfg : config) :
  (1 <= NUM_CHANNELS cfg)%nat ->
  ((exists freqs,
       analyzeCalibrationData avgNoiseOf noise_le cfg = Normal freqs
       /\ freqs <> [] /\ List.length freqs = NUM_CHANNELS cfg)
   <-> accommodates cfg)
  /\ (~ accommodates cfg ->
      analyzeCalibrationData avgNoiseOf noise_le cfg = Throw TypeError).
Proof.
  intros HN.
  destruct (analyze_outcome avgNoiseOf noise_le cfg) as [Hyes Hno].
  split; [split|exact Hno].
  - intros (freqs & Hres & _).
    destruct (Z.le_gt_cases (FREQ_MIN cfg)
                (FREQ_MAX cfg - Z.of_nat (NUM_CHANNELS cfg) * CHANNEL_SPACING cfg))
      as [Hle|Hgt]; [exact Hle|].
    assert (Hn : ~ accommodates cfg) by (unfold accommodates; lia).
    rewrite (Hno Hn) in Hres. discriminate Hres.
  - intros Hacc. destruct (Hyes Hacc) as (baseFreq & _ & Hres).
    eexists. split; [exact Hres|]. rewrite length_map, length_seq.
    split; [|reflexivity].
    destruct (NUM_CHANNELS cfg); [lia|discriminate].
Qed.

Lemma calibration_nonempty_iff_accommodates_witness :
  analyzeCalibrationData (fun f : Z => f) Z.leb tooWide = Throw TypeError
  /\ exists freqs,
       analyzeCalibrationData (fun f : Z => f) Z.leb STANDARD = Normal freqs
       /\ freqs <> [] /\ List.length freqs = NUM_CHANNELS STANDARD.
Proof.
  split.
  - apply (calibration_nonempty_iff_accommodates (fun f : Z => f) Z.leb tooWide).
    + simpl. lia.
    + unfold accommodates. simpl. lia.
  - apply (calibration_nonempty_iff_accommodates (fun f : Z => f) Z.leb STANDARD).
    + simpl. lia.
    + unfold accommodates. simpl. lia.
Defined.

(** ** Integrity check and bit encoding *)

Section VerifyFacts.
Import JS.
Local Open Scope Z_scope.

Lemma integrityStatus_mismatch_iff (checksum : Z) (bytes : list Z) :
  integrityStatus checksum bytes = ChecksumMismatch
  <-> checksum <> 0 /\ checksum <> calculateChecksum bytes.
Proof.
  unfold integrityStatus, truthy.
  destruct (checksum =? 0) eqn:E0;
    destruct (checksum =? calculateChecksum bytes) eqn:E1; simpl;
    rewrite ?Z.eqb_eq, ?Z.eqb_neq in *; split; intros H;
    try discriminate; try tauto; try reflexivity.
Qed.
End VerifyFacts.

(** C9: when the checksum the sender computed and put in the metadata is
    0, [reconstructFile] reports the artifact as verified whatever bytes it
    reconstructed. *)
Theorem zero_checksum_always_verified
        (fileMetadata : FileMetadata) (sent decoded : list Z) :
  checksum fileMetadata = calculateChecksum sent ->
  calculateChecksum sent = 0%Z ->
  snd (reconstructFile fileMetadata decoded) = Verified.
Proof.
  intros Hmeta Hzero. unfold reconstructFile. simpl. rewrite Hmeta, Hzero.
  match goal with
  | |- integrityStatus 0 ?bytes = _ =>
      destruct (integrityStatus 0 bytes) eqn:E; [reflexivity|]
  end.
  apply integrityStatus_mismatch_iff in E. lia.
Qed.

Lemma zero_checksum_always_verified_witness :
  calculateChecksum zeroSumFile = 0%Z
  /\ calculateChecksum [1%Z] <> calculateChecksum zeroSumFile
  /\ snd (reconstructFile {| compressed := false;
                             checksum := calculateChecksum zeroSumFile |}
                          [1%Z])
     = Verified.
Proof.
  split; [vm_compute; reflexivity|].
  split; [vm_compute; discriminate|].
  apply (zero_checksum_always_verified _ zeroSumFile [1%Z]).
  - reflexivity.
  - vm_compute. reflexivity.
Defined.

Section EncodeFacts.
Lemma binaryDigits_length (p : positive) :
  forall acc,
    List.length (binaryDigits p acc) = (Pos.size_nat p + List.length acc)%nat.
Proof.
  induction p as [q IH|q IH|]; intros acc; simpl; rewrite ?IH; simpl; lia.
Qed.

Lemma size_nat_le (p : positive) :
  forall k, (Pos.size_nat p <= k)%nat <-> (Z.pos p < 2 ^ Z.of_nat k)%Z.
Proof.
  induction p as [q IH|q IH|]; intros [|k]; simpl Pos.size_nat;
    rewrite ?Nat2Z.inj_succ, ?Z.pow_succ_r by lia;
    try (specialize (IH k)); simpl (2 ^ Z.of_nat 0)%Z; try lia.
Qed.

Lemma toString2_length (c : N) :
  List.length (toString2 c) = Nat.max 1 (N.size_nat c).
Proof.
  destruct c as [|p]; simpl; [reflexivity|].
  rewrite binaryDigits_length. simpl.
  destruct p; simpl; lia.
Qed.

Lemma charBits_length (c : N) :
  List.length (charBits c) = Nat.max 8 (N.size_nat c).
Proof.
  unfold charBits, padStart8.
  rewrite length_app, repeat_length, toString2_length. lia.
Qed.

Lemma size_nat_le_8 (c : N) : (N.size_nat c <= 8)%nat <-> (c <= 255)%N.
Proof.
  destruct c as [|p]; simpl; [lia|].
  rewrite (size_nat_le p 8). simpl. lia.
Qed.

Lemma charBits_eight_iff (c : N) :
  List.length (charBits c) = 8%nat <-> (c <= 255)%N.
Proof. rewrite charBits_length, <- size_nat_le_8. lia. Qed.

Lemma charBits_at_least_eight (c : N) : (8 <= List.length (charBits c))%nat.
Proof. rewrite charBits_length. lia. Qed.

Lemma encodeToBinary_length (message : list N) :
  (8 * List.length message <= List.length (encodeToBinary message))%nat
  /\ (List.length (encodeToBinary message) = 8 * List.length message
      <-> Forall (fun c => (c <= 255)%N) message)%nat.
Proof.
  induction message as [|c message [IHle IHeq]]; simpl.
  - split; [lia|]. split; [constructor|reflexivity].
  - rewrite length_app.
    pose proof (charBits_at_least_eight c) as H8.
    split; [lia|]. split.
    + intros H. constructor.
      * apply charBits_eight_iff. lia.
      * apply IHeq. lia.
    + intros H. inversion H as [|? ? Hc Hm]; subst.
      apply charBits_eight_iff in Hc. apply IHeq in Hm. lia.
Qed.

(** The receiver reads every group of eight bits as a code below 256. *)
Lemma parseInt2_byte (b7 b6 b5 b4 b3 b2 b1 b0 : bool) :
  (parseInt2 [b7; b6; b5; b4; b3; b2; b1; b0] <= 255)%N.
Proof.
  destruct b7, b6, b5, b4, b3, b2, b1, b0; vm_compute; discriminate.
Qed.

Lemma charCodes_small (bits : list bool) :
  Forall (fun c => (c <= 255)%N) (charCodes bits).
Proof.
  assert (H : forall n bits, (List.length bits <= n)%nat ->
                             Forall (fun c => (c <= 255)%N) (charCodes bits)).
  { clear. induction n as [|n IH]; intros bits Hlen.
    - destruct bits; [constructor|simpl in Hlen; lia].
    - destruct bits as [|b7 [|b6 [|b5 [|b4 [|b3 [|b2 [|b1 [|b0 rest]]]]]]]];
        try constructor.
      + apply parseInt2_byte.
      + apply IH. simpl in Hlen. lia. }
  apply (H (List.length bits)). lia.
Qed.

(** Below 256 the eight bits regroup into the code they came from. *)
Lemma charCodes_charBits (c : N) (rest : list bool) :
  (c <= 255)%N -> charCodes (charBits c ++ rest) = c :: charCodes rest.
Proof.
  intros Hc.
  assert (Hall : forallb (fun n => match charBits (N.of_nat n) with
                                   | [b7; b6; b5; b4; b3; b2; b1; b0] =>
                                       N.eqb (parseInt2 [b7; b6; b5; b4; b3; b2; b1; b0])
                                             (N.of_nat n)
                                   | _ => false
                                   end) (seq 0 256) = true)
    by (vm_compute; reflexivity).
  rewrite forallb_forall in Hall.
  specialize (Hall (N.to_nat c)). rewrite N2Nat.id in Hall.
  assert (Hin : In (N.to_nat c) (seq 0 256)) by (apply in_seq; lia).
  specialize (Hall Hin).
  destruct (charBits c) as [|b7 [|b6 [|b5 [|b4 [|b3 [|b2 [|b1 [|b0 [|x t]]]]]]]]];
    try discriminate.
  apply N.eqb_eq in Hall. cbn [app charCodes]. now rewrite Hall.
Qed.

Lemma charCodes_encodeToBinary (message : list N) :
  Forall (fun c => (c <= 255)%N) message ->
  charCodes (encodeToBinary message) = message.
Proof.
  induction 1 as [|c message Hc _ IH]; [reflexivity|].
  simpl. rewrite charCodes_charBits by assumption. now rewrite IH.
Qed.
End EncodeFacts.

(** C10: a character is emitted as exactly 8 bits if and only if its code
    is at most 255, and as more than 8 bits from 256 on; so the whole
    encoding has 8 bits per character if and only if every code is at most
    255.  The receiver's regrouping by 8 inverts the encoding of such a
    message, and of no message that holds a code of 256 or more. *)
Theorem encodeToBinary_eight_bits_iff_below_256 (message : list N) :
  (forall c, (List.length (charBits c) = 8 <-> (c <= 255)%N)
             /\ ((256 <= c)%N -> 8 < List.length (charBits c)))%nat
  /\ (List.length (encodeToBinary message) = 8 * List.length message
      <-> Forall (fun c => (c <= 255)%N) message)%nat
  /\ (Forall (fun c => (c <= 255)%N) message ->
      charCodes (encodeToBinary message) = message)
  /\ (Exists (fun c => (256 <= c)%N) message ->
      charCodes (encodeToBinary message) <> message).
Proof.
  split; [|split; [|split]].
  - intros c. split; [apply charBits_eight_iff|].
    intros Hc. pose proof (charBits_at_least_eight c) as H8.
    pose proof (charBits_eight_iff c) as Hiff.
    destruct (Nat.eq_dec (List.length (charBits c)) 8) as [E|E]; [|lia].
    apply Hiff in E. lia.
  - apply encodeToBinary_length.
  - apply charCodes_encodeToBinary.
  - intros Hex Heq.
    pose proof (charCodes_small (encodeToBinary message)) as Hsmall.
    rewrite Heq in Hsmall.
    apply Exists_exists in Hex as (c & Hin & Hc).
    rewrite Forall_forall in Hsmall. specialize (Hsmall c Hin). lia.
Qed.

Lemma encodeToBinary_eight_bits_iff_below_256_witness :
  (8 < List.length (charBits 0x4E2D))%nat
  /\ charCodes (encodeToBinary wideMessage) <> wideMessage.
Proof.
  pose proof (encodeToBinary_eight_bits_iff_below_256 wideMessage)
    as (Hchar & _ & _ & Hno).
  split.
  - apply (Hchar 0x4E2D%N). vm_compute. discriminate.
  - apply Hno. apply Exists_cons_hd. vm_compute. discriminate.
Defined.

(** ** Framing *)

Section FramingFacts.
Local Open Scope string_scope.

Lemma prefix_occurs (a b : string) :
  String.prefix a b = true <-> exists after, b = a ++ after.
Proof.
  revert b. induction a as [|c a IH]; intros b.
  - split; [intros _; now exists b|intros _; now destruct b].
  - destruct b as [|d b]; simpl.
    + split; [discriminate|intros [? H]; discriminate].
    + destruct (ascii_dec c d) as [->|Hne].
      * rewrite IH. split; intros [after H]; exists after; [now rewrite H|].
        now injection H.
      * split; [discriminate|]. intros [after H]. injection H as H _.
        congruence.
Qed.

Lemma includes_unfold (needle hay : string) :
  includes needle hay
  = if String.prefix needle hay then true
    else match hay with
         | EmptyString => false
         | String _ hay' => includes needle hay'
         end.
Proof. destruct hay; reflexivity. Qed.

Lemma includes_occursIn (needle hay : string) :
  includes needle hay = true <-> occursIn needle hay.
Proof.
  unfold occursIn. split.
  - induction hay as [|c hay IH]; rewrite includes_unfold;
      destruct (String.prefix needle _) eqn:E; intros H;
      try discriminate.
    + apply prefix_occurs in E as [after E]. now exists "", after.
    + apply prefix_occurs in E as [after E]. now exists "", after.
    + destruct (IH H) as (before & after & ->).
      now exists (String c before), after.
  - intros (before & after & ->).
    induction before as [|c before IH]; rewrite includes_unfold.
    + assert (E : String.prefix needle (needle ++ after) = true)
        by (apply prefix_occurs; now exists after).
      change ("" ++ needle ++ after) with (needle ++ after). now rewrite E.
    + change (String c before ++ needle ++ after)
        with (String c (before ++ needle ++ after)).
      destruct (String.prefix needle (String c (before ++ needle ++ after)));
        [reflexivity|exact IH].
Qed.

Lemma deliverable_handedOver (buffer : string) :
  deliverable buffer = true <-> handedOver buffer.
Proof.
  unfold deliverable, handedOver.
  rewrite orb_true_iff, andb_true_iff, !orb_true_iff, !includes_occursIn,
    Nat.ltb_lt.
  tauto.
Qed.

Lemma framedStep_cases (packetBuffer : string) (syncDetected : bool)
      (char : ascii) :
  let buffer := packetBuffer ++ String char "" in
  (deliverable buffer = true
   /\ framedStep packetBuffer syncDetected char = ("", false, Some buffer))
  \/ (deliverable buffer = false
      /\ exists b s, framedStep packetBuffer syncDetected char = (b, s, None)).
Proof.
  intros buffer. unfold framedStep. fold buffer.
  destruct (deliverable buffer).
  - left. split; reflexivity.
  - right. split; [reflexivity|].
    destruct (5000 <? String.length buffer)%nat; eauto.
Qed.

Lemma framedLoop_turns :
  forall n bits, (List.length bits <= n)%nat ->
  forall packetBuffer syncDetected delivered,
    framedLoop bits packetBuffer syncDetected delivered
    = let '(b, s, d) :=
        fold_left framedTurn (charCodes bits)
                  (packetBuffer, syncDetected, delivered) in
      ({| bitStream := skipn (8 * List.length (charCodes bits)) bits;
          packetBuffer := b; syncDetected := s |}, d).
Proof.
  induction n as [|n IH]; intros bits Hlen packetBuffer syncDetected delivered.
  - destruct bits; [reflexivity|simpl in Hlen; lia].
  - destruct bits as [|b7 [|b6 [|b5 [|b4 [|b3 [|b2 [|b1 [|b0 rest]]]]]]]];
      try reflexivity.
    cbn [framedLoop charCodes fold_left framedTurn].
    destruct (framedStep packetBuffer syncDetected
                (fromCharCode (parseInt2 [b7; b6; b5; b4; b3; b2; b1; b0])))
      as [[b s] packet].
    rewrite IH by (simpl in Hlen; lia).
    replace (8 * List.length (parseInt2 [b7; b6; b5; b4; b3; b2; b1; b0]
                                :: charCodes rest))%nat
      with (8 + 8 * List.length (charCodes rest))%nat by (simpl; lia).
    reflexivity.
Qed.

Lemma framedTurn_delivered (codes : list N) :
  forall acc,
    Forall (fun p => deliverable p = true) (snd acc) ->
    Forall (fun p => deliverable p = true)
           (snd (fold_left framedTurn codes acc)).
Proof.
  induction codes as [|c codes IH]; intros acc Hacc; [exact Hacc|].
  simpl. apply IH. destruct acc as [[b s] d]. unfold framedTurn.
  destruct (framedStep_cases b s (fromCharCode c))
    as [[Hd ->]|[_ (b' & s' & ->)]]; simpl in *; [|exact Hacc].
  apply Forall_app. split; [exact Hacc|]. now repeat constructor.
Qed.
Lemma framedLoop_handedOver (bits : list bool) (packetBuffer : string)
      (syncDetected : bool) (delivered : list string) :
  Forall handedOver delivered ->
  Forall handedOver
         (snd (framedLoop bits packetBuffer syncDetected delivered)).
Proof.
  intros Hdel.
  rewrite (framedLoop_turns (List.length bits)) by lia.
  pose proof (framedTurn_delivered (charCodes bits)
                (packetBuffer, syncDetected, delivered)) as Hall.
  destruct (fold_left framedTurn (charCodes bits)
                      (packetBuffer, syncDetected, delivered))
    as [[b s] d]. simpl in *.
  eapply Forall_impl; [|apply Hall].
  - intros p. apply deliverable_handedOver.
  - eapply Forall_impl; [|exact Hdel].
    intros p. apply deliverable_handedOver.
Qed.

Lemma processReceivedBits_handedOver (st : demodulationState)
      (bits : list (option bool)) :
  Forall handedOver (snd (processReceivedBits st bits)).
Proof.
  unfold processReceivedBits.
  destruct (negb (syncDetected st)).
  - destruct (indexOf syncPattern (appendBits (bitStream st) bits));
      [constructor|].
    destruct (1000 <? _)%nat; constructor.
  - apply framedLoop_handedOver. constructor.
Qed.
End FramingFacts.

Local Open Scope string_scope.

(** C5 does not hold of the code: while the bits of the packet
    [DATA:0:01000001] arrive, the receiver hands over [DATA:0:0100], the
    tag and a record cut short, as soon as the buffer holds 11 characters. *)
Lemma truncated_record_is_delivered :
  ~ neverDeliversTruncated dataPacket.
Proof.
  unfold neverDeliversTruncated. intros H.
  apply (H "DATA:0:0100").
  - vm_compute. now left.
  - unfold truncatedRecord. repeat split; try (vm_compute; reflexivity).
    discriminate.
Qed.

(** C5, the defect in full: the test of the framing loop is passed
    exactly when the buffer, with the character just read, holds a NUL, or
    is longer than 10 and holds one of [META:], [DATA:], [END:], where C5
    requires a complete record after the tag; the buffer is then handed
    over and cleared and the Framed state is left.  Every packet
    [processReceivedBits] hands over passed this test and no other. *)
Theorem framed_delivery_iff_nul_or_tag
        (packetBuffer : string) (syncDetected : bool) (char : ascii) :
  let buffer := packetBuffer ++ String char "" in
  ((exists packet,
       snd (framedStep packetBuffer syncDetected char) = Some packet)
   <-> handedOver buffer)
  /\ (handedOver buffer ->
      framedStep packetBuffer syncDetected char = ("", false, Some buffer))
  /\ forall st bits, Forall handedOver (snd (processReceivedBits st bits)).
Proof.
  intros buffer. split; [|split].
  - destruct (framedStep_cases packetBuffer syncDetected char)
      as [[Hd Hstep]|[Hd (b & s & Hstep)]]; fold buffer in Hd, Hstep;
      rewrite Hstep; simpl; rewrite <- deliverable_handedOver, Hd.
    + split; eauto.
    + split; [intros [p Hp]; discriminate|discriminate].
  - intros Hh. apply deliverable_handedOver in Hh.
    destruct (framedStep_cases packetBuffer syncDetected char)
      as [[_ Hstep]|[Hd _]]; [exact Hstep|].
    fold buffer in Hd. congruence.
  - intros st bits. apply processReceivedBits_handedOver.
Qed.

Lemma framed_delivery_iff_nul_or_tag_witness :
  framedStep "DATA:0:010" true "0" = ("", false, Some "DATA:0:0100").
Proof.
  apply (framed_delivery_iff_nul_or_tag "DATA:0:010" true "0"%char).
  right. split; [simpl; lia|].
  right. left. now exists "", "0:0100".
Defined.

Local Close Scope string_scope.

(** ** Chunk store *)

Section StoreFacts.
Local Open Scope string_scope.

Lemma NoDup_snoc {A : Type} (l : list A) (x : A) :
  NoDup l -> ~ In x l -> NoDup (l ++ [x]).
Proof.
  induction 1 as [|y l Hy Hl IH]; intros Hx; simpl.
  - constructor; [intros []|constructor].
  - constructor.
    + intros Hin. apply in_app_or in Hin as [Hin|[<-|[]]].
      * now apply Hy.
      * apply Hx. now left.
    + apply IH. intros Hin. apply Hx. now right.
Qed.

(** [processPacket] only acts on what the packet carries. *)
Lemma processPacket_carries (st : chunkStore) (packet : string) :
  processPacket st packet
  = match carries packet with
    | Some (chunkIdx, encodedData) =>
        match receivedChunks st !! chunkIdx with
        | Some _ => st
        | None =>
            {| receivedChunks := <[chunkIdx := encodedData]> (receivedChunks st);
               setCalls := setCalls st ++ [(chunkIdx, encodedData)] |}
        end
    | None => st
    end.
Proof.
  unfold processPacket, carries.
  set (p := normalise packet).
  destruct (dataFields p) as [[chunkIdx encodedData]|] eqn:E.
  - unfold dataFields in E.
    destruct (String.prefix "DATA:" p) eqn:Hp; [|discriminate].
    apply prefix_occurs in Hp as [after Hp]. rewrite Hp.
    reflexivity.
  - destruct (String.length p <? 5)%nat; [reflexivity|].
    destruct (String.prefix "META:" p); [reflexivity|].
    destruct (String.prefix "DATA:" p); [reflexivity|].
    destruct (String.prefix "END:" p); reflexivity.
Qed.

(** First arrival wins, whatever store the packets meet. *)
Lemma fold_processPacket_lookup (packets : list string) :
  forall st idx,
    receivedChunks (fold_left processPacket packets st) !! idx
    = match receivedChunks st !! idx with
      | Some v => Some v
      | None => firstPayload idx packets
      end.
Proof.
  induction packets as [|p packets IH]; intros st idx; simpl.
  - now destruct (receivedChunks st !! idx).
  - rewrite IH, processPacket_carries.
    destruct (carries p) as [[i v]|]; [|reflexivity].
    destruct (receivedChunks st !! i) eqn:E.
    + destruct (receivedChunks st !! idx) eqn:E'; [reflexivity|].
      destruct (i =? idx)%Z eqn:Hi; [|reflexivity].
      apply Z.eqb_eq in Hi. congruence.
    + simpl. destruct (i =? idx)%Z eqn:Hi.
      * apply Z.eqb_eq in Hi. subst idx.
        now rewrite lookup_insert_eq, E.
      * apply Z.eqb_neq in Hi. now rewrite lookup_insert_ne.
Qed.
End StoreFacts.

Section NumberFacts.
Local Open Scope string_scope.
Variable toNumber : Z -> Z.

(** [processPacketWith] only acts on what the packet carries. *)
Lemma processPacketWith_carries (st : chunkStore) (packet : string) :
  processPacketWith toNumber st packet
  = match carriesWith toNumber packet with
    | Some (chunkIdx, encodedData) =>
        match receivedChunks st !! chunkIdx with
        | Some _ => st
        | None =>
            {| receivedChunks := <[chunkIdx := encodedData]> (receivedChunks st);
               setCalls := setCalls st ++ [(chunkIdx, encodedData)] |}
        end
    | None => st
    end.
Proof.
  unfold processPacketWith, carriesWith, dataFieldsWith.
  set (p := normalise packet).
  destruct (dataFields p) as [[n encodedData]|] eqn:E.
  - unfold dataFields in E.
    destruct (String.prefix "DATA:" p) eqn:Hp; [|discriminate].
    apply prefix_occurs in Hp as [after Hp]. rewrite Hp.
    reflexivity.
  - destruct (String.length p <? 5)%nat; [reflexivity|].
    destruct (String.prefix "META:" p); [reflexivity|].
    destruct (String.prefix "DATA:" p); [reflexivity|].
    destruct (String.prefix "END:" p); reflexivity.
Qed.

Lemma processPacketWith_keeps (st : chunkStore) (packet : string) (key : Z)
      (payload : string) :
  receivedChunks st !! key = Some payload ->
  receivedChunks (processPacketWith toNumber st packet) !! key = Some payload.
Proof.
  intros H. rewrite processPacketWith_carries.
  destruct (carriesWith toNumber packet) as [[k v]|]; [|exact H].
  destruct (receivedChunks st !! k) eqn:E; [exact H|]. simpl.
  rewrite lookup_insert_ne; [exact H|]. intros ->. congruence.
Qed.

Lemma processPacketWith_inv (st : chunkStore) (packet : string) :
  storeInv st -> storeInv (processPacketWith toNumber st packet).
Proof.
  intros [Hnd Hlog]. rewrite processPacketWith_carries.
  destruct (carriesWith toNumber packet) as [[k v]|]; [|now split].
  destruct (receivedChunks st !! k) eqn:E; [now split|].
  split; simpl.
  - rewrite map_app. simpl. apply NoDup_snoc; [exact Hnd|].
    intros Hin. apply in_map_iff in Hin as ([j w] & Hj & Hin).
    simpl in Hj. subst j. apply Hlog in Hin. congruence.
  - intros j w Hin. apply in_app_or in Hin as [Hin|[Heq|[]]].
    + rewrite lookup_insert_ne; [now apply Hlog|].
      intros ->. apply Hlog in Hin. congruence.
    + injection Heq as <- <-. apply lookup_insert_eq.
Qed.

Lemma fold_processPacketWith_inv (packets : list string) :
  forall st,
    storeInv st ->
    storeInv (fold_left (processPacketWith toNumber) packets st).
Proof.
  induction packets as [|p packets IH]; intros st H; [exact H|].
  simpl. apply IH. now apply processPacketWith_inv.
Qed.

(** The first packet to arrive with a key wins, whatever store the
    packets meet. *)
Lemma fold_processPacketWith_lookup (packets : list string) :
  forall st key,
    receivedChunks (fold_left (processPacketWith toNumber) packets st) !! key
    = match receivedChunks st !! key with
      | Some v => Some v
      | None => firstPayloadWith toNumber key packets
      end.
Proof.
  induction packets as [|p packets IH]; intros st key; simpl.
  - now destruct (receivedChunks st !! key).
  - rewrite IH, processPacketWith_carries.
    destruct (carriesWith toNumber p) as [[k v]|]; [|reflexivity].
    destruct (receivedChunks st !! k) eqn:E.
    + destruct (receivedChunks st !! key) eqn:E'; [reflexivity|].
      destruct (k =? key)%Z eqn:Hk; [|reflexivity].
      apply Z.eqb_eq in Hk. congruence.
    + simpl. destruct (k =? key)%Z eqn:Hk.
      * apply Z.eqb_eq in Hk. subst key.
        now rewrite lookup_insert_eq, E.
      * apply Z.eqb_neq in Hk. now rewrite lookup_insert_ne.
Qed.
End NumberFacts.

Section ExactIndices.
Local Open Scope string_scope.

Lemma toDouble_exact (n : Z) :
  (Z.abs n <= 2 ^ 53)%Z -> toDouble n = n.
Proof.
  intros H. unfold toDouble.
  destruct (Z.abs n <? 2 ^ 53)%Z eqn:E; [reflexivity|].
  apply Z.ltb_ge in E.
  assert (Ha : Z.abs n = (2 ^ 53)%Z) by lia.
  rewrite Ha.
  destruct (Z.abs_eq_or_opp n) as [Hn|Hn]; rewrite Hn in Ha.
  - rewrite Ha. reflexivity.
  - assert (n = (- 2 ^ 53)%Z) as -> by lia. reflexivity.
Qed.

(** 2^53 + 1 lies half way between two doubles and goes to the even one. *)
Lemma toDouble_tie : toDouble (2 ^ 53 + 1) = (2 ^ 53)%Z.
Proof. reflexivity. Qed.

(** A packet whose index is its own Number is handled as [processPacket]
    handles it. *)
Lemma processPacketWith_exact (st : chunkStore) (packet : string) :
  indexUpTo2_53 packet ->
  processPacketWith toDouble st packet = processPacket st packet.
Proof.
  unfold indexUpTo2_53. intros H.
  rewrite processPacketWith_carries, processPacket_carries.
  unfold carriesWith, dataFieldsWith. unfold carries in *.
  destruct (dataFields (normalise packet)) as [[n v]|]; [|reflexivity].
  now rewrite toDouble_exact.
Qed.

Lemma receiveWith_exact (packets : list string) :
  Forall indexUpTo2_53 packets ->
  receiveWith toDouble packets = receive packets.
Proof.
  unfold receiveWith, receive. generalize emptyStore.
  induction packets as [|p packets IH]; intros st H; [reflexivity|].
  inversion H as [|? ? Hp Hrest]; subst. simpl.
  rewrite processPacketWith_exact by exact Hp. now apply IH.
Qed.

Lemma firstPayloadWith_exact (packets : list string) (key : Z) :
  Forall indexUpTo2_53 packets ->
  firstPayloadWith toDouble key packets = firstPayload key packets.
Proof.
  induction 1 as [|p packets Hp _ IH]; [reflexivity|].
  cbn [firstPayloadWith firstPayload]. rewrite IH.
  unfold indexUpTo2_53 in Hp. unfold carriesWith, dataFieldsWith.
  unfold carries in *.
  destruct (dataFields (normalise p)) as [[n v]|]; [|reflexivity].
  now rewrite toDouble_exact.
Qed.

(** In [duplicates] the indices [0] and [00] are one chunk, written by
    the first packet; the META packet writes nothing. *)
Lemma duplicates_are_two_chunks :
  setCalls (receiveWith toDouble duplicates) = [(0%Z, "0100"); (1%Z, "0110")]
  /\ receiveWith toDouble duplicates = receive duplicates.
Proof. vm_compute. split; reflexivity. Qed.

(** [beyond2_53] with exact indices would be two chunks; the receiver
    makes one call to [receivedChunks.set] and keeps the payload of the
    packet that came first. *)
Lemma beyond2_53_is_one_chunk :
  setCalls (receiveWith toDouble beyond2_53) = [((2 ^ 53)%Z, "abcd")]
  /\ receivedChunks (receiveWith toDouble beyond2_53) !! (2 ^ 53)%Z
     = Some "abcd"
  /\ receivedChunks (receiveWith toDouble beyond2_53) !! (2 ^ 53 + 1)%Z
     = None.
Proof. vm_compute. repeat split. Qed.
End ExactIndices.

(** C8: whatever packets are delivered, and whatever Number the engine
    gives each index it reads, no key is written to the store twice; the
    store holds, for every key, the payload of the first packet whose index
    is that Number; and a packet that arrives for a key already present
    leaves the stored payload as it is. *)
Theorem chunk_written_once_first_wins (toNumber : Z -> Z)
        (packets : list string) :
  NoDup (map fst (setCalls (receiveWith toNumber packets)))
  /\ (forall key,
         receivedChunks (receiveWith toNumber packets) !! key
         = firstPayloadWith toNumber key packets)
  /\ (forall key payload,
         In (key, payload) (setCalls (receiveWith toNumber packets)) ->
         firstPayloadWith toNumber key packets = Some payload)
  /\ (forall later key payload,
         receivedChunks (receiveWith toNumber packets) !! key = Some payload ->
         receivedChunks
           (processPacketWith toNumber (receiveWith toNumber packets) later)
           !! key
         = Some payload).
Proof.
  assert (Hlook : forall key,
             receivedChunks (receiveWith toNumber packets) !! key
             = firstPayloadWith toNumber key packets).
  { intros key. unfold receiveWith. rewrite fold_processPacketWith_lookup.
    reflexivity. }
  destruct (fold_processPacketWith_inv toNumber packets emptyStore)
    as [Hnd Hlog].
  { split; [constructor|intros i v []]. }
  split; [exact Hnd|]. split; [exact Hlook|]. split.
  - intros key payload Hin. rewrite <- Hlook. now apply Hlog.
  - intros later key payload. apply processPacketWith_keeps.
Qed.

Lemma chunk_written_once_first_wins_witness :
  receivedChunks
    (processPacketWith toDouble (receiveWith toDouble beyond2_53)
                       "DATA:9007199254740993:late"%string)
    !! (2 ^ 53)%Z
  = Some "abcd"%string.
Proof.
  apply (chunk_written_once_first_wins toDouble beyond2_53).
  vm_compute. reflexivity.
Defined.

(** ** Interleaving *)

Section InterleaveFacts.
Variable N : nat.
Hypothesis N_pos : 1 <= N.

Lemma appendBits_heard (stream chord : list bool) :
  appendBits stream (map Some chord) = stream ++ chord.
Proof.
  unfold appendBits. revert stream.
  induction chord as [|b chord IH]; intros stream; simpl.
  - now rewrite app_nil_r.
  - rewrite IH, <- app_assoc. reflexivity.
Qed.

Lemma heard_concat (chords : list (list bool)) :
  heard chords = List.concat chords.
Proof.
  unfold heard.
  assert (H : forall acc,
             fold_left (fun stream chord => appendBits stream (map Some chord))
                       chords acc = acc ++ List.concat chords).
  { induction chords as [|c chords IH]; intros acc; simpl.
    - now rewrite app_nil_r.
    - rewrite IH, appendBits_heard, <- app_assoc. reflexivity. }
  apply H.
Qed.

Lemma share_lt (n c k : nat) :
  c < N -> (k < share N n c <-> k * N + c < n).
Proof.
  intros Hc. unfold share.
  pose proof (Nat.div_mod_eq n N) as Hn.
  pose proof (Nat.mod_upper_bound n N ltac:(lia)) as Hr.
  split_ifs; split; nia.
Qed.

Lemma share_succ (n c : nat) :
  c < N ->
  share N (S n) c = share N n c + (if c =? n mod N then 1 else 0).
Proof.
  intros Hc. unfold share.
  pose proof (Nat.div_mod_eq n N) as Hn.
  pose proof (Nat.mod_upper_bound n N ltac:(lia)) as Hr.
  destruct (Nat.eq_dec (S (n mod N)) N) as [Hwrap|Hno].
  - assert (Hq : S n / N = S (n / N)).
    { symmetry. apply (Nat.div_unique (S n) N (S (n / N)) 0); lia. }
    assert (Hm : S n mod N = 0).
    { symmetry. apply (Nat.mod_unique (S n) N (S (n / N)) 0); lia. }
    rewrite Hq, Hm. split_ifs; lia.
  - assert (Hq : S n / N = n / N).
    { symmetry. apply (Nat.div_unique (S n) N (n / N) (S (n mod N))); lia. }
    assert (Hm : S n mod N = S (n mod N)).
    { symmetry. apply (Nat.mod_unique (S n) N (n / N) (S (n mod N))); lia. }
    rewrite Hq, Hm. split_ifs; lia.
Qed.

Lemma share_own (n : nat) : share N n (n mod N) * N + n mod N = n.
Proof.
  unfold share. rewrite Nat.ltb_irrefl.
  pose proof (Nat.div_mod_eq n N). lia.
Qed.

Lemma streamOf_snoc (s : list bool) (b : bool) (c : nat) :
  c < N ->
  streamOf N (s ++ [b]) c
  = streamOf N s c ++ (if c =? List.length s mod N then [b] else []).
Proof.
  intros Hc. unfold streamOf.
  rewrite length_app. simpl List.length.
  replace (List.length s + 1) with (S (List.length s)) by lia.
  rewrite share_succ by assumption.
  assert (Hold : map (fun k => nth (k * N + c) (s ++ [b]) false)
                     (seq 0 (share N (List.length s) c))
                 = map (fun k => nth (k * N + c) s false)
                       (seq 0 (share N (List.length s) c))).
  { apply map_ext_in. intros k Hk. apply in_seq in Hk.
    apply app_nth1. apply share_lt; [assumption|lia]. }
  destruct (c =? List.length s mod N) eqn:E.
  - apply Nat.eqb_eq in E. rewrite seq_app, map_app, Hold. simpl.
    f_equal. f_equal. subst c. rewrite share_own.
    rewrite app_nth2 by lia. now rewrite Nat.sub_diag.
  - now rewrite Nat.add_0_r, Hold, app_nil_r.
Qed.

Lemma distribute_snoc (s : list bool) (b : bool) :
  forall i streams,
    distribute N i (s ++ [b]) streams
    = alter (fun t => t ++ [b]) ((i + List.length s) mod N)
            (distribute N i s streams).
Proof.
  induction s as [|a s IH]; intros i streams; simpl.
  - now rewrite Nat.add_0_r.
  - rewrite IH. now replace (S i + List.length s) with (i + S (List.length s)) by lia.
Qed.

Lemma nth_map_seq {A : Type} (h : nat -> A) (d : A) (n c : nat) :
  c < n -> nth c (map h (seq 0 n)) d = h c.
Proof.
  intros Hc. rewrite (nth_indep _ d (h 0)) by now rewrite length_map, length_seq.
  rewrite map_nth. now rewrite seq_nth.
Qed.

(** The streams after the distribution loop. *)
Lemma distribute_streams (s : list bool) :
  distribute N 0 s (repeat [] N) = map (streamOf N s) (seq 0 N).
Proof.
  induction s as [|b s IH] using rev_ind.
  - simpl. apply (nth_ext _ _ [] []).
    + now rewrite repeat_length, length_map, length_seq.
    + intros c Hc. rewrite repeat_length in Hc.
      rewrite nth_map_seq by assumption. rewrite nth_repeat.
      unfold streamOf, share. simpl.
      rewrite Nat.Div0.div_0_l, Nat.Div0.mod_0_l. reflexivity.
  - rewrite distribute_snoc, IH. simpl.
    pose proof (Nat.mod_upper_bound (List.length s) N ltac:(lia)) as Hr.
    apply (nth_ext _ _ [] []).
    + now rewrite length_alter, !length_map.
    + intros c Hc. rewrite length_alter, length_map, length_seq in Hc.
      rewrite (nth_map_seq _ _ _ _ Hc), streamOf_snoc by assumption.
      assert (Hlk : forall x, x < N ->
                 map (streamOf N s) (seq 0 N) !! x = Some (streamOf N s x)).
      { intros x Hx.
        destruct (nth_lookup_or_length (map (streamOf N s) (seq 0 N)) x [])
          as [H|H].
        - rewrite H. f_equal. now apply nth_map_seq.
        - rewrite length_map, length_seq in H. lia. }
      rewrite nth_lookup, list_lookup_alter.
      destruct (decide (List.length s mod N = c)) as [<-|Hne].
      * rewrite Hlk by assumption. simpl. now rewrite Nat.eqb_refl.
      * rewrite Hlk by assumption. simpl.
        destruct (c =? List.length s mod N) eqn:E;
          [apply Nat.eqb_eq in E; lia|].
        now rewrite app_nil_r.
Qed.

Lemma streamOf_length (s : list bool) (c : nat) :
  List.length (streamOf N s c) = share N (List.length s) c.
Proof. unfold streamOf. now rewrite length_map, length_seq. Qed.

Lemma share_le_first (n c : nat) : share N n c <= share N n 0.
Proof.
  unfold share. split_ifs; lia.
Qed.

Lemma maxLength_streams (s : list bool) :
  maxLength (map (streamOf N s) (seq 0 N)) = share N (List.length s) 0.
Proof.
  unfold maxLength. rewrite map_map.
  assert (Hle : forall l,
             fold_right Nat.max 0
               (map (fun c => List.length (streamOf N s c)) l)
             <= share N (List.length s) 0).
  { induction l as [|c l IH]; simpl; [lia|].
    rewrite streamOf_length.
    pose proof (share_le_first (List.length s) c). lia. }
  assert (Hge : forall l c,
             In c l ->
             List.length (streamOf N s c)
             <= fold_right Nat.max 0
                  (map (fun c => List.length (streamOf N s c)) l)).
  { induction l as [|x l IH]; intros c Hc; simpl; [destruct Hc|].
    destruct Hc as [->|Hc]; [lia|]. specialize (IH c Hc). lia. }
  specialize (Hle (seq 0 N)).
  specialize (Hge (seq 0 N) 0 ltac:(apply in_seq; lia)).
  rewrite streamOf_length in Hge. lia.
Qed.

Lemma padded_nth (s : list bool) (c k : nat) :
  c < N ->
  nth k (padStream (share N (List.length s) 0) (streamOf N s c)) false
  = nth (k * N + c) s false.
Proof.
  intros Hc. unfold padStream. rewrite streamOf_length.
  destruct (Nat.lt_ge_cases k (share N (List.length s) c)) as [Hk|Hk].
  - rewrite app_nth1 by now rewrite streamOf_length.
    unfold streamOf. now rewrite nth_map_seq.
  - rewrite app_nth2 by now rewrite streamOf_length.
    rewrite nth_repeat.
    symmetry. apply nth_overflow.
    destruct (Nat.lt_ge_cases (k * N + c) (List.length s)) as [Hlt|]; [|lia].
    apply share_lt in Hlt; [lia|assumption].
Qed.

Lemma map_seq_from {A : Type} (g : nat -> A) (a n : nat) :
  map g (seq a n) = map (fun c => g (a + c)) (seq 0 n).
Proof.
  induction n as [|n IH]; [reflexivity|].
  now rewrite !seq_S, !map_app, IH.
Qed.

Lemma concat_slots {A : Type} (g : nat -> A) (M : nat) :
  List.concat (map (fun k => map (fun c => g (k * N + c)) (seq 0 N)) (seq 0 M))
  = map g (seq 0 (M * N)).
Proof.
  induction M as [|M IH]; [reflexivity|].
  rewrite seq_S, map_app, concat_app, IH. simpl.
  rewrite app_nil_r, (Nat.add_comm N), seq_app, map_app. f_equal.
  simpl. now rewrite (map_seq_from g (M * N) N).
Qed.

Lemma map_nth_padded (s : list bool) (p : nat) :
  map (fun j => nth j s false) (seq 0 (List.length s + p))
  = s ++ repeat false p.
Proof.
  apply (nth_ext _ _ false false).
  - rewrite length_map, length_seq, length_app, repeat_length. reflexivity.
  - intros j Hj. rewrite length_map, length_seq in Hj.
    rewrite nth_map_seq by assumption.
    destruct (Nat.lt_ge_cases j (List.length s)) as [Hlt|Hge].
    + now rewrite app_nth1.
    + rewrite app_nth2, nth_repeat by assumption. now apply nth_overflow.
Qed.

(** The chords, read in order, spell the input and then zeros. *)
Lemma transmit_heard (s : list bool) :
  heard (transmitBinaryFSK N s)
  = s ++ repeat false (share N (List.length s) 0 * N - List.length s).
Proof.
  rewrite heard_concat. unfold transmitBinaryFSK.
  rewrite distribute_streams, maxLength_streams.
  set (M := share N (List.length s) 0).
  assert (Hchord : forall k,
             chordBits N (map (padStream M) (map (streamOf N s) (seq 0 N))) k
             = map (fun c => nth (k * N + c) s false) (seq 0 N)).
  { intros k. unfold chordBits. apply map_ext_in. intros c Hc.
    apply in_seq in Hc. rewrite map_map.
    rewrite nth_map_seq by lia. apply padded_nth. lia. }
  rewrite (map_ext _ _ Hchord).
  rewrite (concat_slots (fun j => nth j s false)).
  assert (Hlen : List.length s <= M * N).
  { destruct (Nat.le_gt_cases (List.length s) (M * N)) as [|Hgt]; [assumption|].
    assert (Hlt : M * N + 0 < List.length s) by lia.
    apply share_lt in Hlt; [|lia]. unfold M in Hlt. lia. }
  replace (M * N) with (List.length s + (M * N - List.length s)) at 1 by lia.
  apply map_nth_padded.
Qed.

Lemma padding_bound (n : nat) : share N n 0 * N - n <= N - 1.
Proof.
  unfold share.
  pose proof (Nat.div_mod_eq n N) as Hn.
  pose proof (Nat.mod_upper_bound n N ltac:(lia)) as Hr.
  split_ifs; nia.
Qed.
End InterleaveFacts.

(** C6: for every number of channels [N >= 1] and every bit string [s],
    dealing the bits of [s] to [N] streams by [i mod N], padding the
    shorter streams with 0, and reading the streams back chord by chord
    in ascending channel order yields [s] followed by at most [N - 1]
    zero bits. *)
Theorem interleave_then_read_back (N : nat) (s : list bool) :
  1 <= N ->
  exists pad,
    pad <= N - 1
    /\ heard (transmitBinaryFSK N s) = s ++ repeat false pad.
Proof.
  intros HN. exists (share N (List.length s) 0 * N - List.length s).
  split; [now apply padding_bound|now apply transmit_heard].
Qed.

Lemma interleave_then_read_back_witness :
  exists pad,
    pad <= 4 - 1
    /\ heard (transmitBinaryFSK 4 [true; false; true; true; false; false;
                                   true; false; true])
       = [true; false; true; true; false; false; true; false; true]
           ++ repeat false pad.
Proof.
  apply (interleave_then_read_back 4). lia.
Defined.

(** ** Binary payloads *)

Section BinaryFacts.
Import JS.
Local Open Scope string_scope.

Lemma append_String (c : ascii) (s t : string) :
  String c s ++ t = String c (s ++ t).
Proof. reflexivity. Qed.

Lemma append_nil_l (t : string) : "" ++ t = t.
Proof. reflexivity. Qed.

Lemma append_nil_r (s : string) : s ++ "" = s.
Proof.
  induction s as [|c s IH]; [reflexivity|]. now rewrite append_String, IH.
Qed.

Lemma append_assoc (s t u : string) : (s ++ t) ++ u = s ++ (t ++ u).
Proof.
  induction s as [|c s IH]; [reflexivity|]. now rewrite !append_String, IH.
Qed.

Lemma toUint8_range (v : option Z) : isByte (toUint8 v).
Proof.
  unfold isByte. destruct v as [n|]; simpl; [|lia].
  pose proof (Z.mod_pos_bound n 256 ltac:(lia)). lia.
Qed.

(** Eight characters are consumed per byte, whatever they are. *)
Lemma decodeBinaryToData_shape :
  forall n binary, (String.length binary <= n)%nat ->
    List.length (decodeBinaryToData binary) = (String.length binary / 8)%nat
    /\ Forall isByte (decodeBinaryToData binary).
Proof.
  induction n as [|n IH]; intros binary Hlen.
  - destruct binary; [split; [reflexivity|constructor]|simpl in Hlen; lia].
  - destruct binary as [|c0 [|c1 [|c2 [|c3 [|c4 [|c5 [|c6 [|c7 rest]]]]]]]];
      try (split; [reflexivity|constructor]).
    cbn [decodeBinaryToData String.length List.length].
    destruct (IH rest) as [IHlen IHbytes]; [simpl in Hlen; lia|].
    split.
    + rewrite IHlen.
      replace (S (S (S (S (S (S (S (S (String.length rest)))))))))
        with (1 * 8 + String.length rest)%nat by lia.
      rewrite Nat.div_add_l by lia. lia.
    + constructor; [apply toUint8_range|exact IHbytes].
Qed.

(** A byte is read back from the eight characters written for it. *)
Lemma decode_byte (b : Z) (rest : string) :
  isByte b ->
  decodeBinaryToData (bitString (charBits (Z.to_N b)) ++ rest)
  = b :: decodeBinaryToData rest.
Proof.
  intros Hb.
  assert (Hall : forallb
            (fun n =>
               match bitString (charBits (N.of_nat n)) with
               | String c0 (String c1 (String c2 (String c3
                   (String c4 (String c5 (String c6 (String c7 ""))))))) =>
                   Z.eqb (toUint8
                            (parseIntRadix 2
                               (String c0 (String c1 (String c2 (String c3
                                  (String c4 (String c5 (String c6
                                     (String c7 "")))))))))) 
                         (Z.of_nat n)
               | _ => false
               end) (seq 0 256) = true)
    by (vm_compute; reflexivity).
  rewrite forallb_forall in Hall.
  unfold isByte in Hb.
  specialize (Hall (Z.to_nat b)).
  replace (N.of_nat (Z.to_nat b)) with (Z.to_N b) in Hall by lia.
  rewrite Z2Nat.id in Hall by lia.
  specialize (Hall ltac:(apply in_seq; lia)).
  destruct (bitString (charBits (Z.to_N b)))
    as [|c0 [|c1 [|c2 [|c3 [|c4 [|c5 [|c6 [|c7 [|x t]]]]]]]]];
    try discriminate Hall.
  apply Z.eqb_eq in Hall.
  rewrite !append_String, append_nil_l.
  cbn [decodeBinaryToData]. now rewrite Hall.
Qed.

Lemma decode_encode_app (data : list Z) (rest : string) :
  Forall isByte data ->
  decodeBinaryToData (encodeDataToBinary data ++ rest)
  = (data ++ decodeBinaryToData rest)%list.
Proof.
  induction 1 as [|b data Hb _ IH]; [reflexivity|].
  cbn [encodeDataToBinary fold_right].
  fold (encodeDataToBinary data).
  rewrite append_assoc, decode_byte by assumption.
  now rewrite IH.
Qed.

Lemma bitString_length (bits : list bool) :
  String.length (bitString bits) = List.length bits.
Proof. induction bits; simpl; congruence. Qed.

Lemma append_length (s t : string) :
  String.length (s ++ t) = (String.length s + String.length t)%nat.
Proof. induction s as [|c s IH]; [reflexivity|]. rewrite append_String. simpl. now rewrite IH. Qed.

Lemma encodeDataToBinary_length (data : list Z) :
  Forall isByte data ->
  String.length (encodeDataToBinary data) = (8 * List.length data)%nat.
Proof.
  induction 1 as [|b data Hb _ IH]; [reflexivity|].
  cbn [encodeDataToBinary fold_right]. fold (encodeDataToBinary data).
  rewrite append_length, bitString_length, IH.
  assert (H8 : List.length (charBits (Z.to_N b)) = 8%nat).
  { apply charBits_eight_iff. unfold isByte in Hb. lia. }
  rewrite H8. simpl List.length. lia.
Qed.
End BinaryFacts.

(** X1: [BinaryEncoder.decodeBinaryToData] inverts
    [BinaryEncoder.encodeDataToBinary] on every byte array, and the
    encoding takes exactly 8 characters per byte. *)
Theorem decodeBinaryToData_inverts_encodeDataToBinary (data : list Z) :
  Forall isByte data ->
  decodeBinaryToData (encodeDataToBinary data) = data
  /\ String.length (encodeDataToBinary data) = (8 * List.length data)%nat.
Proof.
  intros H. split; [|now apply encodeDataToBinary_length].
  pose proof (decode_encode_app data "" H) as E.
  rewrite append_nil_r in E. rewrite E. simpl. apply app_nil_r.
Qed.

Lemma decodeBinaryToData_inverts_encodeDataToBinary_witness :
  decodeBinaryToData (encodeDataToBinary sampleBytes) = sampleBytes
  /\ String.length (encodeDataToBinary sampleBytes)
     = (8 * List.length sampleBytes)%nat.
Proof.
  apply (decodeBinaryToData_inverts_encodeDataToBinary sampleBytes).
  repeat constructor; unfold isByte; lia.
Defined.

(** X2: on any string whatever, [BinaryEncoder.decodeBinaryToData]
    returns one byte for every complete group of 8 characters and drops an
    incomplete last group; every element it returns is a byte. *)
Theorem decodeBinaryToData_one_byte_per_group (binary : string) :
  List.length (decodeBinaryToData binary) = (String.length binary / 8)%nat
  /\ Forall isByte (decodeBinaryToData binary).
Proof. apply (decodeBinaryToData_shape (String.length binary)). lia. Qed.

(** ** Packets of a transfer *)

Section DecimalFacts.
Import JS.
Local Open Scope string_scope.

Lemma allChars_app (p : ascii -> bool) (s t : string) :
  allChars p (s ++ t) = allChars p s && allChars p t.
Proof.
  induction s as [|c s IH]; [reflexivity|].
  rewrite append_String. simpl. now rewrite IH, andb_assoc.
Qed.

Lemma allChars_impl (p q : ascii -> bool) (s : string) :
  (forall c, p c = true -> q c = true) ->
  allChars p s = true -> allChars q s = true.
Proof.
  intros Hpq. induction s as [|c s IH]; simpl; [reflexivity|].
  rewrite !andb_true_iff. intros [Hc Hs]. split; auto.
Qed.

Lemma digit_nat (m : N) :
  (m < 10)%N -> nat_of_ascii (ascii_of_N (48 + m)) = (48 + N.to_nat m)%nat.
Proof.
  intros Hm. unfold nat_of_ascii.
  rewrite N_ascii_embedding by lia. lia.
Qed.

Lemma digit_isDigitChar (m : N) :
  (m < 10)%N -> isDigitChar (ascii_of_N (48 + m)) = true.
Proof.
  intros Hm. unfold isDigitChar. rewrite digit_nat by assumption.
  apply andb_true_iff. split; apply Nat.leb_le; lia.
Qed.

Lemma digit_value (m : N) :
  (m < 10)%N -> digitValue 10 (ascii_of_N (48 + m)) = Some (Z.of_N m).
Proof.
  intros Hm. unfold digitValue. rewrite digit_nat by assumption.
  replace (Z.of_nat (48 + N.to_nat m)) with (48 + Z.of_N m)%Z by lia.
  destruct ((48 <=? 48 + Z.of_N m)%Z && (48 + Z.of_N m <=? 57)%Z) eqn:E.
  - replace (48 + Z.of_N m - 48)%Z with (Z.of_N m) by lia.
    destruct (Z.of_N m <? 10)%Z eqn:E'; [reflexivity|].
    apply Z.ltb_ge in E'. lia.
  - apply andb_false_iff in E as [E|E];
      [apply Z.leb_gt in E|apply Z.leb_gt in E]; lia.
Qed.

Lemma decimalDigits_unfold (fuel : nat) (n : N) (acc : string) :
  decimalDigits fuel n acc
  = match fuel with
    | O => String (ascii_of_N (48 + n mod 10)) acc
    | S fuel' =>
        if (n <? 10)%N then String (ascii_of_N (48 + n mod 10)) acc
        else decimalDigits fuel' (n / 10)
                           (String (ascii_of_N (48 + n mod 10)) acc)
    end.
Proof. destruct fuel; reflexivity. Qed.

(** The digits written are digits, and they spell the number. *)
Lemma decimalDigits_spec :
  forall fuel n acc,
    (n < 2 ^ N.of_nat fuel)%N ->
    exists digits k,
      decimalDigits fuel n acc = digits ++ acc
      /\ allChars isDigitChar digits = true
      /\ digits <> ""
      /\ (0 <= k)%Z
      /\ forall a rest,
           parseDigits 10 (digits ++ rest) a
           = parseDigits 10 rest
               (Some (match a with
                      | Some x => x * 10 ^ k + Z.of_N n
                      | None => Z.of_N n
                      end)%Z).
Proof.
  assert (Hone : forall n acc, (n < 10)%N ->
             exists digits k,
               String (ascii_of_N (48 + n mod 10)) acc = digits ++ acc
               /\ allChars isDigitChar digits = true
               /\ digits <> ""
               /\ (0 <= k)%Z
               /\ forall a rest,
                    parseDigits 10 (digits ++ rest) a
                    = parseDigits 10 rest
                        (Some (match a with
                               | Some x => x * 10 ^ k + Z.of_N n
                               | None => Z.of_N n
                               end)%Z)).
  { intros n acc Hn. rewrite N.mod_small by assumption.
    exists (String (ascii_of_N (48 + n)) ""), 1%Z.
    split; [reflexivity|]. split.
    - simpl. now rewrite digit_isDigitChar.
    - split; [discriminate|]. split; [lia|]. intros a rest.
      rewrite append_String, append_nil_l. cbn [parseDigits].
      rewrite digit_value by assumption.
      destruct a; reflexivity. }
  induction fuel as [|fuel IH]; intros n acc Hn;
    rewrite decimalDigits_unfold.
  - apply Hone. simpl in Hn. lia.
  - destruct (n <? 10)%N eqn:E; [apply N.ltb_lt in E; now apply Hone|].
    apply N.ltb_ge in E.
    assert (Hdiv : (n / 10 < 2 ^ N.of_nat fuel)%N).
    { apply N.Div0.div_lt_upper_bound.
      rewrite Nat2N.inj_succ, N.pow_succ_r' in Hn. lia. }
    destruct (IH (n / 10)%N (String (ascii_of_N (48 + n mod 10)) acc) Hdiv)
      as (digits & k & Heq & Hall & Hne & Hk & Hparse).
    pose proof (N.mod_lt n 10 ltac:(lia)) as Hmod.
    exists (digits ++ String (ascii_of_N (48 + n mod 10)) ""), (k + 1)%Z.
    split; [|split; [|split; [|split]]].
    + rewrite Heq, append_assoc. reflexivity.
    + rewrite allChars_app, Hall. simpl. now rewrite digit_isDigitChar.
    + destruct digits; [contradiction|discriminate].
    + lia.
    + intros a rest. rewrite append_assoc, Hparse.
      rewrite append_String, append_nil_l. cbn [parseDigits].
      rewrite digit_value by assumption.
      do 2 f_equal.
      pose proof (N.div_mod n 10 ltac:(lia)) as Hdm.
      destruct a as [x|].
      * rewrite Z.pow_add_r by lia. change (10 ^ 1)%Z with 10%Z.
        rewrite N2Z.inj_div, N2Z.inj_mod.
        pose proof (Z.div_mod (Z.of_N n) 10 ltac:(lia)). simpl Z.of_N. lia.
      * rewrite N2Z.inj_div, N2Z.inj_mod.
        pose proof (Z.div_mod (Z.of_N n) 10 ltac:(lia)). simpl Z.of_N. lia.
Qed.
End DecimalFacts.

Section PacketFacts.
Import JS.
Local Open Scope string_scope.

Lemma digit_is_payload (c : ascii) :
  isDigitChar c = true -> isPayloadChar c = true.
Proof.
  unfold isDigitChar, isPayloadChar, isWhiteSpace.
  intros H. apply andb_true_iff in H as [Hlo Hhi].
  apply Nat.leb_le in Hlo, Hhi.
  assert (H0 : Ascii.eqb c Ascii.zero = false).
  { apply Ascii.eqb_neq. intros ->.
    change (nat_of_ascii Ascii.zero) with 0%nat in Hlo. lia. }
  assert (H1 : Ascii.eqb c ":"%char = false).
  { apply Ascii.eqb_neq. intros ->.
    change (nat_of_ascii ":"%char) with 58%nat in Hhi. lia. }
  rewrite H0, H1. cbn [negb andb].
  set (n := nat_of_ascii c) in *.
  destruct (n <=? 13)%nat eqn:E1; [apply Nat.leb_le in E1; lia|].
  destruct (n =? 32)%nat eqn:E2; [apply Nat.eqb_eq in E2; lia|].
  destruct (n =? 160)%nat eqn:E3; [apply Nat.eqb_eq in E3; lia|].
  now rewrite andb_false_r.
Qed.

Lemma payload_is_plain (c : ascii) :
  isPayloadChar c = true -> isPlainChar c = true.
Proof.
  unfold isPayloadChar, isPlainChar. rewrite !andb_true_iff. tauto.
Qed.

Lemma bitString_payload (bits : list bool) :
  allChars isPayloadChar (bitString bits) = true.
Proof.
  induction bits as [|[] bits IH]; simpl; [reflexivity| |]; exact IH.
Qed.

Lemma encodeDataToBinary_payload (data : list Z) :
  allChars isPayloadChar (encodeDataToBinary data) = true.
Proof.
  induction data as [|b data IH]; [reflexivity|].
  unfold encodeDataToBinary. simpl fold_right.
  rewrite allChars_app, bitString_payload. exact IH.
Qed.

Lemma removeNul_plain (s : string) :
  allChars isPlainChar s = true -> removeNul s = s.
Proof.
  induction s as [|c s IH]; simpl; [reflexivity|].
  unfold isPlainChar at 1. rewrite !andb_true_iff, !negb_true_iff.
  intros [[H0 _] Hs]. rewrite H0. f_equal. auto.
Qed.

Lemma trimEnd_plain (s : string) :
  allChars isPlainChar s = true -> trimEnd s = s.
Proof.
  induction s as [|c s IH]; simpl; [reflexivity|].
  unfold isPlainChar at 1. rewrite !andb_true_iff, !negb_true_iff.
  intros [[_ Hw] Hs]. rewrite IH by assumption.
  destruct s; [now rewrite Hw|reflexivity].
Qed.

Lemma trimStart_plain (s : string) :
  allChars isPlainChar s = true -> trimStart s = s.
Proof.
  destruct s as [|c s]; simpl; [reflexivity|].
  unfold isPlainChar at 1. rewrite !andb_true_iff, !negb_true_iff.
  intros [[_ Hw] _]. now rewrite Hw.
Qed.

(** A packet without NUL and white space is taken as it is. *)
Lemma normalise_plain (s : string) :
  allChars isPlainChar s = true -> normalise s = s.
Proof.
  intros H. unfold normalise, trim.
  now rewrite removeNul_plain, trimStart_plain, trimEnd_plain.
Qed.

Lemma splitColon_payload (part0 rest : string) :
  allChars isPayloadChar part0 = true ->
  splitColon (part0 ++ ":" ++ rest) = Some (part0, rest).
Proof.
  induction part0 as [|c part0 IH]; intros H.
  - reflexivity.
  - rewrite append_String. simpl in H |- *.
    apply andb_true_iff in H as [Hc Hs].
    unfold isPayloadChar in Hc.
    rewrite !andb_true_iff, !negb_true_iff in Hc.
    destruct Hc as [_ Hc]. rewrite Hc, IH by assumption. reflexivity.
Qed.

Lemma parseInt_digits (digits : string) :
  allChars isDigitChar digits = true ->
  parseInt digits = option_map (Z.mul 1) (parseDigits 10 digits None).
Proof.
  destruct digits as [|c0 digits]; [reflexivity|].
  intros H. simpl in H. apply andb_true_iff in H as [H0 H].
  destruct digits as [|c1 digits].
  - digit_cases c0 H0; reflexivity.
  - simpl in H. apply andb_true_iff in H as [H1 _].
    digit_cases c0 H0; try reflexivity.
    digit_cases c1 H1; reflexivity.
Qed.

Lemma parseInt_decimal (i : nat) :
  allChars isDigitChar (decimal i) = true
  /\ parseInt (decimal i) = Some (Z.of_nat i).
Proof.
  unfold decimal.
  assert (Hfuel : (N.of_nat i < 2 ^ N.of_nat (N.size_nat (N.of_nat i)))%N).
  { destruct (N.of_nat i) as [|p]; [reflexivity|].
    pose proof (proj1 (size_nat_le p (Pos.size_nat p)) (le_n _)) as Hp.
    simpl N.size_nat.
    apply N2Z.inj_lt. rewrite N2Z.inj_pow, nat_N_Z. exact Hp. }
  destruct (decimalDigits_spec _ _ "" Hfuel)
    as (digits & k & Heq & Hall & _ & _ & Hparse).
  rewrite Heq, append_nil_r. split; [exact Hall|].
  rewrite parseInt_digits by exact Hall.
  specialize (Hparse None ""). rewrite append_nil_r in Hparse.
  rewrite Hparse. simpl parseDigits. simpl option_map.
  f_equal. lia.
Qed.

Lemma dataPacketOf_plain (fileData : list Z) (i : nat) :
  allChars isPlainChar (dataPacketOf fileData i) = true.
Proof.
  unfold dataPacketOf. rewrite !allChars_app.
  destruct (parseInt_decimal i) as [Hd _].
  rewrite (allChars_impl isDigitChar isPlainChar (decimal i));
    [|auto using payload_is_plain, digit_is_payload|exact Hd].
  rewrite (allChars_impl isPayloadChar isPlainChar (encodeDataToBinary _));
    [|exact payload_is_plain|apply encodeDataToBinary_payload].
  reflexivity.
Qed.

Lemma prefix_app (a s : string) : String.prefix a (a ++ s) = true.
Proof.
  induction a as [|c a IH]; [now destruct s|].
  rewrite append_String. cbn [String.prefix].
  destruct (ascii_dec c c); [exact IH|congruence].
Qed.

(** What the receiver reads in a DATA packet of the sender. *)
Lemma carries_dataPacketOf (fileData : list Z) (i : nat) :
  carries (dataPacketOf fileData i)
  = Some (Z.of_nat i, encodeDataToBinary (chunkAt fileData i)).
Proof.
  unfold carries. rewrite normalise_plain by apply dataPacketOf_plain.
  unfold dataPacketOf, dataFields.
  rewrite prefix_app.
  change (sliceFrom 5 ("DATA:" ++ ?s)) with s.
  destruct (parseInt_decimal i) as [Hd Hp].
  rewrite splitColon_payload
    by (apply (allChars_impl isDigitChar);
        [exact digit_is_payload|exact Hd]).
  rewrite Hp. reflexivity.
Qed.
End PacketFacts.

Section ChunkFacts.
Lemma chunkCount_covers (fileData : list Z) :
  (List.length fileData <= chunkCount fileData * CHUNK_SIZE)%nat.
Proof.
  unfold chunkCount, CHUNK_SIZE.
  pose proof (Nat.div_mod (List.length fileData + (128 - 1)) 128
                          ltac:(lia)) as H.
  pose proof (Nat.mod_upper_bound (List.length fileData + (128 - 1)) 128
                                  ltac:(lia)).
  lia.
Qed.

Lemma chunkCount_tight (fileData : list Z) (i : nat) :
  (i < chunkCount fileData)%nat <->
  (i * CHUNK_SIZE < List.length fileData)%nat.
Proof.
  unfold chunkCount, CHUNK_SIZE.
  pose proof (Nat.div_mod (List.length fileData + (128 - 1)) 128
                          ltac:(lia)) as H.
  pose proof (Nat.mod_upper_bound (List.length fileData + (128 - 1)) 128
                                  ltac:(lia)).
  split; intros Hi; nia.
Qed.

Lemma chunkAt_length (fileData : list Z) (i : nat) :
  List.length (chunkAt fileData i)
  = Nat.min CHUNK_SIZE (List.length fileData - i * CHUNK_SIZE).
Proof. unfold chunkAt. now rewrite length_firstn, length_skipn. Qed.

Lemma chunks_rebuild (n : nat) :
  forall fileData : list Z,
    (List.length fileData <= n * CHUNK_SIZE)%nat ->
    flat_map (chunkAt fileData) (seq 0 n) = fileData.
Proof.
  induction n as [|n IH]; intros fileData Hlen.
  - destruct fileData; [reflexivity|simpl in Hlen; lia].
  - cbn [seq flat_map]. rewrite <- seq_shift, flat_map_concat_map, map_map,
      <- flat_map_concat_map.
    rewrite (flat_map_ext _ (chunkAt (skipn CHUNK_SIZE fileData))).
    + rewrite IH.
      * unfold chunkAt. rewrite Nat.mul_0_l. cbn [skipn].
        apply firstn_skipn.
      * rewrite length_skipn. lia.
    + intros i. unfold chunkAt. rewrite skipn_skipn. do 2 f_equal. lia.
Qed.

Lemma chunkAt_bytes (fileData : list Z) (i : nat) :
  Forall isByte fileData -> Forall isByte (chunkAt fileData i).
Proof.
  intros H. unfold chunkAt. now apply Forall_take, Forall_drop.
Qed.
End ChunkFacts.

(** X3: the chunks the sender cuts are a partition of the bytes it
    sends: concatenated in index order they give the bytes back, every
    chunk has between 1 and 128 bytes and all but the last have 128;
    there are no chunks exactly when there are no bytes. *)
Theorem chunks_partition_fileData (fileData : list Z) :
  flat_map (chunkAt fileData) (seq 0 (chunkCount fileData)) = fileData
  /\ (forall i, (i < chunkCount fileData)%nat ->
        (1 <= List.length (chunkAt fileData i) <= CHUNK_SIZE)%nat)
  /\ (forall i, (S i < chunkCount fileData)%nat ->
        List.length (chunkAt fileData i) = CHUNK_SIZE)
  /\ (chunkCount fileData = 0%nat <-> fileData = []).
Proof.
  split; [|split; [|split]].
  - apply chunks_rebuild, chunkCount_covers.
  - intros i Hi. apply chunkCount_tight in Hi.
    rewrite chunkAt_length. unfold CHUNK_SIZE in *. lia.
  - intros i Hi. apply chunkCount_tight in Hi.
    rewrite chunkAt_length. unfold CHUNK_SIZE in *. lia.
  - pose proof (chunkCount_tight fileData 0) as H0.
    split.
    + intros Hc. destruct fileData; [reflexivity|].
      simpl in H0. lia.
    + intros ->. reflexivity.
Qed.

Section TransportFacts.
Import JS.
Local Open Scope string_scope.

Lemma normalise_keeps_head (c : ascii) (s : string) :
  isPlainChar c = true -> exists t, normalise (String c s) = String c t.
Proof.
  unfold isPlainChar. rewrite andb_true_iff, !negb_true_iff.
  intros [H0 Hw]. unfold normalise, trim. cbn [removeNul].
  rewrite H0. cbn [trimStart]. rewrite Hw. cbn [trimEnd].
  destruct (trimEnd (removeNul s)) as [|d t].
  - rewrite Hw. now exists "".
  - now exists (String d t).
Qed.

Lemma carries_META (metaJson : string) :
  carries ("META:" ++ metaJson) = None.
Proof.
  unfold carries.
  destruct (normalise_keeps_head "M" ("ETA:" ++ metaJson) eq_refl)
    as [t Ht].
  change ("META:" ++ metaJson) with (String "M" ("ETA:" ++ metaJson)).
  rewrite Ht. unfold dataFields. cbn [String.prefix].
  destruct (ascii_dec "D" "M"); [discriminate|reflexivity].
Qed.

Lemma carries_END : carries "END:COMPLETE" = None.
Proof. reflexivity. Qed.

Lemma dataPacketOf_inj (fileData : list Z) (i j : nat) :
  dataPacketOf fileData i = dataPacketOf fileData j -> i = j.
Proof.
  intros H. apply (f_equal carries) in H.
  rewrite !carries_dataPacketOf in H. injection H as H _. lia.
Qed.

(** Among intact packets, the first payload found for an index is the
    one the sender made for it. *)
Lemma firstPayload_intact (fileData : list Z) (packets : list string)
      (i : nat) :
  onlyIntact fileData packets ->
  firstPayload (Z.of_nat i) packets
  = if existsb (String.eqb (dataPacketOf fileData i)) packets
    then Some (encodeDataToBinary (chunkAt fileData i))
    else None.
Proof.
  induction packets as [|p packets IH]; intros Hok; [reflexivity|].
  assert (Hrest : onlyIntact fileData packets).
  { intros q Hq. apply Hok. now right. }
  specialize (IH Hrest). cbn [firstPayload existsb].
  destruct (Hok p (or_introl eq_refl)) as [Hnone|(j & _ & ->)].
  - rewrite Hnone.
    destruct (String.eqb (dataPacketOf fileData i) p) eqn:E; [|exact IH].
    apply String.eqb_eq in E. subst p.
    rewrite carries_dataPacketOf in Hnone. discriminate.
  - rewrite carries_dataPacketOf.
    destruct (Z.of_nat j =? Z.of_nat i)%Z eqn:E.
    + apply Z.eqb_eq in E. apply Nat2Z.inj in E. subst j.
      now rewrite String.eqb_refl.
    + apply Z.eqb_neq in E.
      destruct (String.eqb (dataPacketOf fileData i)
                           (dataPacketOf fileData j)) eqn:E';
        [|exact IH].
      apply String.eqb_eq, dataPacketOf_inj in E'. subst j. lia.
Qed.

(** What [reconstructFile] decodes from the store after intact
    packets. *)
Lemma decodeChunks_intact (fileData : list Z) (packets : list string) :
  Forall isByte fileData ->
  onlyIntact fileData packets ->
  decodeChunks (chunkCount fileData) (receivedChunks (receive packets))
  = chunksDelivered fileData packets.
Proof.
  intros Hbytes Hok. unfold decodeChunks, chunksDelivered, receive.
  apply flat_map_ext. intros i.
  rewrite fold_processPacket_lookup. cbn [emptyStore receivedChunks].
  rewrite lookup_empty, (firstPayload_intact fileData) by assumption.
  destruct (existsb _ packets); [|reflexivity].
  pose proof (decode_encode_app (chunkAt fileData i) ""
                (chunkAt_bytes fileData i Hbytes)) as H.
  rewrite append_nil_r in H. rewrite H. cbn [decodeBinaryToData].
  apply app_nil_r.
Qed.

Lemma chunksDelivered_all (fileData : list Z) (packets : list string) :
  allDelivered fileData packets ->
  chunksDelivered fileData packets = fileData.
Proof.
  intros Hall. unfold chunksDelivered.
  transitivity (flat_map (chunkAt fileData) (seq 0 (chunkCount fileData)));
    [|apply chunks_rebuild, chunkCount_covers].
  rewrite !flat_map_concat_map. f_equal.
  apply map_ext_in. intros i Hi. apply in_seq in Hi.
  specialize (Hall i ltac:(lia)).
  destruct (existsb _ packets) eqn:E; [reflexivity|].
  exfalso. apply not_true_iff_false in E. apply E.
  apply existsb_exists. exists (dataPacketOf fileData i).
  split; [exact Hall|apply String.eqb_refl].
Qed.

Lemma transmit_onlyIntact (metaJson : string) (fileData : list Z) :
  onlyIntact fileData (transmitFileWithAck metaJson fileData).
Proof.
  intros p Hp. unfold transmitFileWithAck in Hp.
  apply in_app_or in Hp as [[<-|Hp]|[<-|[<-|[]]]].
  - left. apply carries_META.
  - right. apply in_map_iff in Hp as (i & <- & Hi).
    apply in_seq in Hi. exists i. split; [lia|reflexivity].
  - left. apply carries_END.
  - left. apply carries_END.
Qed.

Lemma transmit_allDelivered (metaJson : string) (fileData : list Z) :
  allDelivered fileData (transmitFileWithAck metaJson fileData).
Proof.
  intros i Hi. unfold transmitFileWithAck.
  apply in_or_app. left. right.
  apply in_map, in_seq. lia.
Qed.
End TransportFacts.

(** ** Output of the compressor *)

Section CompressFacts.
Import JS LZCompressor LZSpec.

Lemma band_0xFF_range (x : Z) : isByte (band x 0xFF).
Proof.
  unfold isByte, band. change (ToInt32 0xFF) with (Z.ones 8).
  rewrite Z.land_ones by lia.
  pose proof (Z.mod_pos_bound (ToInt32 x) (2 ^ 8) ltac:(lia)). lia.
Qed.

Lemma header_bytes (n : Z) : Forall isByte (header n).
Proof. unfold header. repeat constructor; apply band_0xFF_range. Qed.

(** One turn of the compressor writes one byte for one byte read, or
    four bytes for 3 to 18 bytes read, and stays inside the input. *)
Lemma emit_shape (input : list Z) (pos : nat) :
  (pos < List.length input)%nat ->
  let '(bytes, pos') := emit input pos in
  (pos' <= List.length input)%nat
  /\ ((List.length bytes = 1 /\ pos' = pos + 1)
      \/ (List.length bytes = 4 /\ pos + 3 <= pos' <= pos + 18))%nat
  /\ (Forall isByte input -> Forall isByte bytes).
Proof.
  intros Hpos.
  destruct (emit_cases input pos Hpos)
    as [Hlit|(i & L & [Hilo Hihi] & HL & (Hla & Hend & _) & Hmatch)].
  - rewrite Hlit. split; [lia|]. split; [left; split; [reflexivity|lia]|].
    intros Hb. constructor; [|constructor].
    rewrite Forall_forall in Hb. apply Hb, nth_In, Hpos.
  - rewrite Hmatch. unfold lookaheadSize in Hla.
    split; [lia|]. split; [right; split; [reflexivity|lia]|].
    intros _. repeat constructor; try apply band_0xFF_range;
      unfold isByte; lia.
Qed.

Lemma compressLoop_shape (input : list Z) :
  forall fuel pos output,
    (pos <= List.length input)%nat ->
    (List.length input - pos <= fuel)%nat ->
    exists T,
      compressLoop fuel input pos output = Some (output ++ T)
      /\ (3 * List.length T <= 4 * (List.length input - pos))%nat
      /\ (2 * (List.length input - pos) <= 9 * List.length T)%nat
      /\ (Forall isByte input -> Forall isByte T).
Proof.
  induction fuel as [|fuel IH]; intros pos output Hle Hfuel;
    rewrite compressLoop_unfold;
    destruct (List.length input <=? pos)%nat eqn:E;
    try (apply Nat.leb_le in E; exists []; rewrite app_nil_r;
         repeat split; simpl; try lia; constructor);
    apply Nat.leb_gt in E; [lia|].
  pose proof (emit_shape input pos E) as Hshape.
  destruct (emit input pos) as [bytes pos'].
  destruct Hshape as (Hin & Hlen & Hbytes).
  destruct (IH pos' (output ++ bytes)) as (T & Hc & Hup & Hlow & HT);
    [lia|lia|].
  exists (bytes ++ T). rewrite Hc, <- app_assoc.
  split; [reflexivity|]. rewrite length_app.
  split; [lia|]. split; [lia|].
  intros Hb. apply Forall_app. split; auto.
Qed.

Lemma compress_shape (data : list Z) :
  exists T,
    compress data = Some (header (Z.of_nat (List.length data)) ++ T)
    /\ (3 * List.length T <= 4 * List.length data)%nat
    /\ (2 * List.length data <= 9 * List.length T)%nat
    /\ (Forall isByte data -> Forall isByte T).
Proof.
  destruct (compressLoop_shape data (List.length data) 0
              (header (Z.of_nat (List.length data))))
    as (T & Hc & Hup & Hlow & Hb); [lia|lia|].
  exists T. rewrite Nat.sub_0_r in Hup, Hlow. now repeat split.
Qed.

Lemma markerFree_bytes (data : list Z) :
  markerFree data -> Forall isByte data.
Proof.
  unfold markerFree, isByte. apply Forall_impl. intros b Hb. lia.
Qed.

(** As [compressLoop_decodes], with bytes that follow the stream. *)
Lemma compressLoop_decodes_tail (input : list Z) :
  markerFree input ->
  forall fuel pos output,
    (pos <= List.length input)%nat ->
    (List.length input - pos <= fuel)%nat ->
    exists T,
      compressLoop fuel input pos output = Some (output ++ T)
      /\ forall tail,
           decompressLoop (Z.of_nat (List.length input)) (T ++ tail)
                          (map Some (firstn pos input))
           = map Some input.
Proof.
  intros Hfree.
  induction fuel as [|fuel IH]; intros pos output Hle Hfuel;
    rewrite compressLoop_unfold;
    destruct (List.length input <=? pos)%nat eqn:E;
    try (apply Nat.leb_le in E; exists []; rewrite app_nil_r;
         split; [reflexivity|]; intros tail; cbn [app];
         rewrite firstn_all2 by lia;
         apply decompressLoop_stops; rewrite length_map; lia);
    apply Nat.leb_gt in E; [lia|].
  assert (Hsize : (Z.of_nat (List.length (map Some (firstn pos input)))
                   < Z.of_nat (List.length input))%Z)
    by (rewrite prefix_length; lia).
  destruct (emit_cases input pos E)
    as [Hlit|(i & L & [Hilo Hihi] & HL & Hm & Hmatch)].
  - rewrite Hlit.
    destruct (IH (pos + 1)%nat (output ++ [nth pos input 0%Z]))
      as (T & Hc & Hd); [lia|lia|].
    exists (nth pos input 0%Z :: T). split.
    + rewrite Hc, <- app_assoc. reflexivity.
    + intros tail. cbn [app].
      rewrite decompressLoop_literal; [| |exact Hsize].
      * rewrite <- (Hd tail). f_equal.
        replace (pos + 1)%nat with (S pos) by lia.
        now rewrite firstn_snoc_nth, map_app by assumption.
      * unfold markerFree in Hfree. rewrite Forall_forall in Hfree.
        specialize (Hfree (nth pos input 0%Z) (nth_In _ _ E)). lia.
  - rewrite Hmatch.
    pose proof Hm as (_ & Hend & _).
    destruct (IH (pos + L)%nat
                 (output ++ [0xFF%Z;
                             band (sar (Z.of_nat (pos - i)) 8) 0xFF;
                             band (Z.of_nat (pos - i)) 0xFF;
                             Z.of_nat L]))
      as (T & Hc & Hd); [lia|lia|].
    eexists. split.
    + rewrite Hc, <- app_assoc. reflexivity.
    + intros tail. cbn [app].
      rewrite decompressLoop_match by exact Hsize.
      rewrite distance_decoded by (unfold windowSize in *; lia).
      rewrite prefix_length, Nat2Z.id by lia.
      replace (Z.of_nat pos - Z.of_nat (pos - i))%Z with (Z.of_nat i)
        by lia.
      pose proof (copyMatch_prefix input i pos L Hm Hihi L 0 ltac:(lia))
        as Hcopy.
      rewrite Nat.add_0_r in Hcopy. rewrite Hcopy. apply Hd.
Qed.
End CompressFacts.

Section TransferFacts.
Import JS.
Local Open Scope string_scope.

Lemma flat_map_shorter {A B : Type} (f g : A -> list B) (l : list A)
      (a : A) :
  (forall x, List.length (f x) <= List.length (g x))%nat ->
  In a l -> (List.length (f a) < List.length (g a))%nat ->
  (List.length (flat_map f l) < List.length (flat_map g l))%nat.
Proof.
  intros Hle Hin Hlt.
  assert (Hall : forall l', (List.length (flat_map f l')
                             <= List.length (flat_map g l'))%nat).
  { induction l' as [|x l' IH]; simpl; [lia|].
    rewrite !length_app. specialize (Hle x). lia. }
  induction l as [|x l IH]; [destruct Hin|].
  simpl. rewrite !length_app.
  destruct Hin as [->|Hin].
  - specialize (Hall l). lia.
  - specialize (IH Hin). specialize (Hle x). lia.
Qed.
End TransferFacts.

(** X4: what the receiver reads in the sender's packets.  The DATA
    packet built for chunk [i] passes the clean-up unchanged and is read
    as index [i] with the chunk's bit string as payload; DATA packets of
    different chunks differ; the META packet and the END packet carry no
    chunk. *)
Theorem sender_packets_read_back (metaJson : string) (fileData : list Z)
        (i : nat) :
  normalise (dataPacketOf fileData i) = dataPacketOf fileData i
  /\ carries (dataPacketOf fileData i)
     = Some (Z.of_nat i, encodeDataToBinary (chunkAt fileData i))
  /\ (forall j, dataPacketOf fileData i = dataPacketOf fileData j -> i = j)
  /\ carries ("META:" ++ metaJson)%string = None
  /\ carries "END:COMPLETE"%string = None.
Proof.
  split; [apply normalise_plain, dataPacketOf_plain|].
  split; [apply carries_dataPacketOf|].
  split; [intros j; apply dataPacketOf_inj|].
  split; [apply carries_META|apply carries_END].
Qed.

(** X5: when every DATA packet of a transfer reaches the receiver
    unaltered, in any order, any number of times and among any packets
    that are not DATA packets, the bytes [reconstructFile] decodes from the
    store are the bytes the sender cut into chunks. *)
Theorem intact_delivery_rebuilds_fileData (fileData : list Z)
        (packets : list string) :
  Forall isByte fileData ->
  onlyIntact fileData packets ->
  allDelivered fileData packets ->
  decodeChunks (chunkCount fileData) (receivedChunks (receive packets))
  = fileData.
Proof.
  intros Hbytes Hok Hall.
  rewrite decodeChunks_intact by assumption.
  now apply chunksDelivered_all.
Qed.

Lemma intact_delivery_rebuilds_fileData_witness :
  decodeChunks (chunkCount twoChunks) (receivedChunks (receive shuffled))
  = twoChunks.
Proof.
  apply (intact_delivery_rebuilds_fileData twoChunks shuffled).
  - apply Forall_forall. intros b Hb. unfold twoChunks in Hb.
    apply in_map_iff in Hb as (k & <- & _).
    pose proof (Nat.mod_upper_bound k 251 ltac:(lia)).
    unfold isByte. lia.
  - intros p [<-|[<-|[<-|[<-|[]]]]].
    + right. exists 1%nat. split; [vm_compute; lia|reflexivity].
    + left. vm_compute. reflexivity.
    + right. exists 0%nat. split; [vm_compute; lia|reflexivity].
    + right. exists 1%nat. split; [vm_compute; lia|reflexivity].
  - intros [|[|i]] Hi.
    + right. right. left. reflexivity.
    + left. reflexivity.
    + exfalso. vm_compute in Hi. lia.
Defined.

(** X6: a chunk that never arrives is skipped without a gap.  After
    intact packets the bytes decoded are the chunks that arrived, in index
    order, and they are fewer than the bytes sent as soon as one chunk is
    missing: the bytes after the gap move up. *)
Theorem lost_chunk_shortens_the_file (fileData : list Z)
        (packets : list string) (lost : nat) :
  Forall isByte fileData ->
  onlyIntact fileData packets ->
  (lost < chunkCount fileData)%nat ->
  ~ In (dataPacketOf fileData lost) packets ->
  decodeChunks (chunkCount fileData) (receivedChunks (receive packets))
  = chunksDelivered fileData packets
  /\ (List.length (chunksDelivered fileData packets)
      < List.length fileData)%nat.
Proof.
  intros Hbytes Hok Hlost Hnot.
  split; [now apply decodeChunks_intact|].
  rewrite <- (chunks_rebuild (chunkCount fileData) fileData) at 2
    by apply chunkCount_covers.
  unfold chunksDelivered.
  apply (flat_map_shorter _ _ _ lost).
  - intros i. destruct (existsb _ packets); simpl; lia.
  - apply in_seq. lia.
  - destruct (existsb _ packets) eqn:E.
    + exfalso. apply Hnot. apply existsb_exists in E as (p & Hp & Heq).
      apply String.eqb_eq in Heq. now subst p.
    + apply chunkCount_tight in Hlost. rewrite chunkAt_length.
      unfold CHUNK_SIZE in *. cbn [List.length]. lia.
Qed.

Lemma lost_chunk_shortens_the_file_witness :
  decodeChunks (chunkCount twoChunks) (receivedChunks (receive firstLost))
  = chunksDelivered twoChunks firstLost
  /\ (List.length (chunksDelivered twoChunks firstLost)
      < List.length twoChunks)%nat.
Proof.
  apply (lost_chunk_shortens_the_file twoChunks firstLost 0).
  - apply Forall_forall. intros b Hb. unfold twoChunks in Hb.
    apply in_map_iff in Hb as (k & <- & _).
    pose proof (Nat.mod_upper_bound k 251 ltac:(lia)).
    unfold isByte. lia.
  - intros p [<-|[<-|[<-|[]]]].
    + left. vm_compute. reflexivity.
    + right. exists 1%nat. split; [vm_compute; lia|reflexivity].
    + left. vm_compute. reflexivity.
  - vm_compute. lia.
  - intros [H|[H|[H|[]]]]; vm_compute in H; discriminate H.
Defined.

Section SessionFacts.
Import JS LZCompressor LZSpec.

(** The two outcomes of the compression step of [reader.onload]. *)
Lemma planTransfer_cases (file : list Z) :
  (planTransfer file
   = {| fileData := file;
        metadata := {| compressed := false;
                       checksum := calculateChecksum file |};
        chunks := chunkCount file |})
  \/ exists sent,
       compress file = Some sent
       /\ (COMPRESSION_MIN_SIZE < List.length file)%nat
       /\ (List.length sent < List.length file)%nat
       /\ planTransfer file
          = {| fileData := sent;
               metadata := {| compressed := true;
                              checksum := calculateChecksum sent |};
               chunks := chunkCount sent |}.
Proof.
  unfold planTransfer.
  destruct (COMPRESSION_MIN_SIZE <? List.length file)%nat eqn:E;
    [|now left].
  destruct (compress file) as [sent|] eqn:Hc; [|now left].
  destruct (List.length sent <? List.length file)%nat eqn:E'; [|now left].
  right. exists sent. apply Nat.ltb_lt in E, E'. now repeat split.
Qed.

(** The bytes decoded after the sender's packets have all arrived. *)
Lemma decodeChunks_transmit (metaJson : string) (fileData : list Z) :
  Forall isByte fileData ->
  decodeChunks (chunkCount fileData)
               (receivedChunks
                  (receive (transmitFileWithAck metaJson fileData)))
  = fileData.
Proof.
  intros Hbytes.
  rewrite decodeChunks_intact
    by (try assumption; apply transmit_onlyIntact).
  apply chunksDelivered_all, transmit_allDelivered.
Qed.

Lemma integrityStatus_own (bytes : list Z) :
  integrityStatus (calculateChecksum bytes) bytes = Verified.
Proof.
  destruct (integrityStatus (calculateChecksum bytes) bytes) eqn:E;
    [reflexivity|].
  apply integrityStatus_mismatch_iff in E. tauto.
Qed.

Lemma processPacketEND_COMPLETE (fileMetadata : FileMetadata)
      (expectedChunks : nat) (st : chunkStore) :
  processPacketEND fileMetadata expectedChunks st "END:COMPLETE"
  = if (0 <? size (receivedChunks st))%nat
    then Some (reconstructBinary fileMetadata expectedChunks st)
    else None.
Proof. reflexivity. Qed.

(** The store a transfer leaves holds a chunk exactly when a byte was
    sent. *)
Lemma transmit_store_size (metaJson : string) (fileData : list Z) :
  (0 <? size (receivedChunks
                (receive (transmitFileWithAck metaJson fileData))))%nat
  = match fileData with
    | [] => false
    | _ :: _ => true
    end.
Proof.
  destruct fileData as [|b rest].
  - unfold receive, transmitFileWithAck.
    change (chunkCount []) with 0%nat. cbn [seq map app fold_left].
    rewrite (processPacket_carries emptyStore), carries_META.
    rewrite (processPacket_carries emptyStore), carries_END.
    reflexivity.
  - apply Nat.ltb_lt.
    set (packets := transmitFileWithAck metaJson (b :: rest)).
    assert (Hne : receivedChunks (receive packets) <> ∅).
    { intros Hempty.
      assert (H0 : receivedChunks (receive packets) !! Z.of_nat 0 = None)
        by (rewrite Hempty; apply lookup_empty).
      unfold receive in H0. rewrite fold_processPacket_lookup in H0.
      cbn [emptyStore receivedChunks] in H0. rewrite lookup_empty in H0.
      rewrite (firstPayload_intact (b :: rest) packets 0) in H0
        by apply transmit_onlyIntact.
      assert (Hin : In (dataPacketOf (b :: rest) 0) packets).
      { apply transmit_allDelivered, chunkCount_tight.
        cbn [List.length]. lia. }
      destruct (existsb _ packets) eqn:E; [discriminate|].
      apply not_true_iff_false in E. apply E, existsb_exists.
      exists (dataPacketOf (b :: rest) 0).
      split; [exact Hin|apply String.eqb_refl]. }
    apply map_size_non_empty_iff in Hne. lia.
Qed.
End SessionFacts.

(** X7: files of at most 512 bytes are never compressed, and when the
    END packet meets the store that an undisturbed transfer of a file the
    sender does not compress has left, [processPacket] reconstructs the
    file byte for byte and reports it as verified, unless the file is
    empty: then the store is empty too and nothing is reconstructed. *)
Theorem uncompressed_transfer_end_to_end (file : list Z)
        (metaJson : string) :
  Forall isByte file ->
  ((List.length file <= COMPRESSION_MIN_SIZE)%nat ->
   compressed (metadata (planTransfer file)) = false)
  /\ (compressed (metadata (planTransfer file)) = false ->
      processPacketEND
        (metadata (planTransfer file)) (chunks (planTransfer file))
        (receive (transmitFileWithAck metaJson
                                      (fileData (planTransfer file))))
        "END:COMPLETE"
      = match file with
        | [] => None
        | _ :: _ => Some (file, Verified)
        end).
Proof.
  intros Hbytes.
  destruct (planTransfer_cases file) as [Hplan|(sent & _ & Hmin & _ & Hplan)];
    rewrite Hplan; cbn [fileData metadata chunks compressed].
  - split; [reflexivity|]. intros _.
    rewrite processPacketEND_COMPLETE, transmit_store_size.
    destruct file as [|b rest]; [reflexivity|].
    unfold reconstructBinary. rewrite decodeChunks_transmit by assumption.
    unfold reconstructFile. cbn [compressed checksum].
    now rewrite integrityStatus_own.
  - split; [lia|discriminate].
Qed.

Lemma uncompressed_transfer_end_to_end_witness :
  processPacketEND
    (metadata (planTransfer twoChunks)) (chunks (planTransfer twoChunks))
    (receive (transmitFileWithAck "{}" (fileData (planTransfer twoChunks))))
    "END:COMPLETE"
  = Some (twoChunks, Verified)
  /\ processPacketEND
       (metadata (planTransfer [])) (chunks (planTransfer []))
       (receive (transmitFileWithAck "{}" (fileData (planTransfer []))))
       "END:COMPLETE"
     = None.
Proof.
  split.
  - apply (uncompressed_transfer_end_to_end twoChunks "{}").
    + apply Forall_forall. intros b Hb. unfold twoChunks in Hb.
      apply in_map_iff in Hb as (k & <- & _).
      pose proof (Nat.mod_upper_bound k 251 ltac:(lia)).
      unfold isByte. lia.
    + vm_compute. reflexivity.
  - apply (uncompressed_transfer_end_to_end [] "{}").
    + constructor.
    + reflexivity.
Defined.

(** X8: a file the sender compresses comes out of an undisturbed
    transfer byte for byte when it holds no byte 0xFF, but the sum in the
    metadata is the sum of the compressed bytes and the receiver compares it
    with the sum of the decompressed ones: the file is reported as verified
    only if the sum sent is 0 or the two sums happen to agree. *)
Theorem compressed_transfer_end_to_end (file : list Z) (metaJson : string) :
  LZSpec.markerFree file ->
  (Z.of_nat (List.length file) < 2 ^ 31)%Z ->
  compressed (metadata (planTransfer file)) = true ->
  exists sent,
    LZCompressor.compress file = Some sent
    /\ fileData (planTransfer file) = sent
    /\ checksum (metadata (planTransfer file)) = calculateChecksum sent
    /\ reconstructBinary
         (metadata (planTransfer file)) (chunks (planTransfer file))
         (receive (transmitFileWithAck metaJson sent))
       = (file, integrityStatus (calculateChecksum sent) file)
    /\ (integrityStatus (calculateChecksum sent) file = Verified
        <-> calculateChecksum sent = 0%Z
            \/ calculateChecksum sent = calculateChecksum file).
Proof.
  intros Hfree Hlen Hcomp.
  destruct (planTransfer_cases file) as [Hplan|(sent & Hc & _ & _ & Hplan)];
    rewrite Hplan in Hcomp |- *; cbn [fileData metadata chunks compressed]
                                     in Hcomp |- *;
    [discriminate|].
  exists sent. split; [exact Hc|]. split; [reflexivity|].
  split; [reflexivity|]. split.
  - destruct (roundtrip_marker_free file Hfree Hlen) as (c & Hc' & Hd).
    assert (c = sent) by congruence. subst c.
    destruct (compress_shape file) as (T & HT & _ & _ & Hbytes).
    assert (Hsent : Forall isByte sent).
    { assert (sent = (LZCompressor.header (Z.of_nat (List.length file))
                        ++ T)%list)
        by congruence.
      subst sent. apply Forall_app. split; [apply header_bytes|].
      apply Hbytes, markerFree_bytes, Hfree. }
    unfold reconstructBinary. rewrite decodeChunks_transmit by assumption.
    unfold reconstructFile. cbn [compressed checksum]. now rewrite Hd.
  - destruct (integrityStatus (calculateChecksum sent) file) eqn:E.
    + split; [|reflexivity]. intros _.
      destruct (Z.eq_dec (calculateChecksum sent) 0) as [|H0]; [now left|].
      destruct (Z.eq_dec (calculateChecksum sent) (calculateChecksum file))
        as [|H1]; [now right|].
      assert (Hm : integrityStatus (calculateChecksum sent) file
                   = ChecksumMismatch)
        by (apply integrityStatus_mismatch_iff; tauto).
      congruence.
    + apply integrityStatus_mismatch_iff in E.
      split; [discriminate|tauto].
Qed.

Lemma compressed_transfer_end_to_end_witness :
  reconstructBinary
    (metadata (planTransfer sawtooth)) (chunks (planTransfer sawtooth))
    (receive (transmitFileWithAck "{}" (fileData (planTransfer sawtooth))))
  = (sawtooth, ChecksumMismatch).
Proof.
  pose proof (compressed_transfer_end_to_end sawtooth "{}") as H.
  eassert (Hplan : planTransfer sawtooth = _) by (vm_compute; reflexivity).
  rewrite Hplan in H |- *. cbn [metadata compressed checksum chunks fileData]
    in H |- *.
  destruct H as (sent & _ & Hfd & _ & Hrec & _).
  - apply Forall_forall. intros b Hb. unfold sawtooth in Hb.
    apply in_map_iff in Hb as (k & <- & _).
    pose proof (Nat.mod_upper_bound k 19 ltac:(lia)). lia.
  - vm_compute. reflexivity.
  - reflexivity.
  - subst sent. rewrite Hrec.
    match goal with
    | |- (_, ?status) = _ =>
        assert (Hstatus : status = ChecksumMismatch)
          by (vm_compute; reflexivity);
        rewrite Hstatus
    end.
    reflexivity.
Defined.

(** X9: [compress] always returns; what it returns starts with the four
    header bytes of the input length, and the body after them is never more
    than 4/3 of the input (a match of 3 bytes costs 4) and never less than
    2/9 of it (4 bytes stand for at most 18). *)
Theorem compress_output_size (data : list Z) :
  exists body,
    LZCompressor.compress data
    = Some (LZCompressor.header (Z.of_nat (List.length data)) ++ body)
    /\ (3 * List.length body <= 4 * List.length data)%nat
    /\ (2 * List.length data <= 9 * List.length body)%nat.
Proof.
  destruct (compress_shape data) as (T & HT & Hup & Hlow & _).
  now exists T.
Qed.

(** X10: on bytes, every value [compress] pushes is a byte, so that the
    conversion of the result to a [Uint8Array] changes nothing. *)
Theorem compress_output_bytes (data : list Z) :
  Forall isByte data ->
  exists out,
    LZCompressor.compress data = Some out
    /\ Forall isByte out
    /\ map JS.toUint8 (map Some out) = out.
Proof.
  intros Hbytes.
  destruct (compress_shape data) as (T & HT & _ & _ & Hb).
  eexists. split; [exact HT|].
  assert (Hall : Forall isByte
                   (LZCompressor.header (Z.of_nat (List.length data)) ++ T)).
  { apply Forall_app. split; [apply header_bytes|auto]. }
  split; [exact Hall|].
  rewrite map_map. rewrite <- map_id. apply map_ext_in.
  intros b Hb'. rewrite Forall_forall in Hall. specialize (Hall b Hb').
  unfold isByte in Hall. simpl. apply Z.mod_small. lia.
Qed.

Lemma compress_output_bytes_witness :
  exists out,
    LZCompressor.compress LZSpec.markerExample = Some out
    /\ Forall isByte out
    /\ map JS.toUint8 (map Some out) = out.
Proof.
  apply (compress_output_bytes LZSpec.markerExample).
  unfold LZSpec.markerExample, isByte. repeat constructor; lia.
Defined.

(** X11: on a file without the byte 0xFF and below 2 GiB, [decompress]
    gives the file back from what [compress] returned, whatever bytes follow
    the compressed stream: the decoder stops at the length the header
    declares. *)
Theorem decompress_inverts_compress_before_any_tail (data : list Z) :
  LZSpec.markerFree data ->
  (Z.of_nat (List.length data) < 2 ^ 31)%Z ->
  exists compressed,
    LZCompressor.compress data = Some compressed
    /\ forall tail,
         LZCompressor.decompress (compressed ++ tail) = JS.Normal data.
Proof.
  intros Hfree Hlen.
  destruct (compressLoop_decodes_tail data Hfree (List.length data) 0
              (LZCompressor.header (Z.of_nat (List.length data))))
    as (T & Hc & Hd); [lia|lia|].
  exists (LZCompressor.header (Z.of_nat (List.length data)) ++ T).
  split; [exact Hc|]. intros tail.
  unfold LZCompressor.decompress, LZCompressor.produced.
  rewrite <- app_assoc, header_decoded by lia.
  change (skipn 4 (LZCompressor.header (Z.of_nat (List.length data))
                     ++ T ++ tail))
    with (T ++ tail).
  specialize (Hd tail). simpl firstn in Hd. simpl map in Hd at 1.
  rewrite Hd. unfold JS.slice0.
  destruct (Z.of_nat (List.length data) <? 0)%Z eqn:E;
    [apply Z.ltb_lt in E; lia|].
  rewrite firstn_all2 by (rewrite length_map; lia).
  f_equal. rewrite map_map.
  rewrite <- (map_id data) at 2. apply map_ext_in.
  intros b Hb. unfold LZSpec.markerFree in Hfree.
  rewrite Forall_forall in Hfree.
  specialize (Hfree b Hb). simpl. apply Z.mod_small. lia.
Qed.

Lemma decompress_inverts_compress_before_any_tail_witness :
  exists compressed,
    LZCompressor.compress LZSpec.tieExample = Some compressed
    /\ forall tail,
         LZCompressor.decompress (compressed ++ tail)
         = JS.Normal LZSpec.tieExample.
Proof.
  apply (decompress_inverts_compress_before_any_tail LZSpec.tieExample).
  - unfold LZSpec.markerFree, LZSpec.tieExample. repeat constructor; lia.
  - vm_compute. reflexivity.
Defined.

(** ** Integrity sums: what they tell apart *)

Section ChecksumFacts.
Import JS.
Local Open Scope Z_scope.

Lemma calculateChecksum_sum (data : list Z) :
  calculateChecksum data = fold_right Z.add 0 data mod 2 ^ 16.
Proof.
  unfold calculateChecksum. rewrite checksum_fold by lia. reflexivity.
Qed.

Lemma sum_app (a b : list Z) :
  fold_right Z.add 0 (a ++ b)
  = fold_right Z.add 0 a + fold_right Z.add 0 b.
Proof. induction a as [|x a IH]; simpl; [reflexivity|]. lia. Qed.

Lemma sum_Permutation (l l' : list Z) :
  Permutation l l' -> fold_right Z.add 0 l = fold_right Z.add 0 l'.
Proof. induction 1; simpl; lia. Qed.

Lemma lxor_range (n a b : Z) :
  0 < n -> 0 <= a < 2 ^ n -> 0 <= b < 2 ^ n -> 0 <= Z.lxor a b < 2 ^ n.
Proof.
  intros Hn Ha Hb.
  assert (H0 : 0 <= Z.lxor a b) by (apply Z.lxor_nonneg; lia).
  split; [exact H0|].
  destruct (Z.eq_dec (Z.lxor a b) 0) as [->|Hne]; [lia|].
  apply Z.log2_lt_pow2; [lia|].
  pose proof (Z.log2_lxor a b ltac:(lia) ltac:(lia)) as Hlog.
  assert (Hla : Z.log2 a < n).
  { destruct (Z.eq_dec a 0) as [->|]; [simpl; lia|].
    apply Z.log2_lt_pow2; lia. }
  assert (Hlb : Z.log2 b < n).
  { destruct (Z.eq_dec b 0) as [->|]; [simpl; lia|].
    apply Z.log2_lt_pow2; lia. }
  lia.
Qed.

Lemma bxor_small (a b : Z) :
  0 <= a < 2 ^ 16 -> 0 <= b < 2 ^ 16 -> bxor a b = Z.lxor a b.
Proof.
  intros Ha Hb. unfold bxor. now rewrite !ToInt32_small by lia.
Qed.

(** One turn of the inner loop on a register of 16 bits. *)
Lemma crc16_shift_small (crc : Z) :
  isCrc crc ->
  crc16_shift crc
  = if Z.odd crc then Z.lxor (crc / 2) 0xA001 else crc / 2.
Proof.
  unfold isCrc. intros Hc.
  assert (Hhalf : 0 <= crc / 2 < 2 ^ 15).
  { split; [apply Z.div_pos; lia|apply Z.div_lt_upper_bound; lia]. }
  unfold crc16_shift, truthy, band, sar.
  rewrite (ToInt32_small crc) by lia.
  change (ToInt32 0x0001) with (Z.ones 1). change (1 mod 32) with 1.
  rewrite Z.land_ones, Z.shiftr_div_pow2 by lia.
  change (2 ^ 1) with 2. rewrite Zmod_odd.
  destruct (Z.odd crc); cbn [Z.eqb negb]; [|reflexivity].
  apply bxor_small; lia.
Qed.

(** Every turn of the inner loop keeps the register in 16 bits and can
    be undone. *)
Lemma crc16_shift_undone (crc : Z) :
  isCrc crc ->
  isCrc (crc16_shift crc) /\ crc16_unshift (crc16_shift crc) = crc.
Proof.
  intros Hc. rewrite crc16_shift_small by exact Hc.
  unfold isCrc in *.
  assert (Hhalf : 0 <= crc / 2 < 2 ^ 15).
  { split; [apply Z.div_pos; lia|apply Z.div_lt_upper_bound; lia]. }
  pose proof (Z.div_mod crc 2 ltac:(lia)) as Hdm.
  rewrite Zmod_odd in Hdm.
  destruct (Z.odd crc).
  - pose proof (lxor_range 16 (crc / 2) 0xA001 ltac:(lia) ltac:(lia)
                           ltac:(lia)) as Hr.
    assert (Hbit : Z.testbit (Z.lxor (crc / 2) 0xA001) 15 = true).
    { rewrite Z.lxor_spec.
      rewrite (Z.bits_above_log2 (crc / 2) 15); [reflexivity|lia|].
      destruct (Z.eq_dec (crc / 2) 0) as [->|Hne]; [simpl; lia|].
      apply Z.log2_lt_pow2; lia. }
    assert (Hhigh : 2 ^ 15 <= Z.lxor (crc / 2) 0xA001).
    { destruct (Z.le_gt_cases (2 ^ 15) (Z.lxor (crc / 2) 0xA001))
        as [|Hlow]; [assumption|exfalso].
      rewrite Z.bits_above_log2 in Hbit; [discriminate|lia|].
      destruct (Z.eq_dec (Z.lxor (crc / 2) 0xA001) 0) as [E|Hne];
        [rewrite E; simpl; lia|].
      apply Z.log2_lt_pow2; lia. }
    split; [exact Hr|].
    unfold crc16_unshift.
    replace (2 ^ 15 <=? Z.lxor (crc / 2) 0xA001) with true
      by (symmetry; apply Z.leb_le; exact Hhigh).
    rewrite Z.lxor_assoc, Z.lxor_nilpotent, Z.lxor_0_r. lia.
  - split; [lia|].
    unfold crc16_unshift.
    replace (2 ^ 15 <=? crc / 2) with false
      by (symmetry; apply Z.leb_gt; lia).
    lia.
Qed.

Lemma iter_shift_crc (n : nat) (crc : Z) :
  isCrc crc -> isCrc (Nat.iter n crc16_shift crc).
Proof.
  intros H. induction n as [|n IH]; [exact H|].
  simpl. now apply crc16_shift_undone.
Qed.

Lemma iter_shift_inj (n : nat) (c1 c2 : Z) :
  isCrc c1 -> isCrc c2 ->
  Nat.iter n crc16_shift c1 = Nat.iter n crc16_shift c2 -> c1 = c2.
Proof.
  intros H1 H2. induction n as [|n IH]; [auto|].
  simpl. intros Heq. apply IH.
  rewrite <- (proj2 (crc16_shift_undone _ (iter_shift_crc n c1 H1))),
    <- (proj2 (crc16_shift_undone _ (iter_shift_crc n c2 H2))).
  now rewrite Heq.
Qed.

Lemma bxor_byte_crc (crc b : Z) :
  isCrc crc -> isByte b -> isCrc (bxor crc b).
Proof.
  unfold isCrc, isByte. intros Hc Hb.
  rewrite bxor_small by lia. apply lxor_range; lia.
Qed.

Lemma crc16_byte_unfold (crc b : Z) :
  crc16_byte crc b = Nat.iter 8 crc16_shift (bxor crc b).
Proof. reflexivity. Qed.

Lemma crc16_byte_crc (crc b : Z) :
  isCrc crc -> isByte b -> isCrc (crc16_byte crc b).
Proof.
  intros Hc Hb. rewrite crc16_byte_unfold.
  apply iter_shift_crc, bxor_byte_crc; assumption.
Qed.

(** The step for one byte is one-to-one in the register and in the
    byte. *)
Lemma crc16_byte_inj (c1 c2 b1 b2 : Z) :
  isCrc c1 -> isCrc c2 -> isByte b1 -> isByte b2 ->
  crc16_byte c1 b1 = crc16_byte c2 b2 -> Z.lxor c1 b1 = Z.lxor c2 b2.
Proof.
  intros Hc1 Hc2 Hb1 Hb2 Heq. rewrite !crc16_byte_unfold in Heq.
  apply (iter_shift_inj 8 (bxor c1 b1) (bxor c2 b2)) in Heq;
    try (apply bxor_byte_crc; assumption).
  unfold isCrc, isByte in *.
  rewrite (bxor_small c1 b1), (bxor_small c2 b2) in Heq by lia.
  exact Heq.
Qed.

Lemma fold_left_cons {A B : Type} (f : A -> B -> A) (x : B) (l : list B)
      (a : A) :
  fold_left f (x :: l) a = fold_left f l (f a x).
Proof. reflexivity. Qed.

Lemma crc16_unfold (data : list Z) :
  crc16 data = fold_left crc16_byte data 0xFFFF.
Proof. reflexivity. Qed.

Lemma fold_crc (data : list Z) :
  Forall isByte data ->
  forall crc, isCrc crc -> isCrc (fold_left crc16_byte data crc).
Proof.
  induction 1 as [|b data Hb _ IH]; intros crc Hc; [exact Hc|].
  rewrite fold_left_cons. apply IH, crc16_byte_crc; assumption.
Qed.

Lemma fold_crc_inj (data : list Z) :
  Forall isByte data ->
  forall c1 c2, isCrc c1 -> isCrc c2 ->
    fold_left crc16_byte data c1 = fold_left crc16_byte data c2 ->
    c1 = c2.
Proof.
  induction 1 as [|b data Hb _ IH]; intros c1 c2 H1 H2 Heq; [exact Heq|].
  rewrite !fold_left_cons in Heq.
  apply IH in Heq; try (apply crc16_byte_crc; assumption).
  apply (crc16_byte_inj c1 c2 b b) in Heq; try assumption.
  apply (f_equal (fun x => Z.lxor x b)) in Heq.
  now rewrite !Z.lxor_assoc, Z.lxor_nilpotent, !Z.lxor_0_r in Heq.
Qed.
End ChecksumFacts.

(** X12: [calculateChecksum] is the sum of the bytes modulo 65536 and
    nothing more: the sum of a concatenation is the sum of the sums, and any
    rearrangement of the bytes has the same sum, so that bytes or chunks out
    of order are never told apart by it. *)
Theorem calculateChecksum_blind_to_order (a b l l' : list Z) :
  Permutation l l' ->
  calculateChecksum l = calculateChecksum l'
  /\ calculateChecksum (a ++ b)
     = ((calculateChecksum a + calculateChecksum b) mod 2 ^ 16)%Z
  /\ calculateChecksum (a ++ b) = calculateChecksum (b ++ a).
Proof.
  intros Hp. rewrite !calculateChecksum_sum.
  split; [now rewrite (sum_Permutation l l')|].
  rewrite !sum_app. split.
  - now rewrite <- Z.add_mod by lia.
  - f_equal. lia.
Qed.

Lemma calculateChecksum_blind_to_order_witness :
  calculateChecksum [1; 2; 3]%Z = calculateChecksum [3; 1; 2]%Z.
Proof.
  apply (calculateChecksum_blind_to_order [] [] [1; 2; 3]%Z [3; 1; 2]%Z).
  apply (perm_trans (l' := [1; 3; 2]%Z)).
  - apply perm_skip, perm_swap.
  - apply perm_swap.
Defined.

(** X13: [crc16] of bytes stays in 16 bits, and it tells apart two byte
    sequences that differ in exactly one byte, wherever that byte is. *)
Theorem crc16_detects_one_changed_byte (before after : list Z)
        (b1 b2 : Z) :
  Forall isByte before -> Forall isByte after ->
  isByte b1 -> isByte b2 -> b1 <> b2 ->
  isCrc (crc16 (before ++ b1 :: after))
  /\ crc16 (before ++ b1 :: after) <> crc16 (before ++ b2 :: after).
Proof.
  intros Hbefore Hafter Hb1 Hb2 Hne.
  assert (Hstart : isCrc 0xFFFF) by (unfold isCrc; lia).
  rewrite !crc16_unfold, !fold_left_app, !fold_left_cons.
  pose proof (fold_crc before Hbefore _ Hstart) as Hmid.
  set (crc := fold_left crc16_byte before 0xFFFF%Z) in *.
  split.
  - apply fold_crc; [assumption|]. now apply crc16_byte_crc.
  - intros Heq.
    apply (fold_crc_inj after Hafter (crc16_byte crc b1) (crc16_byte crc b2))
      in Heq; try (apply crc16_byte_crc; assumption).
    apply (crc16_byte_inj crc crc b1 b2) in Heq; try assumption.
    apply Hne.
    apply (f_equal (Z.lxor crc)) in Heq.
    now rewrite <- !Z.lxor_assoc, Z.lxor_nilpotent, !Z.lxor_0_l in Heq.
Qed.

Lemma crc16_detects_one_changed_byte_witness :
  isCrc (crc16 ([1; 2] ++ 3 :: [4])%Z)
  /\ crc16 ([1; 2] ++ 3 :: [4])%Z <> crc16 ([1; 2] ++ 7 :: [4])%Z.
Proof.
  apply (crc16_detects_one_changed_byte [1; 2]%Z [4]%Z 3%Z 7%Z);
    unfold isByte; repeat constructor; lia.
Defined.

(** ** Calibration: the band chosen *)

Section BandFacts.
Import JS.
Context {number : Type}.
Variable avgNoiseOf : Z -> number.
Variable noise_le : number -> number -> bool.
Hypothesis Hord : ordersNoise noise_le.

Lemma insertBin_head (x : freqBin) (l : list freqBin) :
  exists rest,
    insertBin noise_le x l
    = match l with
      | [] => x
      | y :: _ => if noise_le (avgNoise x) (avgNoise y) then x else y
      end :: rest.
Proof.
  destruct l as [|y l]; simpl; [now exists []|].
  destruct (noise_le (avgNoise x) (avgNoise y)); eauto.
Qed.

(** The head of the sorted bins is a quietest bin, the earliest of
    them in the scan. *)
Lemma sortBins_head (freqs : list Z) :
  freqs <> [] ->
  exists pre h post rest,
    freqs = (pre ++ h :: post)%list
    /\ sortBins noise_le
         (map (fun f => {| freq := f; avgNoise := avgNoiseOf f |}) freqs)
       = {| freq := h; avgNoise := avgNoiseOf h |} :: rest
    /\ (forall f, In f freqs ->
          noise_le (avgNoiseOf h) (avgNoiseOf f) = true)
    /\ (forall f, In f pre ->
          noise_le (avgNoiseOf f) (avgNoiseOf h) = false).
Proof.
  set (binOfFreq := fun f => {| freq := f; avgNoise := avgNoiseOf f |}).
  change {| freq := ?h; avgNoise := avgNoiseOf ?h |} with (binOfFreq h).
  destruct Hord as [Htotal Htrans].
  assert (Hrefl : forall a, noise_le a a = true).
  { intros a. destruct (noise_le a a) eqn:E; [reflexivity|].
    pose proof (Htotal _ _ E) as E'. congruence. }
  induction freqs as [|x freqs IH]; intros Hne; [contradiction|].
  destruct freqs as [|x' freqs'].
  - exists [], x, [], []. repeat split.
    + intros f [<-|[]]. apply Hrefl.
    + intros f [].
  - destruct IH as (pre & h & post & rest & Hsplit & Hsort & Hmin & Hpre);
      [discriminate|].
    change (sortBins noise_le (map binOfFreq (x :: x' :: freqs')))
      with (insertBin noise_le (binOfFreq x)
              (sortBins noise_le (map binOfFreq (x' :: freqs')))).
    rewrite Hsort.
    destruct (insertBin_head (binOfFreq x) (binOfFreq h :: rest))
      as [rest' Hins].
    rewrite Hins. cbn [avgNoise binOfFreq].
    destruct (noise_le (avgNoiseOf x) (avgNoiseOf h)) eqn:E.
    + exists [], x, (x' :: freqs'), rest'. repeat split.
      * intros f [<-|Hf]; [apply Hrefl|].
        apply (Htrans _ (avgNoiseOf h)); [exact E|now apply Hmin].
      * intros f [].
    + exists (x :: pre), h, post, rest'. repeat split.
      * now rewrite Hsplit.
      * intros f [<-|Hf]; [now apply Htotal|now apply Hmin].
      * intros f [<-|Hf]; [exact E|now apply Hpre].
Qed.
End BandFacts.

Section ScanFacts.
Local Open Scope Z_scope.

Lemma scanFrequencies_In (cfg : config) (f : Z) :
  In f (scanFrequencies cfg) <->
  exists k, 0 <= k /\ f = FREQ_MIN cfg + 50 * k /\ f <= scanLimit cfg.
Proof.
  unfold scanFrequencies.
  destruct (FREQ_MIN cfg <=? scanLimit cfg) eqn:E.
  - apply Z.leb_le in E.
    set (n := (scanLimit cfg - FREQ_MIN cfg) / 50).
    assert (Hn : 0 <= n) by (apply Z.div_pos; lia).
    pose proof (Z.mul_div_le (scanLimit cfg - FREQ_MIN cfg) 50
                             ltac:(lia)) as Hlo.
    pose proof (Z.mul_succ_div_gt (scanLimit cfg - FREQ_MIN cfg) 50
                                  ltac:(lia)) as Hhi.
    fold n in Hlo, Hhi.
    rewrite in_map_iff. split.
    + intros (k & <- & Hk). apply in_seq in Hk.
      exists (Z.of_nat k). split; [lia|]. split; [reflexivity|]. lia.
    + intros (k & Hk & -> & Hle). exists (Z.to_nat k).
      split; [lia|]. apply in_seq. lia.
  - apply Z.leb_gt in E. split; [intros []|].
    intros (k & Hk & -> & Hle). lia.
Qed.

Lemma scan_ascending (a : Z) (n s : nat) :
  forall pre h post,
    map (fun k => a + 50 * Z.of_nat k) (seq s n) = (pre ++ h :: post)%list ->
    (forall f, In f pre -> f < h) /\ (forall f, In f post -> h < f).
Proof.
  revert s. induction n as [|n IH]; intros s pre h post Heq.
  - destruct pre; discriminate.
  - cbn [seq map] in Heq. destruct pre as [|p pre].
    + injection Heq as <- <-. split; [intros f []|].
      intros f Hf. apply in_map_iff in Hf as (k & <- & Hk).
      apply in_seq in Hk. lia.
    + injection Heq as <- Heq.
      destruct (IH (S s) pre h post Heq) as [Hpre Hpost].
      split; [|exact Hpost].
      intros f [<-|Hf]; [|now apply Hpre].
      assert (Hin : In h (map (fun k => a + 50 * Z.of_nat k)
                              (seq (S s) n))).
      { rewrite Heq. apply in_or_app. right. now left. }
      apply in_map_iff in Hin as (k & <- & Hk).
      apply in_seq in Hk. lia.
Qed.

Lemma scanFrequencies_split (cfg : config) (pre post : list Z) (h : Z) :
  scanFrequencies cfg = (pre ++ h :: post)%list ->
  forall f, In f (scanFrequencies cfg) -> f < h -> In f pre.
Proof.
  intros Heq f Hf Hlt. pose proof Heq as Heq'.
  unfold scanFrequencies in Heq'.
  destruct (FREQ_MIN cfg <=? scanLimit cfg); [|destruct pre; discriminate].
  apply scan_ascending in Heq' as [_ Hpost].
  rewrite Heq in Hf. apply in_app_or in Hf as [Hf|[->|Hf]];
    [exact Hf|lia|].
  apply Hpost in Hf. lia.
Qed.
End ScanFacts.

(** X14: the carriers returned by the calibration are
    [baseFreq + i * CHANNEL_SPACING] for a base on the 50 Hz grid that
    starts at [FREQ_MIN], and with a spacing that is not negative they all
    lie between [FREQ_MIN] and [FREQ_MAX - CHANNEL_SPACING]. *)
Theorem calibrated_carriers_in_range
        {number : Type} (avgNoiseOf : Z -> number)
        (noise_le : number -> number -> bool) (cfg : config) :
  accommodates cfg ->
  (0 <= CHANNEL_SPACING cfg)%Z ->
  exists k freqs,
    (0 <= k)%Z
    /\ analyzeCalibrationData avgNoiseOf noise_le cfg = JS.Normal freqs
    /\ freqs
       = map (fun i => (FREQ_MIN cfg + 50 * k
                        + Z.of_nat i * CHANNEL_SPACING cfg)%Z)
             (seq 0 (NUM_CHANNELS cfg))
    /\ Forall (fun c => (FREQ_MIN cfg <= c
                         <= FREQ_MAX cfg - CHANNEL_SPACING cfg)%Z) freqs.
Proof.
  intros Hacc Hsp.
  destruct (proj1 (analyze_outcome avgNoiseOf noise_le cfg) Hacc)
    as (baseFreq & Hin & Hres).
  apply scanFrequencies_In in Hin as (k & Hk & -> & Hle).
  exists k. eexists. split; [exact Hk|]. split; [exact Hres|].
  split; [reflexivity|].
  apply Forall_forall. intros c Hc.
  apply in_map_iff in Hc as (i & <- & Hi). apply in_seq in Hi.
  unfold scanLimit in Hle. nia.
Qed.

Lemma calibrated_carriers_in_range_witness :
  exists k freqs,
    (0 <= k)%Z
    /\ analyzeCalibrationData dipAt2500 Z.leb EXTREME = JS.Normal freqs
    /\ freqs
       = map (fun i => (FREQ_MIN EXTREME + 50 * k
                        + Z.of_nat i * CHANNEL_SPACING EXTREME)%Z)
             (seq 0 (NUM_CHANNELS EXTREME))
    /\ Forall (fun c => (FREQ_MIN EXTREME <= c
                         <= FREQ_MAX EXTREME - CHANNEL_SPACING EXTREME)%Z)
              freqs.
Proof.
  apply (calibrated_carriers_in_range dipAt2500 Z.leb EXTREME).
  - unfold accommodates. simpl. lia.
  - simpl. lia.
Defined.

(** X15: when the comparator orders the noise figures, the base
    frequency of the carriers is a quietest candidate of the scan, and among
    equally quiet candidates the lowest one. *)
Theorem calibration_picks_quietest_lowest
        {number : Type} (avgNoiseOf : Z -> number)
        (noise_le : number -> number -> bool) (cfg : config) :
  ordersNoise noise_le ->
  accommodates cfg ->
  exists baseFreq,
    In baseFreq (scanFrequencies cfg)
    /\ analyzeCalibrationData avgNoiseOf noise_le cfg
       = JS.Normal (map (fun i => (baseFreq
                                   + Z.of_nat i * CHANNEL_SPACING cfg)%Z)
                        (seq 0 (NUM_CHANNELS cfg)))
    /\ (forall f, In f (scanFrequencies cfg) ->
          noise_le (avgNoiseOf baseFreq) (avgNoiseOf f) = true)
    /\ (forall f, In f (scanFrequencies cfg) -> (f < baseFreq)%Z ->
          noise_le (avgNoiseOf f) (avgNoiseOf baseFreq) = false).
Proof.
  intros Hord Hacc.
  assert (Hne : scanFrequencies cfg <> []).
  { intros Hnil. now apply scanFrequencies_nil_iff in Hnil. }
  destruct (sortBins_head avgNoiseOf noise_le Hord (scanFrequencies cfg) Hne)
    as (pre & h & post & rest & Hsplit & Hsort & Hmin & Hpre).
  exists h. split; [rewrite Hsplit; apply in_or_app; right; now left|].
  split; [|split; [exact Hmin|]].
  - unfold analyzeCalibrationData. rewrite Hsort. reflexivity.
  - intros f Hf Hlt. apply Hpre.
    now apply (scanFrequencies_split cfg pre post h).
Qed.

Lemma calibration_picks_quietest_lowest_witness :
  exists baseFreq,
    In baseFreq (scanFrequencies STANDARD)
    /\ analyzeCalibrationData dipAt2500 Z.leb STANDARD
       = JS.Normal (map (fun i => (baseFreq
                                   + Z.of_nat i * CHANNEL_SPACING STANDARD)%Z)
                        (seq 0 (NUM_CHANNELS STANDARD)))
    /\ (forall f, In f (scanFrequencies STANDARD) ->
          Z.leb (dipAt2500 baseFreq) (dipAt2500 f) = true)
    /\ (forall f, In f (scanFrequencies STANDARD) -> (f < baseFreq)%Z ->
          Z.leb (dipAt2500 f) (dipAt2500 baseFreq) = false).
Proof.
  apply (calibration_picks_quietest_lowest dipAt2500 Z.leb STANDARD).
  - split.
    + intros a b H. apply Z.leb_gt in H. apply Z.leb_le. lia.
    + intros a b c H1 H2. apply Z.leb_le in H1, H2. apply Z.leb_le. lia.
  - unfold accommodates. simpl. lia.
Defined.

(** ** Phase-shift keying *)

Section PSKFacts.
Lemma QPSK_roundtrip (n : nat) :
  forall bits, (List.length bits <= n)%nat ->
    QPSK_demodulate (QPSK_modulate bits)
    = (bits ++ repeat false (List.length bits mod 2))%list
    /\ List.length (QPSK_modulate bits) = ((List.length bits + 1) / 2)%nat.
Proof.
  induction n as [|n IH]; intros bits Hlen.
  - destruct bits; [now split|simpl in Hlen; lia].
  - destruct bits as [|b1 [|b0 rest]].
    + now split.
    + destruct b1; now split.
    + destruct (IH rest) as [Hd Hl]; [simpl in Hlen; lia|].
      cbn [QPSK_modulate QPSK_demodulate flat_map List.length].
      fold (QPSK_demodulate (QPSK_modulate rest)).
      rewrite Hd, Hl.
      replace (S (S (List.length rest))) with (List.length rest + 1 * 2)%nat
        by lia.
      rewrite Nat.Div0.mod_add.
      replace (List.length rest + 1 * 2 + 1)%nat
        with (List.length rest + 1 + 1 * 2)%nat by lia.
      rewrite Nat.div_add by lia.
      split; [|lia].
      destruct b1, b0; reflexivity.
Qed.

Lemma PSK8_roundtrip (n : nat) :
  forall bits, (List.length bits <= n)%nat ->
    PSK8_demodulate (PSK8_modulate bits)
    = (bits ++ repeat false ((3 - List.length bits mod 3) mod 3))%list
    /\ List.length (PSK8_modulate bits) = ((List.length bits + 2) / 3)%nat.
Proof.
  induction n as [|n IH]; intros bits Hlen.
  - destruct bits; [now split|simpl in Hlen; lia].
  - destruct bits as [|b2 [|b1 [|b0 rest]]].
    + now split.
    + destruct b2; now split.
    + destruct b2, b1; now split.
    + destruct (IH rest) as [Hd Hl]; [simpl in Hlen; lia|].
      cbn [PSK8_modulate PSK8_demodulate flat_map List.length].
      fold (PSK8_demodulate (PSK8_modulate rest)).
      rewrite Hd, Hl.
      replace (S (S (S (List.length rest))))
        with (List.length rest + 1 * 3)%nat by lia.
      rewrite Nat.Div0.mod_add.
      replace (List.length rest + 1 * 3 + 2)%nat
        with (List.length rest + 2 + 1 * 3)%nat by lia.
      rewrite Nat.div_add by lia.
      split; [|lia].
      destruct b2, b1, b0; reflexivity.
Qed.

Lemma QPSK_reverse_known (phase : Z) :
  QPSK_modulate (QPSK_reverse phase) = [QPSK_known phase].
Proof.
  unfold QPSK_reverse, QPSK_known.
  destruct (phase =? 0)%Z eqn:E0; [apply Z.eqb_eq in E0; now subst|].
  destruct (phase =? 90)%Z eqn:E1; [apply Z.eqb_eq in E1; now subst|].
  destruct (phase =? 180)%Z eqn:E2; [apply Z.eqb_eq in E2; now subst|].
  destruct (phase =? 270)%Z eqn:E3; [apply Z.eqb_eq in E3; now subst|].
  reflexivity.
Qed.

Lemma PSK8_reverse_known (phase : Z) :
  PSK8_modulate (PSK8_reverse phase) = [PSK8_known phase].
Proof.
  unfold PSK8_reverse, PSK8_known.
  destruct (phase =? 0)%Z eqn:E0; [apply Z.eqb_eq in E0; now subst|].
  destruct (phase =? 45)%Z eqn:E1; [apply Z.eqb_eq in E1; now subst|].
  destruct (phase =? 90)%Z eqn:E2; [apply Z.eqb_eq in E2; now subst|].
  destruct (phase =? 135)%Z eqn:E3; [apply Z.eqb_eq in E3; now subst|].
  destruct (phase =? 180)%Z eqn:E4; [apply Z.eqb_eq in E4; now subst|].
  destruct (phase =? 225)%Z eqn:E5; [apply Z.eqb_eq in E5; now subst|].
  destruct (phase =? 270)%Z eqn:E6; [apply Z.eqb_eq in E6; now subst|].
  destruct (phase =? 315)%Z eqn:E7; [apply Z.eqb_eq in E7; now subst|].
  reflexivity.
Qed.

Lemma QPSK_reverse_two (phase : Z) :
  exists b1 b0, QPSK_reverse phase = [b1; b0].
Proof.
  unfold QPSK_reverse.
  repeat match goal with
         | |- context [if ?b then _ else _] => destruct b
         end; eauto.
Qed.

Lemma PSK8_reverse_three (phase : Z) :
  exists b2 b1 b0, PSK8_reverse phase = [b2; b1; b0].
Proof.
  unfold PSK8_reverse.
  repeat match goal with
         | |- context [if ?b then _ else _] => destruct b
         end; eauto.
Qed.
End PSKFacts.

(** X16: QPSK symbols read back.  Demodulating what [modulate] made of
    a bit string gives the string, followed by one 0 when its length is odd;
    there is one symbol for every two bits, rounded up; and modulating what
    [demodulate] made of any symbols gives them back, a phase that is not in
    the map having become 0. *)
Theorem QPSK_demodulate_inverts_modulate (bits : list bool)
        (symbols : list Z) :
  QPSK_demodulate (QPSK_modulate bits)
  = (bits ++ repeat false (List.length bits mod 2))%list
  /\ List.length (QPSK_modulate bits) = ((List.length bits + 1) / 2)%nat
  /\ List.length (QPSK_demodulate symbols) = (2 * List.length symbols)%nat
  /\ QPSK_modulate (QPSK_demodulate symbols) = map QPSK_known symbols.
Proof.
  destruct (QPSK_roundtrip (List.length bits) bits (le_n _)) as [Hd Hl].
  split; [exact Hd|]. split; [exact Hl|].
  induction symbols as [|phase symbols [IHl IHm]]; [now split|].
  unfold QPSK_demodulate in *. cbn [flat_map map].
  destruct (QPSK_reverse_two phase) as (b1 & b0 & Hrev).
  pose proof (QPSK_reverse_known phase) as Hknown.
  rewrite Hrev in Hknown |- *. cbn [app List.length QPSK_modulate] in *.
  split; [lia|]. rewrite IHm. now injection Hknown as ->.
Qed.

(** X17: 8-PSK symbols read back.  Demodulating what [modulate] made
    of a bit string gives the string, followed by the zeros that fill its
    last group of three; there is one symbol for every three bits, rounded
    up; and modulating what [demodulate] made of any symbols gives them
    back, a phase that is not in the map having become 0. *)
Theorem PSK8_demodulate_inverts_modulate (bits : list bool)
        (symbols : list Z) :
  PSK8_demodulate (PSK8_modulate bits)
  = (bits ++ repeat false ((3 - List.length bits mod 3) mod 3))%list
  /\ List.length (PSK8_modulate bits) = ((List.length bits + 2) / 3)%nat
  /\ List.length (PSK8_demodulate symbols) = (3 * List.length symbols)%nat
  /\ PSK8_modulate (PSK8_demodulate symbols) = map PSK8_known symbols.
Proof.
  destruct (PSK8_roundtrip (List.length bits) bits (le_n _)) as [Hd Hl].
  split; [exact Hd|]. split; [exact Hl|].
  induction symbols as [|phase symbols [IHl IHm]]; [now split|].
  unfold PSK8_demodulate in *. cbn [flat_map map].
  destruct (PSK8_reverse_three phase) as (b2 & b1 & b0 & Hrev).
  pose proof (PSK8_reverse_known phase) as Hknown.
  rewrite Hrev in Hknown |- *. cbn [app List.length PSK8_modulate] in *.
  split; [lia|]. rewrite IHm. now injection Hknown as ->.
Qed.

Section PSKChordFacts.
Lemma padPair_zeros (s : list bool) :
  padPair s = (s ++ repeat false (List.length s mod 2))%list.
Proof.
  unfold padPair.
  pose proof (Nat.mod_upper_bound (List.length s) 2 ltac:(lia)) as Hm.
  destruct (List.length s mod 2 =? 0)%nat eqn:E.
  - apply Nat.eqb_eq in E. rewrite E. cbn [repeat]. now rewrite app_nil_r.
  - apply Nat.eqb_neq in E.
    replace (List.length s mod 2)%nat with 1%nat by lia. reflexivity.
Qed.

Lemma padTriple_zeros (s : list bool) :
  padTriple s
  = (s ++ repeat false ((3 - List.length s mod 3) mod 3))%list.
Proof.
  unfold padTriple. cbn [padTripleLoop].
  pose proof (Nat.mod_upper_bound (List.length s) 3 ltac:(lia)) as Hm.
  rewrite length_app. cbn [List.length].
  destruct (List.length s mod 3 =? 0)%nat eqn:E0.
  - apply Nat.eqb_eq in E0. rewrite E0. cbn. now rewrite app_nil_r.
  - apply Nat.eqb_neq in E0.
    pose proof (Nat.Div0.add_mod (List.length s) 1 3) as Hadd.
    destruct ((List.length s + 1) mod 3 =? 0)%nat eqn:E1.
    + apply Nat.eqb_eq in E1.
      assert (H2 : (List.length s mod 3 = 2)%nat).
      { destruct (List.length s mod 3)%nat as [|[|[|k]]] eqn:Em;
          try lia; rewrite E1 in Hadd; cbn in Hadd; discriminate. }
      rewrite H2. reflexivity.
    + apply Nat.eqb_neq in E1.
      assert (H1 : (List.length s mod 3 = 1)%nat).
      { destruct (List.length s mod 3)%nat as [|[|[|k]]] eqn:Em;
          try lia. exfalso. apply E1. rewrite Hadd. reflexivity. }
      rewrite H1. cbn. now rewrite <- app_assoc.
Qed.

Lemma collect_nth_error {A : Type} (l : list A) :
  forall m,
    flat_map (fun idx => match nth_error l idx with
                         | Some x => [x]
                         | None => []
                         end) (seq 0 m)
    = firstn m l.
Proof.
  induction l as [|x l IH]; intros m.
  - rewrite firstn_nil. induction (seq 0 m) as [|i t IHt];
      [reflexivity|].
    cbn [flat_map]. rewrite IHt. now destruct i.
  - destruct m as [|m]; [reflexivity|].
    cbn [seq flat_map nth_error firstn app]. f_equal.
    rewrite <- seq_shift, flat_map_concat_map, map_map,
      <- flat_map_concat_map.
    apply IH.
Qed.

Lemma length_le_max {A : Type} (streams : list (list A)) (c : nat) :
  (List.length (nth c streams [])
   <= fold_right Nat.max 0 (map (@List.length A) streams))%nat.
Proof.
  revert c. induction streams as [|s streams IH]; intros c.
  - destruct c; simpl; lia.
  - destruct c as [|c]; cbn [nth map fold_right]; [lia|].
    specialize (IH c). lia.
Qed.

(** A channel plays its own symbols, one per chord, until it has
    none left. *)
Lemma channelSymbols_phaseChords (symbolStreams : list (list Z))
      (c : nat) :
  channelSymbols (phaseChords symbolStreams) c = nth c symbolStreams [].
Proof.
  unfold channelSymbols, phaseChords.
  rewrite flat_map_concat_map, map_map, <- flat_map_concat_map.
  rewrite (flat_map_ext _
             (fun idx => match nth_error (nth c symbolStreams []) idx with
                         | Some x => [x]
                         | None => []
                         end)).
  - rewrite collect_nth_error. apply firstn_all2, length_le_max.
  - intros idx.
    assert (Hd : None = nth_error (@nil Z) idx) by now destruct idx.
    rewrite Hd at 1.
    now rewrite (map_nth (fun symbols => nth_error symbols idx)).
Qed.
End PSKChordFacts.

(** X18: what each channel plays in the phase-keyed modes.  With at
    least one channel, the symbols that channel [c] plays over the chords of
    [transmitBinaryQPSK] demodulate to the bits at positions [c], [c + N],
    [c + 2N], ... of the string, followed by one 0 when their number is odd;
    those of [transmitBinary8PSK] demodulate to the same bits followed by
    the zeros that fill the last group of three. *)
Theorem phase_chords_carry_channel_streams (N : nat) (s : list bool)
        (c : nat) :
  (1 <= N)%nat -> (c < N)%nat ->
  QPSK_demodulate (channelSymbols (transmitBinaryQPSK N s) c)
  = (streamOf N s c
       ++ repeat false (List.length (streamOf N s c) mod 2))%list
  /\ PSK8_demodulate (channelSymbols (transmitBinary8PSK N s) c)
     = (streamOf N s c
          ++ repeat false ((3 - List.length (streamOf N s c) mod 3) mod 3))%list.
Proof.
  intros HN Hc. unfold transmitBinaryQPSK, transmitBinary8PSK.
  rewrite !channelSymbols_phaseChords, (distribute_streams N HN).
  rewrite !map_map, !nth_map_seq by exact Hc.
  rewrite padPair_zeros, padTriple_zeros.
  set (t := streamOf N s c).
  pose proof (Nat.mod_upper_bound (List.length t) 2 ltac:(lia)) as H2.
  pose proof (Nat.mod_upper_bound (List.length t) 3 ltac:(lia)) as H3.
  pose proof (Nat.div_mod (List.length t) 2 ltac:(lia)) as D2.
  pose proof (Nat.div_mod (List.length t) 3 ltac:(lia)) as D3.
  split.
  - destruct (QPSK_roundtrip _ (t ++ repeat false (List.length t mod 2))
                             (le_n _)) as [Hd _].
    rewrite Hd, length_app, repeat_length.
    replace ((List.length t + List.length t mod 2) mod 2)%nat with 0%nat.
    + cbn [repeat]. now rewrite app_nil_r.
    + symmetry.
      replace (List.length t + List.length t mod 2)%nat
        with (0 + (List.length t / 2 + List.length t mod 2) * 2)%nat by lia.
      now rewrite Nat.Div0.mod_add.
  - destruct (PSK8_roundtrip _
                (t ++ repeat false ((3 - List.length t mod 3) mod 3))
                (le_n _)) as [Hd _].
    rewrite Hd, length_app, repeat_length.
    replace ((3 - (List.length t + (3 - List.length t mod 3) mod 3) mod 3)
               mod 3)%nat with 0%nat.
    + cbn [repeat]. now rewrite app_nil_r.
    + symmetry.
      assert (Hz : ((List.length t + (3 - List.length t mod 3) mod 3) mod 3
                    = 0)%nat).
      { destruct (List.length t mod 3)%nat as [|[|[|k]]] eqn:Em; try lia.
        - cbn [Nat.sub]. rewrite Nat.Div0.mod_same, Nat.add_0_r. exact Em.
        - change ((3 - 1) mod 3)%nat with 2%nat.
          replace (List.length t + 2)%nat
            with (0 + (List.length t / 3 + 1) * 3)%nat by lia.
          now rewrite Nat.Div0.mod_add.
        - change ((3 - 2) mod 3)%nat with 1%nat.
          replace (List.length t + 1)%nat
            with (0 + (List.length t / 3 + 1) * 3)%nat by lia.
          now rewrite Nat.Div0.mod_add. }
      rewrite Hz. reflexivity.
Qed.

Lemma phase_chords_carry_channel_streams_witness :
  QPSK_demodulate
    (channelSymbols
       (transmitBinaryQPSK 2 [true; false; true; true; false; true; true]) 0)
  = (streamOf 2 [true; false; true; true; false; true; true] 0
       ++ repeat false
            (List.length
               (streamOf 2 [true; false; true; true; false; true; true] 0)
             mod 2))%list
  /\ PSK8_demodulate
       (channelSymbols
          (transmitBinary8PSK 2 [true; false; true; true; false; true; true])
          0)
     = (streamOf 2 [true; false; true; true; false; true; true] 0
          ++ repeat false
               ((3 - List.length
                       (streamOf 2 [true; false; true; true; false; true;
                                    true] 0) mod 3) mod 3))%list.
Proof.
  apply (phase_chords_carry_channel_streams
           2 [true; false; true; true; false; true; true] 0); lia.
Defined.

(** ** Detection of a chord *)

Section DetectionFacts.
Local Open Scope Z_scope.
Variable binOf : Z -> Z.

Lemma demodulateChannel_None (spectrum : list Z) (baseFreq : Z) :
  demodulateChannel binOf spectrum baseFreq = None
  <-> silent binOf spectrum baseFreq.
Proof.
  unfold demodulateChannel, silent.
  set (amp0 := amplitude spectrum (binOf (baseFreq - FSK_DEVIATION))).
  set (amp1 := amplitude spectrum (binOf (baseFreq + FSK_DEVIATION))).
  destruct (SIGNAL_THRESHOLD <? amp0) eqn:E0;
    destruct (SIGNAL_THRESHOLD <? amp1) eqn:E1; cbn [orb];
    rewrite ?Z.ltb_lt, ?Z.ltb_ge in *;
    (split; [try discriminate; intros _; lia|intros H; try reflexivity; lia]).
Qed.

Lemma demodulateChannel_clear (spectrum : list Z) (baseFreq : Z)
      (bit : bool) :
  clear binOf spectrum baseFreq bit ->
  demodulateChannel binOf spectrum baseFreq = Some bit.
Proof.
  unfold clear, demodulateChannel, toneFrequency.
  set (amp0 := amplitude spectrum (binOf (baseFreq - FSK_DEVIATION))).
  set (amp1 := amplitude spectrum (binOf (baseFreq + FSK_DEVIATION))).
  destruct bit; cbn [negb]; intros [Hloud Hother].
  - replace (SIGNAL_THRESHOLD <? amp1) with true
      by (symmetry; apply Z.ltb_lt; lia).
    rewrite orb_true_r. f_equal. apply Z.ltb_lt. lia.
  - replace (SIGNAL_THRESHOLD <? amp0) with true
      by (symmetry; apply Z.ltb_lt; lia).
    cbn [orb]. f_equal. apply Z.ltb_ge. lia.
Qed.
Lemma demodulateChord_clear (N : nat)
      (optimalFrequencies spectrum : list Z) (chord : list bool) :
  (1 <= N)%nat ->
  List.length optimalFrequencies = N ->
  List.length chord = N ->
  clearChord binOf optimalFrequencies spectrum chord ->
  demodulateChord binOf N optimalFrequencies spectrum
  = Some (map Some chord).
Proof.
  intros HN Hfreqs Hchord Hclear.
  unfold demodulateChord.
  assert (Hmap : map (fun ch => match nth_error optimalFrequencies ch with
                                | Some baseFreq =>
                                    demodulateChannel binOf spectrum baseFreq
                                | None => None
                                end) (seq 0 N)
                 = map Some chord).
  { apply nth_ext with (d := None) (d' := None);
      [now rewrite !length_map, length_seq|].
    intros ch Hch. rewrite length_map, length_seq in Hch.
    rewrite nth_map_seq by exact Hch.
    destruct (nth_error optimalFrequencies ch) as [baseFreq|] eqn:Hf;
      [|apply nth_error_None in Hf; lia].
    destruct (nth_error chord ch) as [bit|] eqn:Hb;
      [|apply nth_error_None in Hb; lia].
    rewrite (demodulateChannel_clear spectrum baseFreq bit)
      by now apply (Hclear ch).
    rewrite (nth_indep (map Some chord) None (Some false))
      by (rewrite length_map; lia).
    rewrite (map_nth Some). f_equal. symmetry. now apply nth_error_nth. }
  rewrite Hmap.
  destruct chord as [|bit chord]; [simpl in Hchord; lia|]. reflexivity.
Qed.
End DetectionFacts.

(** X19: [demodulateChord] returns [null] exactly when every channel
    that has a carrier is silent, neither of its two tones above the
    threshold; what it returns otherwise has one entry for each channel. *)
Theorem demodulateChord_null_iff_silent (binOf : Z -> Z) (N : nat)
        (optimalFrequencies spectrum : list Z) :
  (demodulateChord binOf N optimalFrequencies spectrum = None
   <-> forall ch baseFreq,
         (ch < N)%nat -> nth_error optimalFrequencies ch = Some baseFreq ->
         silent binOf spectrum baseFreq)
  /\ (forall bits,
        demodulateChord binOf N optimalFrequencies spectrum = Some bits ->
        List.length bits = N).
Proof.
  unfold demodulateChord.
  set (decision := fun ch => match nth_error optimalFrequencies ch with
                           | Some baseFreq =>
                               demodulateChannel binOf spectrum baseFreq
                           | None => None
                           end).
  set (heardBit := fun bit : option bool =>
                     match bit with Some _ => true | None => false end).
  destruct (existsb heardBit (map decision (seq 0 N))) eqn:E.
  - split.
    + split; [discriminate|]. intros Hsilent. exfalso.
      apply existsb_exists in E as (bit & Hin & Hbit).
      apply in_map_iff in Hin as (ch & <- & Hch). apply in_seq in Hch.
      unfold decision in Hbit.
      destruct (nth_error optimalFrequencies ch) as [baseFreq|] eqn:Hf;
        [|discriminate].
      specialize (Hsilent ch baseFreq ltac:(lia) Hf).
      apply demodulateChannel_None in Hsilent. rewrite Hsilent in Hbit.
      discriminate.
    + intros bits [= <-]. now rewrite length_map, length_seq.
  - split; [|discriminate].
    split; [|reflexivity]. intros _ ch baseFreq Hch Hf.
    apply demodulateChannel_None.
    destruct (demodulateChannel binOf spectrum baseFreq) as [bit|] eqn:Hd;
      [|reflexivity].
    exfalso. apply not_true_iff_false in E. apply E.
    apply existsb_exists. exists (Some bit). split; [|reflexivity].
    apply in_map_iff. exists ch. split; [|apply in_seq; lia].
    unfold decision. now rewrite Hf, Hd.
Qed.

(** X20: a chord heard in the clear is read as it was played.  When
    each of the [N >= 1] channels has its carrier and the tone played for
    its bit is above the threshold and louder than its other tone,
    [demodulateChord] returns the bits of the chord in channel order, and
    the bit stream of the receiver grows by exactly these bits. *)
Theorem demodulateChord_reads_clear_chord (binOf : Z -> Z) (N : nat)
        (optimalFrequencies spectrum : list Z) (chord stream : list bool) :
  (1 <= N)%nat ->
  List.length optimalFrequencies = N ->
  List.length chord = N ->
  clearChord binOf optimalFrequencies spectrum chord ->
  demodulateChord binOf N optimalFrequencies spectrum
  = Some (map Some chord)
  /\ appendBits stream (map Some chord) = (stream ++ chord)%list.
Proof.
  intros HN Hfreqs Hchord Hclear.
  split; [now apply demodulateChord_clear|apply appendBits_heard].
Qed.

Lemma demodulateChord_reads_clear_chord_witness :
  demodulateChord hundredHz 2 [300; 700]%Z twoTones
  = Some (map Some [true; false])
  /\ appendBits [true] (map Some [true; false])
     = ([true] ++ [true; false])%list.
Proof.
  apply (demodulateChord_reads_clear_chord
           hundredHz 2 [300; 700]%Z twoTones [true; false] [true]).
  - lia.
  - reflexivity.
  - reflexivity.
  - intros [|[|ch]] baseFreq bit Hf Hb.
    + cbn in Hf, Hb. injection Hf as <-. injection Hb as <-.
      unfold clear. vm_compute. split; reflexivity.
    + cbn in Hf, Hb. injection Hf as <-. injection Hb as <-.
      unfold clear. vm_compute. split; reflexivity.
    + destruct ch; discriminate Hf.
Defined.

(** ** Signal monitor *)

Section MonitorFacts.
Context {number : Type}.

Lemma recordSNR_window (snrHistory : list number) (snr : number) :
  (List.length snrHistory <= SNR_HISTORY_SIZE)%nat ->
  recordSNR snrHistory snr
  = skipn (List.length (snrHistory ++ [snr]) - SNR_HISTORY_SIZE)
          (snrHistory ++ [snr])
  /\ (List.length (recordSNR snrHistory snr) <= SNR_HISTORY_SIZE)%nat.
Proof.
  unfold recordSNR, SNR_HISTORY_SIZE. intros Hlen.
  rewrite length_app. cbn [List.length].
  destruct (50 <? List.length snrHistory + 1)%nat eqn:E.
  - apply Nat.ltb_lt in E.
    replace (List.length snrHistory + 1 - 50)%nat with 1%nat by lia.
    split; [reflexivity|].
    destruct snrHistory as [|x h]; cbn [app tl List.length] in *; [lia|].
    rewrite length_app. cbn [List.length]. lia.
  - apply Nat.ltb_ge in E.
    replace (List.length snrHistory + 1 - 50)%nat with 0%nat by lia.
    split; [reflexivity|]. rewrite length_app. cbn [List.length]. lia.
Qed.

Lemma fold_recordSNR_window (readings : list number) :
  forall snrHistory,
    (List.length snrHistory <= SNR_HISTORY_SIZE)%nat ->
    fold_left recordSNR readings snrHistory
    = skipn (List.length (snrHistory ++ readings) - SNR_HISTORY_SIZE)
            (snrHistory ++ readings).
Proof.
  induction readings as [|snr readings IH]; intros snrHistory Hlen.
  - rewrite app_nil_r.
    replace (List.length snrHistory - SNR_HISTORY_SIZE)%nat with 0%nat
      by lia.
    reflexivity.
  - cbn [fold_left].
    destruct (recordSNR_window snrHistory snr Hlen) as [Hstep Hbound].
    rewrite IH by exact Hbound. rewrite Hstep.
    set (k := (List.length (snrHistory ++ [snr]) - SNR_HISTORY_SIZE)%nat).
    assert (Hk : (k <= List.length (snrHistory ++ [snr]))%nat) by lia.
    rewrite length_app, length_skipn.
    replace (snrHistory ++ snr :: readings)%list
      with ((snrHistory ++ [snr]) ++ readings)%list
      by now rewrite <- app_assoc.
    rewrite (length_app (snrHistory ++ [snr])).
    assert (Hcases : k = 0%nat
                     \/ (List.length (snrHistory ++ [snr])
                         = SNR_HISTORY_SIZE + k)%nat) by lia.
    destruct Hcases as [Hz|Hfull].
    + rewrite Hz. cbn [skipn]. now rewrite Nat.sub_0_r.
    + replace (List.length (snrHistory ++ [snr]) + List.length readings
               - SNR_HISTORY_SIZE)%nat
        with (List.length (snrHistory ++ [snr]) - k + List.length readings
              - SNR_HISTORY_SIZE + k)%nat by lia.
      rewrite <- skipn_skipn.
      rewrite (skipn_app k (snrHistory ++ [snr]) readings).
      replace (k - List.length (snrHistory ++ [snr]))%nat with 0%nat by lia.
      reflexivity.
Qed.
End MonitorFacts.

(** X21: the history of the signal monitor is a sliding window: after
    a reset and any sequence of readings it holds the last 50 of them, all
    of them when there are fewer, in the order they were taken. *)
Theorem snrHistory_is_the_last_50 {number : Type}
        (readings : list number) :
  fold_left recordSNR readings []
  = skipn (List.length readings - SNR_HISTORY_SIZE) readings
  /\ List.length (fold_left recordSNR readings [])
     = Nat.min (List.length readings) SNR_HISTORY_SIZE.
Proof.
  rewrite (fold_recordSNR_window readings [])
    by (unfold SNR_HISTORY_SIZE; simpl; lia).
  cbn [app]. split; [reflexivity|]. rewrite length_skipn. lia.
Qed.

(** ** Framing of the sender's packets *)

Section CutFacts.
Import JS.
Local Open Scope string_scope.

Lemma includes_NUL_false (s : string) :
  allChars notNul s = true -> includes NUL s = false.
Proof.
  induction s as [|c s IH]; [reflexivity|].
  cbn [allChars]. rewrite andb_true_iff. intros [Hc Hs].
  rewrite includes_unfold. unfold NUL at 1. cbn [String.prefix].
  destruct (ascii_dec Ascii.zero c) as [<-|_]; [discriminate|].
  now apply IH.
Qed.

Lemma deliverable_short (buffer : string) :
  (String.length buffer <= 10)%nat -> allChars notNul buffer = true ->
  deliverable buffer = false.
Proof.
  intros Hlen Hnul. unfold deliverable.
  rewrite includes_NUL_false by assumption.
  replace (10 <? String.length buffer)%nat with false
    by (symmetry; apply Nat.ltb_ge; lia).
  reflexivity.
Qed.

Lemma deliverable_tagged (buffer : string) :
  (10 < String.length buffer)%nat -> tagged buffer = true ->
  deliverable buffer = true.
Proof.
  intros Hlen Htag. unfold deliverable.
  replace (10 <? String.length buffer)%nat with true
    by (symmetry; apply Nat.ltb_lt; lia).
  unfold tagged in Htag. rewrite !orb_true_iff in Htag.
  rewrite (includes_unfold "META:"), (includes_unfold "DATA:"),
    (includes_unfold "END:").
  destruct Htag as [[H|H]|H]; rewrite H; cbn [andb orb];
    now rewrite ?orb_true_r.
Qed.

Lemma codeUnits_app (s t : string) :
  codeUnits (s ++ t) = (codeUnits s ++ codeUnits t)%list.
Proof.
  unfold codeUnits. induction s as [|c s IH]; [reflexivity|].
  rewrite append_String. cbn [list_ascii_of_string map app].
  now rewrite IH.
Qed.

Lemma codeUnits_small (s : string) :
  Forall (fun c => (c <= 255)%N) (codeUnits s).
Proof.
  unfold codeUnits. induction s as [|c s IH]; constructor; [|exact IH].
  pose proof (N_ascii_bounded c). lia.
Qed.

(** While the buffer is short and holds no NUL, the characters are
    collected. *)
Lemma framedTurn_collects (pre : string) :
  forall buffer syncDetected delivered,
    (String.length (buffer ++ pre) <= 10)%nat ->
    allChars notNul (buffer ++ pre) = true ->
    fold_left framedTurn (codeUnits pre) (buffer, syncDetected, delivered)
    = (buffer ++ pre, syncDetected, delivered).
Proof.
  induction pre as [|c pre IH]; intros buffer syncDetected delivered Hlen Hnul.
  - now rewrite append_nil_r.
  - replace (buffer ++ String c pre) with ((buffer ++ String c "") ++ pre)
      in * by now rewrite append_assoc.
    change (codeUnits (String c pre)) with (N_of_ascii c :: codeUnits pre).
    cbn [fold_left framedTurn]. unfold fromCharCode.
    rewrite ascii_N_embedding. unfold framedStep.
    rewrite append_length in Hlen. rewrite allChars_app in Hnul.
    apply andb_true_iff in Hnul as [Hnul1 Hnul2].
    rewrite deliverable_short by (try assumption; lia).
    replace (5000 <? String.length (buffer ++ String c ""))%nat with false
      by (symmetry; apply Nat.ltb_ge; lia).
    apply IH.
    + rewrite append_length. lia.
    + rewrite allChars_app, Hnul1, Hnul2. reflexivity.
Qed.

Lemma framedTurn_keeps_delivered (codes : list N) :
  forall acc, exists more,
    snd (fold_left framedTurn codes acc) = (snd acc ++ more)%list.
Proof.
  induction codes as [|c codes IH]; intros acc.
  - exists []. now rewrite app_nil_r.
  - cbn [fold_left]. destruct (IH (framedTurn acc c)) as [more Hmore].
    rewrite Hmore. destruct acc as [[b s] d]. unfold framedTurn.
    destruct (framedStep b s (fromCharCode c)) as [[b' s'] [p|]];
      cbn [snd]; [|now exists more].
    exists (p :: more). now rewrite <- app_assoc.
Qed.

(** The first packet handed over when a tagged message arrives: its
    first 11 characters. *)
Lemma deliveredFrom_tagged (head tail : string) :
  String.length head = 11%nat ->
  allChars notNul head = true ->
  tagged head = true ->
  exists more, deliveredFrom (head ++ tail) = head :: more.
Proof.
  intros Hlen Hnul Htag.
  unfold deliveredFrom, processReceivedBits, framed.
  cbn [syncDetected bitStream packetBuffer negb].
  rewrite appendBits_heard. cbn [app].
  rewrite (framedLoop_turns _ _ (le_n _)).
  rewrite charCodes_encodeToBinary by apply codeUnits_small.
  rewrite codeUnits_app, fold_left_app.
  destruct head as [|c0 [|c1 [|c2 [|c3 [|c4 [|c5 [|c6 [|c7 [|c8 [|c9
                   [|c10 [|c11 head]]]]]]]]]]]]; try discriminate Hlen.
  set (pre := String c0 (String c1 (String c2 (String c3 (String c4
               (String c5 (String c6 (String c7 (String c8
               (String c9 ""))))))))))
    in *.
  change (String c0 (String c1 (String c2 (String c3 (String c4
           (String c5 (String c6 (String c7 (String c8 (String c9
           (String c10 "")))))))))))
    with (pre ++ String c10 "") in *.
  rewrite codeUnits_app, fold_left_app.
  rewrite allChars_app in Hnul. apply andb_true_iff in Hnul as [Hpre Hlast].
  rewrite (framedTurn_collects pre "" true [])
    by (rewrite append_nil_l;
        first [exact Hpre|unfold pre; cbn [String.length]; lia]).
  rewrite append_nil_l.
  change (codeUnits (String c10 "")) with [N_of_ascii c10].
  cbn [fold_left framedTurn]. unfold fromCharCode.
  rewrite ascii_N_embedding. unfold framedStep.
  rewrite deliverable_tagged
    by (first [exact Htag
              |rewrite append_length; unfold pre; cbn [String.length]; lia]).
  cbn [String.length Nat.ltb Nat.leb app].
  destruct (framedTurn_keeps_delivered (codeUnits tail)
              ("", false, [pre ++ String c10 ""])) as [more Hmore].
  destruct (fold_left framedTurn (codeUnits tail)
                      ("", false, [pre ++ String c10 ""]))
    as [[b s] d].
  cbn [snd] in *. exists more. exact Hmore.
Qed.

Lemma substring_split (n : nat) :
  forall s, (n <= String.length s)%nat ->
    s = substring 0 n s ++ sliceFrom n s
    /\ String.length (substring 0 n s) = n.
Proof.
  induction n as [|n IH]; intros s Hlen.
  - destruct s; now split.
  - destruct s as [|c s]; [simpl in Hlen; lia|].
    destruct (IH s) as [Heq Hl]; [simpl in Hlen; lia|].
    cbn [substring sliceFrom String.length].
    rewrite append_String, <- Heq, Hl. now split.
Qed.

Lemma splitColon_length (body part0 rest : string) :
  splitColon body = Some (part0, rest) ->
  String.length body = (String.length part0 + 1 + String.length rest)%nat.
Proof.
  revert part0. induction body as [|c body IH]; intros part0 H;
    [discriminate|].
  cbn [splitColon] in H. destruct (Ascii.eqb c ":").
  - injection H as <- <-. reflexivity.
  - destruct (splitColon body) as [[p r]|]; [|discriminate].
    injection H as <- <-. cbn [String.length]. rewrite (IH p eq_refl). lia.
Qed.

Lemma encodeDataToBinary_at_least (data : list Z) :
  (8 * List.length data <= String.length (encodeDataToBinary data))%nat.
Proof.
  induction data as [|b data IH]; [simpl; lia|].
  cbn [encodeDataToBinary fold_right]. fold (encodeDataToBinary data).
  rewrite append_length, bitString_length.
  pose proof (charBits_at_least_eight (Z.to_N b)).
  cbn [List.length]. lia.
Qed.

Lemma plain_notNul (s : string) :
  allChars isPlainChar s = true -> allChars notNul s = true.
Proof.
  apply allChars_impl. intros c. unfold isPlainChar, notNul.
  rewrite andb_true_iff. tauto.
Qed.
End CutFacts.

(** X22: the framing cuts every DATA packet of the sender.  When the
    bits of the packet of a chunk arrive at a receiver that has just found
    the sync pattern, the first packet handed to [processPacket] is the
    first 11 characters of the packet sent; and whatever index and payload
    [processPacket] reads in these 11 characters, the payload is too short
    to decode to a single byte. *)
Theorem framing_cuts_data_packets (fileData : list Z) (i : nat) :
  (i < chunkCount fileData)%nat ->
  exists more,
    deliveredFrom (dataPacketOf fileData i)
    = substring 0 11 (dataPacketOf fileData i) :: more
    /\ forall idx payload,
         carries (substring 0 11 (dataPacketOf fileData i))
         = Some (idx, payload) ->
         decodeBinaryToData payload = [].
Proof.
  intros Hi.
  assert (Hchunk : (1 <= List.length (chunkAt fileData i))%nat).
  { apply chunkCount_tight in Hi. rewrite chunkAt_length.
    unfold CHUNK_SIZE in *. lia. }
  pose proof (encodeDataToBinary_at_least (chunkAt fileData i)) as Hpay.
  pose proof (dataPacketOf_plain fileData i) as Hplain.
  set (packet := dataPacketOf fileData i) in *.
  assert (Hlen : (11 <= String.length packet)%nat).
  { unfold packet, dataPacketOf. rewrite !append_length.
    cbn [String.length]. lia. }
  destruct (substring_split 11 packet Hlen) as [Hsplit Hhead].
  set (head := substring 0 11 packet) in *.
  assert (Hhplain : allChars isPlainChar head = true).
  { rewrite Hsplit, allChars_app in Hplain.
    now apply andb_true_iff in Hplain as [H _]. }
  assert (Htag : String.prefix "DATA:" head = true).
  { unfold head, packet, dataPacketOf.
    set (body := (decimal i ++ ":" ++ encodeDataToBinary (chunkAt fileData i))%string).
    change (substring 0 11 ("DATA:" ++ body)%string)
      with ("DATA:" ++ substring 0 6 body)%string.
    apply prefix_app. }
  destruct (deliveredFrom_tagged head (sliceFrom 11 packet) Hhead
              (plain_notNul head Hhplain))
    as [more Hmore].
  { unfold tagged. rewrite Htag. now rewrite orb_true_r. }
  exists more. rewrite <- Hsplit in Hmore. split; [exact Hmore|].
  intros idx payload Hcar.
  unfold carries in Hcar. rewrite normalise_plain in Hcar by exact Hhplain.
  unfold dataFields in Hcar. rewrite Htag in Hcar.
  destruct (splitColon (sliceFrom 5 head)) as [[part0 rest]|] eqn:Hs;
    [|discriminate].
  destruct (parseInt part0); [|discriminate].
  injection Hcar as _ <-.
  apply splitColon_length in Hs.
  assert (Hrest : (String.length rest <= 5)%nat).
  { assert (Hsl : (String.length (sliceFrom 5 head) <= 6)%nat).
    { clear -Hhead.
      destruct head as [|c0 [|c1 [|c2 [|c3 [|c4 [|c5 [|c6 [|c7 [|c8 [|c9
                       [|c10 [|c11 head]]]]]]]]]]]]; simpl in *; lia. }
    lia. }
  clear -Hrest.
  destruct rest as [|c0 [|c1 [|c2 [|c3 [|c4 [|c5 rest]]]]]];
    try reflexivity.
  simpl in Hrest. lia.
Qed.

Lemma framing_cuts_data_packets_witness :
  exists more,
    deliveredFrom (dataPacketOf [65; 66]%Z 0)
    = substring 0 11 (dataPacketOf [65; 66]%Z 0) :: more
    /\ forall idx payload,
         carries (substring 0 11 (dataPacketOf [65; 66]%Z 0))
         = Some (idx, payload) ->
         decodeBinaryToData payload = [].
Proof.
  apply (framing_cuts_data_packets [65; 66]%Z 0).
  vm_compute. lia.
Defined.

(** ** Hunting for the sync pattern *)

Section HuntFacts.
Lemma startsWithBits_iff (pattern s : list bool) :
  startsWithBits pattern s = true <-> exists rest, s = (pattern ++ rest)%list.
Proof.
  revert s. induction pattern as [|p pattern IH]; intros s.
  - split; [intros _; now exists s|reflexivity].
  - destruct s as [|c s]; cbn [startsWithBits].
    + split; [discriminate|intros [rest H]; discriminate].
    + rewrite andb_true_iff, IH. split.
      * intros [Hpc [rest ->]]. apply eqb_prop in Hpc. subst c.
        now exists rest.
      * intros [rest H]. injection H as -> ->.
        split; [apply eqb_reflx|now exists rest].
Qed.

Lemma indexOf_unfold (pattern s : list bool) :
  indexOf pattern s
  = if startsWithBits pattern s then Some 0%nat
    else match s with
         | [] => None
         | _ :: s' => option_map S (indexOf pattern s')
         end.
Proof. destruct s; reflexivity. Qed.

(** [indexOf] finds the first occurrence. *)
Lemma indexOf_Some (pattern : list bool) :
  forall s idx,
    indexOf pattern s = Some idx ->
    startsWithBits pattern (skipn idx s) = true
    /\ (idx <= List.length s)%nat
    /\ forall j, (j < idx)%nat ->
         startsWithBits pattern (skipn j s) = false.
Proof.
  induction s as [|c s IH]; intros idx H; rewrite indexOf_unfold in H.
  - destruct (startsWithBits pattern []) eqn:E; [|discriminate].
    injection H as <-. repeat split; [exact E|lia|lia].
  - destruct (startsWithBits pattern (c :: s)) eqn:E.
    + injection H as <-. repeat split; [exact E|simpl; lia|lia].
    + destruct (indexOf pattern s) as [i|] eqn:Hi; [|discriminate].
      injection H as <-. destruct (IH i eq_refl) as (Hat & Hle & Hbefore).
      repeat split; [exact Hat|simpl; lia|].
      intros [|j] Hj; [exact E|]. apply Hbefore. lia.
Qed.

Lemma indexOf_None (pattern : list bool) :
  forall s, indexOf pattern s = None ->
    forall j, startsWithBits pattern (skipn j s) = false.
Proof.
  induction s as [|c s IH]; intros H j; rewrite indexOf_unfold in H.
  - destruct (startsWithBits pattern []) eqn:E; [discriminate|].
    now destruct j.
  - destruct (startsWithBits pattern (c :: s)) eqn:E; [discriminate|].
    destruct (indexOf pattern s) eqn:Hi; [discriminate|].
    destruct j as [|j]; [exact E|]. now apply IH.
Qed.

Lemma indexOf_after (pattern : list bool) :
  forall before rest,
    (forall j, (j < List.length before)%nat ->
               startsWithBits pattern (skipn j (before ++ rest)) = false) ->
    indexOf pattern (before ++ rest)
    = option_map (Nat.add (List.length before)) (indexOf pattern rest).
Proof.
  induction before as [|c before IH]; intros rest Hno.
  - cbn [app List.length]. now destruct (indexOf pattern rest).
  - cbn [app]. rewrite indexOf_unfold.
    pose proof (Hno 0%nat ltac:(simpl; lia)) as H0. cbn [skipn app] in H0.
    rewrite H0, IH.
    + now destruct (indexOf pattern rest).
    + intros j Hj. apply (Hno (S j)). simpl. lia.
Qed.

Lemma startsWithBits_app (pattern : list bool) :
  forall s more,
    (List.length pattern <= List.length s)%nat ->
    startsWithBits pattern (s ++ more) = startsWithBits pattern s.
Proof.
  induction pattern as [|p pattern IH]; intros s more Hlen; [reflexivity|].
  destruct s as [|c s]; [simpl in Hlen; lia|].
  cbn [app startsWithBits]. rewrite IH by (simpl in Hlen; lia).
  reflexivity.
Qed.

Lemma occurrence_skipn (pattern s : list bool) (j : nat) :
  (j <= List.length s)%nat ->
  startsWithBits pattern (skipn j s) = true ->
  exists after, s = (firstn j s ++ pattern ++ after)%list.
Proof.
  intros Hj H. apply startsWithBits_iff in H as [rest H].
  exists rest. now rewrite <- H, firstn_skipn.
Qed.
End HuntFacts.

(** X23: a receiver that has not found the sync pattern hands nothing
    over and leaves the packet buffer alone.  It finds the pattern exactly
    when the pattern occurs in the bits it holds; the bits it keeps are then
    those after the first occurrence.  When the pattern does not occur it
    keeps all the bits up to 1000 of them, and the last 100 beyond. *)
Theorem hunting_cuts_after_first_sync (st : demodulationState)
        (bits : list (option bool)) :
  syncDetected st = false ->
  let stream := appendBits (bitStream st) bits in
  let st' := fst (processReceivedBits st bits) in
  snd (processReceivedBits st bits) = []
  /\ packetBuffer st' = packetBuffer st
  /\ (syncDetected st' = true
      <-> exists before after, occursAt syncPattern stream before after)
  /\ (forall before after,
         occursAt syncPattern stream before after ->
         (forall before' after',
             occursAt syncPattern stream before' after' ->
             (List.length before <= List.length before')%nat) ->
         bitStream st' = after)
  /\ (syncDetected st' = false ->
      bitStream st'
      = if (1000 <? List.length stream)%nat
        then skipn (List.length stream - 100) stream
        else stream).
Proof.
  intros Hs stream st'. subst st'. unfold processReceivedBits.
  rewrite Hs. cbn [negb]. fold stream.
  destruct (indexOf syncPattern stream) as [idx|] eqn:Hidx.
  - cbn [fst snd packetBuffer syncDetected bitStream].
    destruct (indexOf_Some _ _ _ Hidx) as (Hat & Hle & Hfirst).
    destruct (occurrence_skipn _ _ _ Hle Hat) as [after0 Hocc].
    split; [reflexivity|]. split; [reflexivity|]. split; [|split].
    + split; [intros _|reflexivity].
      now exists (firstn idx stream), after0.
    + intros before after Hhere Hmin.
      assert (Hlen0 : List.length (firstn idx stream) = idx)
        by (rewrite length_firstn; lia).
      pose proof (Hmin _ _ Hocc) as Hle1. rewrite Hlen0 in Hle1.
      assert (Hge : (idx <= List.length before)%nat).
      { destruct (Nat.le_gt_cases idx (List.length before)) as [|Hlt];
          [assumption|exfalso].
        specialize (Hfirst _ Hlt). unfold occursAt in Hhere.
        rewrite Hhere, skipn_app, skipn_all, Nat.sub_diag, skipn_O in Hfirst.
        cbn [app] in Hfirst.
        assert (Hyes : startsWithBits syncPattern (syncPattern ++ after)
                       = true)
          by (apply startsWithBits_iff; now exists after).
        congruence. }
      assert (Heq : List.length before = idx) by lia.
      unfold occursAt in Hhere. rewrite Hhere, <- Heq.
      rewrite skipn_app.
      rewrite skipn_all2 by lia. cbn [app].
      replace (List.length before + List.length syncPattern
               - List.length before)%nat
        with (List.length syncPattern) by lia.
      rewrite skipn_app, skipn_all, Nat.sub_diag, skipn_O. reflexivity.
    + discriminate.
  - assert (Hnone : ~ exists before after,
                        occursAt syncPattern stream before after).
    { intros (before & after & Hocc).
      pose proof (indexOf_None _ _ Hidx (List.length before)) as Hno.
      unfold occursAt in Hocc.
      rewrite Hocc, skipn_app, skipn_all, Nat.sub_diag, skipn_O in Hno.
      cbn [app] in Hno.
      assert (Hyes : startsWithBits syncPattern (syncPattern ++ after) = true)
        by (apply startsWithBits_iff; now exists after).
      congruence. }
    destruct (1000 <? List.length stream)%nat;
      cbn [fst snd packetBuffer syncDetected bitStream];
      (split; [reflexivity|]; split; [reflexivity|]; split; [|split]);
      try (split; [discriminate|intros H; now apply Hnone in H]);
      try (intros before after Hocc _; exfalso; apply Hnone; eauto);
      reflexivity.
Qed.

Lemma hunting_cuts_after_first_sync_witness :
  bitStream
    (fst (processReceivedBits
            (hunting [false; true])
            (map Some (syncPattern ++ [true; true; false]))))
  = [true; true; false].
Proof.
  pose proof (hunting_cuts_after_first_sync
                (hunting [false; true])
                (map Some (syncPattern ++ [true; true; false])) eq_refl)
    as (_ & _ & _ & Hcut & _).
  apply (Hcut [false; true]).
  - reflexivity.
  - intros before' after' Hocc. unfold occursAt in Hocc.
    destruct before' as [|b0 [|b1 before']]; [| |simpl; lia];
      vm_compute in Hocc; discriminate Hocc.
Defined.

(** X24: shortening a long bit stream to its last 100 bits loses no
    sync pattern.  When the pattern does not occur in the bits held, its
    first occurrence after more bits have arrived is found in the shortened
    stream as well, and the same bits follow it. *)
Theorem trimming_keeps_the_sync (stream more : list bool) :
  indexOf syncPattern stream = None ->
  (100 <= List.length stream)%nat ->
  let kept := skipn (List.length stream - 100) stream in
  option_map (fun idx => skipn (idx + List.length syncPattern) (kept ++ more))
             (indexOf syncPattern (kept ++ more))
  = option_map
      (fun idx => skipn (idx + List.length syncPattern) (stream ++ more))
      (indexOf syncPattern (stream ++ more)).
Proof.
  intros Hnone Hlen kept.
  set (cut := firstn (List.length stream - 100) stream).
  assert (Hsplit : stream = (cut ++ kept)%list)
    by (symmetry; apply firstn_skipn).
  assert (Hcut : List.length cut = (List.length stream - 100)%nat)
    by (unfold cut; rewrite length_firstn; lia).
  assert (Hkept : List.length kept = 100%nat)
    by (unfold kept; rewrite length_skipn; lia).
  assert (Hafter : indexOf syncPattern (cut ++ kept ++ more)
                   = option_map (Nat.add (List.length cut))
                                (indexOf syncPattern (kept ++ more))).
  { apply indexOf_after. intros j Hj.
    rewrite app_assoc, <- Hsplit, skipn_app.
    replace (j - List.length stream)%nat with 0%nat by lia. cbn [skipn].
    rewrite startsWithBits_app
      by (rewrite length_skipn; cbn [syncPattern List.length]; lia).
    now apply indexOf_None. }
  replace (stream ++ more)%list with (cut ++ kept ++ more)%list
    by (now rewrite app_assoc, <- Hsplit).
  rewrite Hafter.
  destruct (indexOf syncPattern (kept ++ more)) as [idx|]; [|reflexivity].
  cbn [option_map]. f_equal.
  replace (List.length cut + idx + List.length syncPattern)%nat
    with (List.length cut + (idx + List.length syncPattern))%nat by lia.
  rewrite (skipn_app _ cut (kept ++ more)), (skipn_all2 cut) by lia.
  cbn [app]. f_equal. lia.
Qed.

Lemma trimming_keeps_the_sync_witness :
  option_map
    (fun idx => skipn (idx + List.length syncPattern)
                      (skipn (List.length (repeat true 101 ++ [false])
                              - 100)
                             (repeat true 101 ++ [false])
                         ++ [true; false; true; false; true; false; true]))
    (indexOf syncPattern
             (skipn (List.length (repeat true 101 ++ [false]) - 100)
                    (repeat true 101 ++ [false])
                ++ [true; false; true; false; true; false; true]))
  = option_map
      (fun idx => skipn (idx + List.length syncPattern)
                        ((repeat true 101 ++ [false])
                           ++ [true; false; true; false; true; false; true]))
      (indexOf syncPattern
               ((repeat true 101 ++ [false])
                  ++ [true; false; true; false; true; false; true])).
Proof.
  apply (trimming_keeps_the_sync
           (repeat true 101 ++ [false])
           [true; false; true; false; true; false; true]).
  - vm_compute. reflexivity.
  - vm_compute. lia.
Defined.

(** ** Framing across calls *)

Section IncrementalFacts.
Local Open Scope string_scope.

Lemma appendBits_app (stream : list bool) (bits1 bits2 : list (option bool)) :
  appendBits stream (bits1 ++ bits2)
  = appendBits (appendBits stream bits1) bits2.
Proof. unfold appendBits. apply fold_left_app. Qed.

Lemma appendBits_extends (bits : list (option bool)) :
  forall stream, exists new,
    appendBits stream bits = (stream ++ new)%list
    /\ forall stream', appendBits stream' bits = (stream' ++ new)%list.
Proof.
  induction bits as [|[b|] bits IH]; intros stream.
  - exists []. split; [now rewrite app_nil_r|].
    intros stream'. now rewrite app_nil_r.
  - destruct (IH (stream ++ [b])%list) as (new & Hnew & Hall).
    exists (b :: new). split.
    + cbn [appendBits fold_left]. fold (appendBits (stream ++ [b]) bits).
      now rewrite Hnew, <- app_assoc.
    + intros stream'. cbn [appendBits fold_left].
      fold (appendBits (stream' ++ [b]) bits).
      now rewrite Hall, <- app_assoc.
  - destruct (IH stream) as (new & Hnew & Hall).
    exists new. split; [exact Hnew|exact Hall].
Qed.

(** The framing loop run on more bits is the loop run on the first
    bits, then on what it left followed by the others. *)
Lemma framedLoop_app (more : list bool) :
  forall n bits, (List.length bits <= n)%nat ->
  forall buffer0 sync delivered,
    framedLoop (bits ++ more) buffer0 sync delivered
    = let '(st, d) := framedLoop bits buffer0 sync delivered in
      framedLoop (bitStream st ++ more) (packetBuffer st)
                 (syncDetected st) d.
Proof.
  induction n as [|n IH]; intros bits Hlen buffer0 sync delivered.
  - destruct bits; [reflexivity|simpl in Hlen; lia].
  - destruct bits as [|b7 [|b6 [|b5 [|b4 [|b3 [|b2 [|b1 [|b0 rest]]]]]]]];
      try reflexivity.
    cbn [app framedLoop].
    destruct (framedStep buffer0 sync
                (fromCharCode (parseInt2 [b7; b6; b5; b4; b3; b2; b1; b0])))
      as [[b s] packet].
    apply IH. simpl in Hlen. lia.
Qed.

(** What the loop hands over comes after what was handed over. *)
Lemma framedLoop_delivered :
  forall n bits, (List.length bits <= n)%nat ->
  forall buffer0 sync delivered,
    framedLoop bits buffer0 sync delivered
    = (fst (framedLoop bits buffer0 sync []),
       (delivered
          ++ snd (framedLoop bits buffer0 sync []))%list).
Proof.
  induction n as [|n IH]; intros bits Hlen buffer0 sync delivered.
  - destruct bits; [|simpl in Hlen; lia].
    cbn [framedLoop fst snd]. now rewrite app_nil_r.
  - destruct bits as [|b7 [|b6 [|b5 [|b4 [|b3 [|b2 [|b1 [|b0 rest]]]]]]]];
      try (cbn [framedLoop fst snd]; now rewrite app_nil_r).
    cbn [framedLoop].
    destruct (framedStep buffer0 sync
                (fromCharCode (parseInt2 [b7; b6; b5; b4; b3; b2; b1; b0])))
      as [[b s] [p|]].
    + rewrite (IH rest ltac:(simpl in Hlen; lia) b s (delivered ++ [p])%list).
      rewrite (IH rest ltac:(simpl in Hlen; lia) b s ([] ++ [p])%list).
      cbn [fst snd app]. now rewrite <- app_assoc.
    + apply IH. simpl in Hlen. lia.
Qed.

(** The loop leaves fewer than 8 bits, and a buffer of at most 5000
    characters if it was one. *)
Lemma framedLoop_leaves :
  forall n bits, (List.length bits <= n)%nat ->
  forall buffer0 sync delivered,
    let st := fst (framedLoop bits buffer0 sync delivered) in
    (List.length (bitStream st) < 8)%nat
    /\ List.length (bitStream st) = (List.length bits mod 8)%nat
    /\ ((String.length buffer0 <= 5000)%nat ->
        (String.length (packetBuffer st) <= 5000)%nat)
    /\ (sync = false -> syncDetected st = false).
Proof.
  induction n as [|n IH]; intros bits Hlen buffer0 sync delivered.
  - destruct bits; [|simpl in Hlen; lia].
    cbn. repeat split; auto; lia.
  - destruct bits as [|b7 [|b6 [|b5 [|b4 [|b3 [|b2 [|b1 [|b0 rest]]]]]]]];
      try (cbn; repeat split; auto; lia).
    cbn [framedLoop].
    pose proof (framedStep_cases buffer0 sync
                  (fromCharCode (parseInt2 [b7; b6; b5; b4; b3; b2; b1; b0])))
      as Hcases.
    unfold framedStep in *.
    set (buffer := buffer0
                     ++ String (fromCharCode
                                  (parseInt2 [b7; b6; b5; b4; b3; b2; b1; b0]))
                               "") in *.
    assert (Hmod : (List.length (b7 :: b6 :: b5 :: b4 :: b3 :: b2 :: b1
                                    :: b0 :: rest) mod 8
                    = List.length rest mod 8)%nat).
    { cbn [List.length].
      replace (S (S (S (S (S (S (S (S (List.length rest)))))))))
        with (List.length rest + 1 * 8)%nat by lia.
      apply Nat.Div0.mod_add. }
    rewrite Hmod.
    destruct (deliverable buffer).
    + cbn [String.length Nat.ltb Nat.leb].
      destruct (IH rest ltac:(simpl in Hlen; lia) "" false
                   (delivered ++ [buffer])%list) as (H1 & H2 & H3 & H4).
      repeat split; auto. intros _. apply H3. simpl. lia.
    + destruct (5000 <? String.length buffer)%nat eqn:E.
      * destruct (IH rest ltac:(simpl in Hlen; lia) "" false delivered)
          as (H1 & H2 & H3 & H4).
        repeat split; auto. intros _. apply H3. simpl. lia.
      * apply Nat.ltb_ge in E.
        destruct (IH rest ltac:(simpl in Hlen; lia) buffer sync
                     delivered) as (H1 & H2 & H3 & H4).
        repeat split; auto.
Qed.
(** Once a packet has been handed over the loop runs without sync. *)
Lemma framedTurn_unsynced (codes : list N) :
  forall acc,
    (snd acc <> [] -> snd (fst acc) = false) ->
    snd (fold_left framedTurn codes acc) <> [] ->
    snd (fst (fold_left framedTurn codes acc)) = false.
Proof.
  induction codes as [|c codes IH]; intros acc Hacc; [exact Hacc|].
  cbn [fold_left]. apply IH.
  destruct acc as [[b s] d]. unfold framedTurn.
  destruct (framedStep_cases b s (fromCharCode c))
    as [[_ ->]|[_ (b' & s' & Hstep)]]; [reflexivity|].
  rewrite Hstep. cbn [fst snd] in *. intros Hd.
  specialize (Hacc Hd). subst s.
  unfold framedStep in Hstep.
  destruct (deliverable (b ++ String (fromCharCode c) ""));
    [discriminate|].
  destruct (5000 <? _)%nat; now injection Hstep as _ <-.
Qed.
End IncrementalFacts.

(** X25: framing does not depend on how the bits are split over calls.
    When a receiver that has found the sync pattern is still in that state
    after one batch of bits, handling a second batch gives the state and the
    packets that handling the two batches as one would have given. *)
Theorem framing_is_incremental (st : demodulationState)
        (bits1 bits2 : list (option bool)) :
  syncDetected st = true ->
  syncDetected (fst (processReceivedBits st bits1)) = true ->
  processReceivedBits st (bits1 ++ bits2)%list
  = (fst (processReceivedBits (fst (processReceivedBits st bits1)) bits2),
     (snd (processReceivedBits st bits1)
        ++ snd (processReceivedBits (fst (processReceivedBits st bits1))
                                    bits2))%list).
Proof.
  intros Hs Hs1. unfold processReceivedBits in *.
  rewrite Hs in *. cbn [negb] in *.
  rewrite appendBits_app.
  destruct (appendBits_extends bits2 (appendBits (bitStream st) bits1))
    as (new & Hnew & Hall).
  rewrite Hnew.
  rewrite (framedLoop_app new _ _ (le_n _)).
  destruct (framedLoop (appendBits (bitStream st) bits1) (packetBuffer st)
                       true []) as [st1 d1] eqn:E1.
  cbn [fst snd] in *. rewrite Hs1. cbn [negb]. rewrite Hall.
  apply (framedLoop_delivered _ _ (le_n _)).
Qed.

Lemma framing_is_incremental_witness :
  processReceivedBits framed
    (map Some (encodeToBinary (codeUnits "DATA:"))
       ++ map Some (encodeToBinary (codeUnits "0:0100")))%list
  = (fst (processReceivedBits
            (fst (processReceivedBits
                    framed (map Some (encodeToBinary (codeUnits "DATA:")))))
            (map Some (encodeToBinary (codeUnits "0:0100")))),
     (snd (processReceivedBits
             framed (map Some (encodeToBinary (codeUnits "DATA:"))))
        ++ snd (processReceivedBits
                  (fst (processReceivedBits
                          framed
                          (map Some (encodeToBinary (codeUnits "DATA:")))))
                  (map Some (encodeToBinary (codeUnits "0:0100")))))%list).
Proof.
  apply (framing_is_incremental
           framed (map Some (encodeToBinary (codeUnits "DATA:")))
           (map Some (encodeToBinary (codeUnits "0:0100")))).
  - reflexivity.
  - vm_compute. reflexivity.
Defined.

(** X26: what a call leaves behind.  A receiver that has found the
    sync pattern keeps fewer than 8 bits for the next call, the remainder of
    the bits it held modulo 8; its packet buffer never grows beyond 5000
    characters; and whenever the call hands a packet over, the receiver
    leaves the call without sync. *)
Theorem framed_call_leaves_less_than_a_byte (st : demodulationState)
        (bits : list (option bool)) :
  syncDetected st = true ->
  (String.length (packetBuffer st) <= 5000)%nat ->
  let st' := fst (processReceivedBits st bits) in
  (List.length (bitStream st') < 8)%nat
  /\ List.length (bitStream st')
     = (List.length (appendBits (bitStream st) bits) mod 8)%nat
  /\ (String.length (packetBuffer st') <= 5000)%nat
  /\ (snd (processReceivedBits st bits) <> [] -> syncDetected st' = false).
Proof.
  intros Hs Hbuf st'. subst st'. unfold processReceivedBits.
  rewrite Hs. cbn [negb].
  set (stream := appendBits (bitStream st) bits).
  destruct (framedLoop_leaves _ stream (le_n _) (packetBuffer st) true [])
    as (H1 & H2 & H3 & _).
  split; [exact H1|]. split; [exact H2|]. split; [now apply H3|].
  rewrite (framedLoop_turns _ _ (le_n _)).
  pose proof (framedTurn_unsynced (charCodes stream)
                (packetBuffer st, true, [])) as Hun.
  destruct (fold_left framedTurn (charCodes stream)
                      (packetBuffer st, true, [])) as [[b s] d].
  cbn [fst snd] in *. apply Hun. intros H. now contradiction H.
Qed.

Lemma framed_call_leaves_less_than_a_byte_witness :
  (List.length
     (bitStream (fst (processReceivedBits
                        framed [Some true; None; Some false; Some true])))
   < 8)%nat.
Proof.
  apply (framed_call_leaves_less_than_a_byte
           framed [Some true; None; Some false; Some true]).
  - reflexivity.
  - simpl. lia.
Defined.

(** ** A packet from the sender to [processPacket] *)

Section AirFacts.
Local Open Scope string_scope.

Lemma receiveFrom_cons (acc : demodulationState * list string)
      (b : list bool) (batches : list (list bool)) :
  receiveFrom acc (b :: batches)
  = receiveFrom (let '(st', packets) :=
                   processReceivedBits (fst acc) (map Some b) in
                 (st', (snd acc ++ packets)%list)) batches.
Proof. reflexivity. Qed.

Lemma receiveFrom_extends (batches : list (list bool)) :
  forall acc, exists more,
    snd (receiveFrom acc batches) = (snd acc ++ more)%list.
Proof.
  induction batches as [|b batches IH]; intros acc.
  - exists []. now rewrite app_nil_r.
  - cbn [receiveFrom fold_left].
    destruct (processReceivedBits (fst acc) (map Some b)) as [st' packets].
    destruct (IH (st', (snd acc ++ packets)%list)) as [more Hmore].
    unfold receiveFrom in Hmore. rewrite Hmore. cbn [snd].
    exists (packets ++ more)%list. now rewrite app_assoc.
Qed.

Lemma short_no_sync (s : list bool) :
  (List.length s < 8)%nat -> indexOf syncPattern s = None.
Proof.
  intros Hlen. destruct (indexOf syncPattern s) as [idx|] eqn:E;
    [exfalso|reflexivity].
  apply indexOf_Some in E as (Hat & Hle & _).
  apply startsWithBits_iff in Hat as [rest Hat].
  apply (f_equal (@List.length bool)) in Hat.
  rewrite length_skipn, length_app in Hat.
  cbn [syncPattern List.length] in Hat. lia.
Qed.

Lemma sync_at_start (rest : list bool) :
  indexOf syncPattern (syncPattern ++ rest) = Some 0%nat.
Proof.
  rewrite indexOf_unfold.
  assert (H : startsWithBits syncPattern (syncPattern ++ rest) = true)
    by (apply startsWithBits_iff; now exists rest).
  now rewrite H.
Qed.

Lemma framedLoop_short (bits : list bool) (buffer0 : string) (sync : bool)
      (delivered : list string) :
  (List.length bits < 8)%nat ->
  framedLoop bits buffer0 sync delivered
  = ({| bitStream := bits; packetBuffer := buffer0;
        syncDetected := sync |}, delivered).
Proof.
  intros Hlen.
  destruct bits as [|b7 [|b6 [|b5 [|b4 [|b3 [|b2 [|b1 [|b0 rest]]]]]]]];
    try reflexivity.
  simpl in Hlen. lia.
Qed.

Lemma charCodes_length :
  forall n bits, (List.length bits <= n)%nat ->
    List.length (charCodes bits) = (List.length bits / 8)%nat.
Proof.
  induction n as [|n IH]; intros bits Hlen.
  - destruct bits; [reflexivity|simpl in Hlen; lia].
  - destruct bits as [|b7 [|b6 [|b5 [|b4 [|b3 [|b2 [|b1 [|b0 rest]]]]]]]];
      try reflexivity.
    cbn [charCodes List.length]. rewrite IH by (simpl in Hlen; lia).
    replace (S (S (S (S (S (S (S (S (List.length rest)))))))))
      with (1 * 8 + List.length rest)%nat by lia.
    rewrite Nat.div_add_l by lia. lia.
Qed.

(** Turns that hand nothing over and stay below 5000 characters only
    collect. *)
Lemma framedTurn_quiet (codes : list N) :
  forall buffer0,
    snd (fold_left framedTurn codes (buffer0, true, [])) = [] ->
    (String.length buffer0 + List.length codes <= 5000)%nat ->
    exists buffer1,
      fold_left framedTurn codes (buffer0, true, []) = (buffer1, true, [])
      /\ String.length buffer1
         = (String.length buffer0 + List.length codes)%nat.
Proof.
  induction codes as [|c codes IH]; intros buffer0 Hnone Hlen.
  - exists buffer0. split; [reflexivity|]. simpl. lia.
  - cbn [fold_left] in *. unfold framedTurn at 2 in Hnone.
    unfold framedTurn at 2.
    destruct (framedStep_cases buffer0 true (fromCharCode c))
      as [[_ Hstep]|[Hd _]].
    + exfalso. rewrite Hstep in Hnone.
      destruct (framedTurn_keeps_delivered codes
                  ("", false,
                   ([] ++ [(buffer0 ++ String (fromCharCode c) "")%string])%list))
        as [more Hmore].
      rewrite Hmore in Hnone. discriminate Hnone.
    + unfold framedStep in *. rewrite Hd in *.
      assert (Hl : String.length (buffer0 ++ String (fromCharCode c) "")
                   = (String.length buffer0 + 1)%nat)
        by (rewrite append_length; reflexivity).
      cbn [List.length] in Hlen.
      replace (5000 <? String.length (buffer0 ++ String (fromCharCode c) ""))%nat
        with false in * by (symmetry; apply Nat.ltb_ge; lia).
      assert (Hlen' : (String.length (buffer0 ++ String (fromCharCode c) "")
                       + List.length codes <= 5000)%nat) by lia.
      destruct (IH _ Hnone Hlen') as (buffer1 & Heq & Hlen1).
      exists buffer1. split; [exact Heq|]. cbn [List.length]. lia.
Qed.

Lemma framedLoop_quiet (bits : list bool) (buffer0 : string)
      (st1 : demodulationState) :
  framedLoop bits buffer0 true [] = (st1, []) ->
  (String.length buffer0 + List.length bits / 8 <= 5000)%nat ->
  syncDetected st1 = true
  /\ String.length (packetBuffer st1)
     = (String.length buffer0 + List.length bits / 8)%nat
  /\ List.length (bitStream st1) = (List.length bits mod 8)%nat.
Proof.
  intros Hrun Hlen.
  pose proof (framedLoop_leaves _ bits (le_n _) buffer0 true [])
    as (_ & Hmod & _).
  rewrite Hrun in Hmod. cbn [fst] in Hmod.
  rewrite (framedLoop_turns _ _ (le_n _)) in Hrun.
  pose proof (charCodes_length _ bits (le_n _)) as Hcodes.
  destruct (framedTurn_quiet (charCodes bits) buffer0) as (b1 & Heq & Hb1).
  - destruct (fold_left framedTurn (charCodes bits) (buffer0, true, []))
      as [[b s] d]. now injection Hrun as _ ->.
  - lia.
  - rewrite Heq in Hrun. injection Hrun as <-.
    cbn [syncDetected packetBuffer]. repeat split; [lia|exact Hmod].
Qed.

(** Until the first packet is handed over, the calls of a receiver in
    sync do together what one call on all the bits would do. *)
Lemma framed_first_packet (batches : list (list bool)) :
  forall st d0 p more,
    syncDetected st = true ->
    (batches <> [] \/ (List.length (bitStream st) < 8)%nat) ->
    (String.length (packetBuffer st)
     + List.length (bitStream st ++ List.concat batches) / 8 <= 5000)%nat ->
    snd (framedLoop (bitStream st ++ List.concat batches)%list
                    (packetBuffer st) true [])
    = p :: more ->
    exists more',
      snd (receiveFrom (st, d0) batches) = (d0 ++ p :: more')%list.
Proof.
  induction batches as [|b batches IH];
    intros st d0 p more Hs Hnext Hbudget Hone.
  - exfalso. destruct Hnext as [H|H]; [now apply H|].
    cbn [List.concat] in Hone. rewrite app_nil_r in Hone.
    rewrite framedLoop_short in Hone by exact H. discriminate Hone.
  - rewrite receiveFrom_cons. cbn [fst snd].
    unfold processReceivedBits. rewrite Hs. cbn [negb].
    rewrite appendBits_heard.
    cbn [List.concat] in Hone, Hbudget. rewrite app_assoc in Hone, Hbudget.
    rewrite (framedLoop_app _ _ _ (le_n _)) in Hone.
    destruct (framedLoop (bitStream st ++ b) (packetBuffer st) true [])
      as [st1 d1] eqn:E1.
    rewrite (framedLoop_delivered _ _ (le_n _)) in Hone.
    cbn [snd] in Hone.
    destruct d1 as [|q d1].
    + cbn [app] in Hone. rewrite app_nil_r.
      rewrite length_app in Hbudget.
      destruct (framedLoop_quiet _ _ _ E1) as (Hs1 & Hb1 & Hl1).
      { pose proof (Nat.Div0.div_le_mono
                      (List.length (bitStream st ++ b))
                      (List.length (bitStream st ++ b)
                       + List.length (List.concat batches)) 8
                      ltac:(lia)).
        lia. }
      rewrite Hs1 in Hone.
      apply (IH st1 d0 p more Hs1).
      * right. rewrite Hl1. apply Nat.mod_upper_bound. lia.
      * rewrite length_app, Hl1, Hb1.
        pose proof (Nat.div_mod (List.length (bitStream st ++ b)) 8
                                ltac:(lia)) as Hdm.
        set (X := List.length (bitStream st ++ b)) in *.
        set (C := List.length (List.concat batches)) in *.
        assert (Hsum : ((X + C) / 8 = X / 8 + (X mod 8 + C) / 8)%nat).
        { rewrite Hdm at 1.
          replace (8 * (X / 8) + X mod 8 + C)%nat
            with (X / 8 * 8 + (X mod 8 + C))%nat by lia.
          now rewrite Nat.div_add_l by lia. }
        lia.
      * exact Hone.
    + cbn [app] in Hone. injection Hone as <- _.
      destruct (receiveFrom_extends batches (st1, (d0 ++ q :: d1)%list))
        as [more' Hmore].
      rewrite Hmore. cbn [snd]. exists (d1 ++ more')%list.
      now rewrite <- app_assoc.
Qed.

(** Hunting ends with the chord that completes the sync pattern. *)
Lemma hunting_until_sync (batches : list (list bool)) :
  forall s0 d0 rest,
    (List.length s0 < 8)%nat ->
    Forall (fun b => (List.length b <= 96)%nat) batches ->
    (s0 ++ List.concat batches = syncPattern ++ rest)%list ->
    (96 <= List.length rest)%nat ->
    exists l1 batches',
      batches' <> []
      /\ (l1 ++ List.concat batches' = rest)%list
      /\ receiveFrom ({| bitStream := s0; packetBuffer := "";
                         syncDetected := false |}, d0) batches
         = receiveFrom ({| bitStream := l1; packetBuffer := "";
                           syncDetected := true |}, d0) batches'.
Proof.
  induction batches as [|b batches IH];
    intros s0 d0 rest Hs0 Hsmall Hall Hrest.
  - exfalso. cbn [List.concat] in Hall. rewrite app_nil_r in Hall.
    apply (f_equal (@List.length bool)) in Hall.
    rewrite length_app in Hall. cbn [syncPattern List.length] in Hall. lia.
  - inversion Hsmall as [|? ? Hb Hsmall']; subst.
    rewrite receiveFrom_cons. cbn [fst snd].
    unfold processReceivedBits.
    cbn [syncDetected bitStream packetBuffer negb].
    rewrite appendBits_heard.
    cbn [List.concat] in Hall. rewrite app_assoc in Hall.
    destruct (Nat.lt_ge_cases (List.length (s0 ++ b)) 8) as [Hshort|Hlong].
    + rewrite short_no_sync by exact Hshort.
      replace (1000 <? List.length (s0 ++ b))%nat with false
        by (symmetry; apply Nat.ltb_ge; lia).
      rewrite app_nil_r.
      apply (IH (s0 ++ b)%list d0 rest Hshort Hsmall' Hall Hrest).
    + assert (Hcut : (s0 ++ b = syncPattern ++ skipn 8 (s0 ++ b))%list).
      { rewrite <- (firstn_skipn 8 (s0 ++ b)) at 1. f_equal.
        apply (f_equal (firstn 8)) in Hall.
        rewrite firstn_app in Hall.
        replace (8 - List.length (s0 ++ b))%nat with 0%nat in Hall by lia.
        cbn [firstn] in Hall. rewrite app_nil_r in Hall.
        rewrite Hall. reflexivity. }
      remember (skipn 8 (s0 ++ b)) as l1 eqn:El1.
      rewrite Hcut. rewrite sync_at_start.
      replace (skipn (0 + List.length syncPattern) (syncPattern ++ l1))
        with l1 by reflexivity.
      rewrite app_nil_r.
      assert (Hl1 : (l1 ++ List.concat batches = rest)%list).
      { rewrite Hcut, <- app_assoc in Hall.
        now apply app_inv_head in Hall. }
      exists l1, batches. split; [|split; [exact Hl1|reflexivity]].
      intros ->. cbn [List.concat] in Hl1. rewrite app_nil_r in Hl1.
      subst rest. rewrite El1, length_skipn in Hrest.
      rewrite length_app in *. lia.
Qed.

Lemma encodeToBinary_codeUnits_length (s : string) :
  List.length (encodeToBinary (codeUnits s)) = (8 * String.length s)%nat.
Proof.
  rewrite (proj2 (proj2 (encodeToBinary_length (codeUnits s)))
                 (codeUnits_small s)).
  unfold codeUnits. rewrite length_map. f_equal.
  induction s as [|c s IH]; [reflexivity|]. simpl. now rewrite IH.
Qed.

(** The loop on the bits of a tagged message, whatever follows. *)
Lemma framedLoop_tagged (head : string) (after : list bool) :
  String.length head = 11%nat ->
  allChars notNul head = true ->
  tagged head = true ->
  exists more,
    snd (framedLoop (encodeToBinary (codeUnits head) ++ after)%list
                    "" true [])
    = head :: more.
Proof.
  intros Hlen Hnul Htag.
  destruct (deliveredFrom_tagged head "" Hlen Hnul Htag) as [more Hmore].
  unfold deliveredFrom, processReceivedBits, framed in Hmore.
  cbn [syncDetected bitStream packetBuffer negb] in Hmore.
  rewrite appendBits_heard, append_nil_r in Hmore. cbn [app] in Hmore.
  rewrite (framedLoop_app _ _ _ (le_n _)).
  destruct (framedLoop (encodeToBinary (codeUnits head)) "" true [])
    as [st d].
  cbn [snd] in Hmore. subst d.
  rewrite (framedLoop_delivered _ _ (le_n _)). cbn [snd app]. eauto.
Qed.

Lemma receptionLoop_clear (binOf : Z -> Z) (N : nat)
      (optimalFrequencies : list Z) :
  (1 <= N)%nat -> List.length optimalFrequencies = N ->
  forall spectra chords acc,
    heardInTheClear binOf optimalFrequencies spectra chords ->
    Forall (fun chord => List.length chord = N) chords ->
    fold_left (fun acc spectrum =>
                 let '(st', packets) :=
                   checkForSignal binOf N optimalFrequencies (fst acc)
                                  spectrum in
                 (st', (snd acc ++ packets)%list))
              spectra acc
    = receiveFrom acc chords.
Proof.
  intros HN Hfreqs spectra chords acc Hclear.
  revert acc. induction Hclear as [|spectrum chord spectra chords Hc _ IH];
    intros acc Hlen; [reflexivity|].
  inversion Hlen as [|? ? Hl Hlen']; subst.
  cbn [fold_left receiveFrom]. unfold checkForSignal at 2.
  rewrite (demodulateChord_clear binOf _ optimalFrequencies spectrum chord
             HN eq_refl Hl Hc).
  now apply IH.
Qed.

Lemma playedSpectrum_clear (b0 b1 b2 b3 : bool) :
  clearChord hundredHz fourCarriers (playedSpectrum [b0; b1; b2; b3])
             [b0; b1; b2; b3].
Proof.
  intros [|[|[|[|ch]]]] baseFreq bit Hf Hb;
    try (destruct ch; discriminate Hf);
    cbn in Hf, Hb; injection Hf as <-; injection Hb as <-;
    destruct b0, b1, b2, b3; unfold clear; vm_compute; split; reflexivity.
Qed.

Lemma played_heardInTheClear (chords : list (list bool)) :
  Forall (fun chord => List.length chord = 4%nat) chords ->
  heardInTheClear hundredHz fourCarriers (map playedSpectrum chords) chords.
Proof.
  induction 1 as [|chord chords Hlen _ IH]; constructor; [|exact IH].
  destruct chord as [|b0 [|b1 [|b2 [|b3 [|b4 chord]]]]];
    try discriminate Hlen.
  apply playedSpectrum_clear.
Qed.
End AirFacts.

(** X27: from [sendPacket] to [processPacket].  With 1 to 96 channels,
    when the chords [sendPacket] plays for a message are each read once and
    in the clear by a receiver in its initial state, the first packet handed
    to [processPacket] is the first 11 characters of the message: for every
    message of the sender, which starts with [META:], [DATA:] or [END:],
    holds no NUL in its first 11 characters and has 11 to 4900
    characters. *)
Theorem sendPacket_arrives_cut_at_11 (binOf : Z -> Z) (N : nat)
        (optimalFrequencies : list Z) (spectra : list (list Z))
        (head tail : string) :
  (1 <= N <= 96)%nat ->
  List.length optimalFrequencies = N ->
  String.length head = 11%nat ->
  allChars notNul head = true ->
  tagged head = true ->
  (String.length tail <= 4889)%nat ->
  heardInTheClear binOf optimalFrequencies spectra
                  (sendPacket N (codeUnits (head ++ tail))) ->
  exists more,
    snd (receptionLoop binOf N optimalFrequencies spectra initialState)
    = head :: more.
Proof.
  intros [HN HN96] Hfreqs Hlen Hnul Htag Htail Hclear.
  unfold receptionLoop.
  set (chords := sendPacket N (codeUnits (head ++ tail))) in *.
  assert (Hchords : Forall (fun chord => List.length chord = N) chords).
  { apply Forall_forall. intros chord Hin.
    unfold chords, sendPacket, transmitBinaryFSK in Hin.
    apply in_map_iff in Hin as (k & <- & _).
    unfold chordBits. now rewrite length_map, length_seq. }
  rewrite (receptionLoop_clear binOf N optimalFrequencies HN Hfreqs
             spectra chords _ Hclear Hchords).
  pose proof (transmit_heard N HN (frameOf (codeUnits (head ++ tail))))
    as Hheard.
  rewrite heard_concat in Hheard. fold (sendPacket N (codeUnits (head ++ tail)))
    in Hheard. fold chords in Hheard.
  pose proof (padding_bound N HN
                (List.length (frameOf (codeUnits (head ++ tail))))) as Hpad.
  set (pad := (share N (List.length (frameOf (codeUnits (head ++ tail)))) 0 * N
               - List.length (frameOf (codeUnits (head ++ tail))))%nat) in *.
  set (body := encodeToBinary (codeUnits (head ++ tail))).
  set (rest := (body ++ [false; true; false; true; false; true; false; true]
                     ++ repeat false pad)%list).
  assert (Hall : ([] ++ List.concat chords = syncPattern ++ rest)%list).
  { cbn [app]. rewrite Hheard. unfold frameOf, rest, body.
    change [true; false; true; false; true; false; true; false]
      with syncPattern.
    now rewrite <- !app_assoc. }
  assert (Hbody : List.length body = (8 * (11 + String.length tail))%nat).
  { unfold body. rewrite encodeToBinary_codeUnits_length, append_length.
    now rewrite Hlen. }
  assert (Hrest : List.length rest
                  = (8 * (11 + String.length tail) + 8 + pad)%nat).
  { unfold rest. rewrite !length_app, repeat_length, Hbody.
    cbn [List.length]. lia. }
  destruct (hunting_until_sync chords [] [] rest) as (l1 & bs & Hbs & Hl1 & Hrun).
  - simpl. lia.
  - eapply Forall_impl; [|exact Hchords]. intros chord Hc. cbv beta in Hc. lia.
  - exact Hall.
  - lia.
  - change initialState
      with {| bitStream := []; packetBuffer := ""; syncDetected := false |}.
    rewrite Hrun.
    destruct (framedLoop_tagged head
                (encodeToBinary (codeUnits tail)
                   ++ [false; true; false; true; false; true; false; true]
                   ++ repeat false pad)%list Hlen Hnul Htag)
      as [more Hmore].
    destruct (framed_first_packet bs
                {| bitStream := l1; packetBuffer := "";
                   syncDetected := true |} [] head more)
      as [more' Hmore'].
    + reflexivity.
    + now left.
    + cbn [bitStream packetBuffer String.length]. rewrite Hl1, Hrest.
      pose proof (Nat.Div0.div_le_mono
                    (8 * (11 + String.length tail) + 8 + pad)
                    (8 * 4999) 8 ltac:(lia)) as Hdiv.
      replace (8 * 4999 / 8)%nat with 4999%nat in Hdiv by reflexivity.
      lia.
    + cbn [bitStream packetBuffer]. rewrite Hl1. rewrite <- Hmore.
      unfold rest, body.
      rewrite codeUnits_app. unfold encodeToBinary.
      rewrite flat_map_app, <- !app_assoc. reflexivity.
    + exists more'. exact Hmore'.
Qed.

Lemma sendPacket_arrives_cut_at_11_witness :
  exists more,
    snd (receptionLoop hundredHz 4 fourCarriers
           (map playedSpectrum (sendPacket 4 (codeUnits "DATA:0:01000001")))
           initialState)
    = "DATA:0:0100"%string :: more.
Proof.
  apply (sendPacket_arrives_cut_at_11
           hundredHz 4 fourCarriers
           (map playedSpectrum (sendPacket 4 (codeUnits "DATA:0:01000001")))
           "DATA:0:0100" "0001").
  - lia.
  - reflexivity.
  - reflexivity.
  - vm_compute. reflexivity.
  - vm_compute. reflexivity.
  - simpl. lia.
  - apply played_heardInTheClear. vm_compute. repeat constructor.
Defined.

(** X28: what a chunk costs on the air under binary encoding.  The
    DATA packet of a chunk of bytes has 8 characters for each byte after its
    tag, index and colons, and the frame [sendPacket] makes of it has 8 bits
    for each character between the two sync bytes: more than 64 bits are
    sent for every byte of the chunk. *)
Theorem data_packet_bits_on_air (fileData : list Z) (i : nat) :
  Forall isByte fileData ->
  String.length (dataPacketOf fileData i)
  = (6 + String.length (decimal i)
     + 8 * List.length (chunkAt fileData i))%nat
  /\ List.length (frameOf (codeUnits (dataPacketOf fileData i)))
     = (16 + 8 * String.length (dataPacketOf fileData i))%nat
  /\ (64 * List.length (chunkAt fileData i)
      < List.length (frameOf (codeUnits (dataPacketOf fileData i))))%nat.
Proof.
  intros Hbytes.
  assert (Hpacket : String.length (dataPacketOf fileData i)
                    = (6 + String.length (decimal i)
                       + 8 * List.length (chunkAt fileData i))%nat).
  { unfold dataPacketOf. rewrite !append_length.
    rewrite encodeDataToBinary_length by now apply chunkAt_bytes.
    cbn [String.length]. lia. }
  assert (Hframe : List.length (frameOf (codeUnits (dataPacketOf fileData i)))
                   = (16 + 8 * String.length (dataPacketOf fileData i))%nat).
  { unfold frameOf. rewrite !length_app, encodeToBinary_codeUnits_length.
    cbn [List.length]. lia. }
  split; [exact Hpacket|]. split; [exact Hframe|].
  rewrite Hframe, Hpacket. lia.
Qed.

Lemma data_packet_bits_on_air_witness :
  (64 * List.length (chunkAt [65; 66]%Z 0)
   < List.length (frameOf (codeUnits (dataPacketOf [65; 66]%Z 0))))%nat.
Proof.
  apply (data_packet_bits_on_air [65; 66]%Z 0).
  unfold isByte. repeat constructor; lia.
Defined.
